(** * image-stitch: region interaction, asset graph and pixel composition

    A shallow embedding of the TypeScript sources of the image-stitch
    editor, and the proofs of the properties its specification states.

    - [types.ts]                    : records [CropRegion], [ImageLayer],
                                      [AssetGroup], [StitchItem];
    - [components/ImageCropper.tsx] : module [ImageCropper], the pointer
                                      driven create / move / resize machine;
    - [App.tsx]                     : module [App], the asset graph handlers;
    - [views/StitchView.tsx]        : module [StitchView], queue editing;
    - [utils/imageUtils.ts]         : module [ImageUtils], composite export,
                                      horizontal stitch and the justified row
                                      packer in exact arithmetic; module
                                      [ImageUtils64], crop export, horizontal
                                      stitch and justified layout in double
                                      precision.

    Modelling conventions.  The region machine and module [ImageUtils] hold
    a JavaScript [number] as an exact rational ([Q]); floating point
    rounding is not modelled there, and equality of computed numbers is
    [Qeq] ([==]).  Division in [Q] is total ([x / 0 == 0]) where JavaScript
    produces [Infinity] or [NaN]; statements about quotients therefore
    assume positive divisors.  Where the code turns a computed number into
    an integer or branches on it ([Math.ceil], [Math.round], [>=], the size
    of a canvas), exact arithmetic and doubles can part: those functions
    are embedded a second time, in module [ImageUtils64], over module
    [Number], the doubles with [NaN], the infinities and arithmetic that
    rounds to nearest after every operation.  [crypto.randomUUID()] is an
    extra argument of the handler that calls it, and so is what a handler
    reads from its environment: the content of a file, the result of
    [String.prototype.trim], a state variable that is not part of the
    modelled state.  React state setters are modelled by explicit state
    passing, a ref mirroring a state variable by that variable; the
    callbacks of [FileReader] and [Image] run at once.  In [ImageUtils] a
    canvas always has a 2d context; in [ImageUtils64] that is an argument. *)

From Stdlib Require Import ZArith QArith Qminmax Qround Qabs Qpower Lqa Lia.
From Stdlib Require Import List String Bool DecimalString.
From Stdlib Require Floats Uint63.
From stdpp Require Import base option list strings gmap.
Import ListNotations.

Local Open Scope Q_scope.

(** ** JavaScript values *)

(** Comparison operators of JavaScript numbers, as booleans. *)
Definition js_ge (a b : Q) : bool := Qle_bool b a.
Definition js_lt (a b : Q) : bool := negb (Qle_bool b a).
Definition js_gt (a b : Q) : bool := negb (Qle_bool a b).

(** Truthiness of a [string | undefined | null]: the empty string and the
    absent value are falsy. *)
Definition truthy (o : option string) : bool :=
  match o with
  | Some s => negb (String.eqb s "")
  | None => false
  end.

(** [a === b] on [string | undefined]. *)
Definition option_string_eqb (a b : option string) : bool :=
  match a, b with
  | Some u, Some v => String.eqb u v
  | None, None => true
  | _, _ => false
  end.

(** A [number] made from an array length. *)
Definition of_nat (n : nat) : Q := inject_Z (Z.of_nat n).

(** [`${n}`] for a natural number. *)
Definition show_nat (n : nat) : string := NilEmpty.string_of_uint (Nat.to_uint n).

(** *** Arrays

    A JavaScript array is a list of slots; [None] is [undefined] (or a
    hole).  A typed array [T[]] embeds with [Some <$> l]. *)
Section JSArray.
Context {A : Type}.

(** [a[i]] *)
Definition arr_get (a : list (option A)) (i : Z) : option A :=
  if (i <? 0)%Z then None else mjoin (a !! Z.to_nat i).

(** [a[i] = v]: a negative index sets a named property and leaves the
    elements alone, an index past the end extends the array with holes. *)
Definition arr_set (a : list (option A)) (i : Z) (v : option A) : list (option A) :=
  if (i <? 0)%Z then a
  else if (i <? Z.of_nat (length a))%Z then <[Z.to_nat i := v]> a
  else a ++ replicate (Z.to_nat i - length a) None ++ [v].

(** The start position [Array.prototype.splice] computes from its first
    argument. *)
Definition splice_start (len : nat) (start : Z) : nat :=
  if (start <? 0)%Z then Z.to_nat (Z.max (Z.of_nat len + start) 0)
  else Z.to_nat (Z.min start (Z.of_nat len)).

(** [a.splice(start, deleteCount, ...items)]: the array afterwards and the
    array of removed elements it returns. *)
Definition splice (a : list (option A)) (start deleteCount : Z) (items : list (option A))
  : list (option A) * list (option A) :=
  let actualStart := splice_start (length a) start in
  let actualDelete :=
    Z.to_nat (Z.min (Z.max deleteCount 0) (Z.of_nat (length a - actualStart))) in
  (take actualStart a ++ items ++ drop (actualStart + actualDelete) a,
   take actualDelete (drop actualStart a)).

(** The typed view of an array: defined when no slot is [undefined]. *)
Definition typed (a : list (option A)) : option (list A) := mapM (fun v => v) a.

End JSArray.

(** ** types.ts *)

Module CropRegion.
Record t := mk {
  id : string;
  x : Q;       (* Percentage 0-100 *)
  y : Q;       (* Percentage 0-100 *)
  width : Q;   (* Percentage 0-100 *)
  height : Q;  (* Percentage 0-100 *)
  isLocked : bool;
  replacementSrc : option string;
  isStitched : bool
}.
Definition set_x (v : Q) (c : t) : t :=
  mk (id c) v (y c) (width c) (height c) (isLocked c) (replacementSrc c) (isStitched c).
Definition set_y (v : Q) (c : t) : t :=
  mk (id c) (x c) v (width c) (height c) (isLocked c) (replacementSrc c) (isStitched c).
Definition set_width (v : Q) (c : t) : t :=
  mk (id c) (x c) (y c) v (height c) (isLocked c) (replacementSrc c) (isStitched c).
Definition set_height (v : Q) (c : t) : t :=
  mk (id c) (x c) (y c) (width c) v (isLocked c) (replacementSrc c) (isStitched c).
Definition set_isLocked (v : bool) (c : t) : t :=
  mk (id c) (x c) (y c) (width c) (height c) v (replacementSrc c) (isStitched c).
Definition set_isStitched (v : bool) (c : t) : t :=
  mk (id c) (x c) (y c) (width c) (height c) (isLocked c) (replacementSrc c) v.
End CropRegion.

Module ImageLayer.
Record t := mk {
  id : string;
  groupId : option string;  (* If present, this layer belongs to a group *)
  name : string;
  src : string;
  width : Q;
  height : Q;
  crops : list CropRegion.t
}.
Definition set_groupId (v : option string) (l : t) : t :=
  mk (id l) v (name l) (src l) (width l) (height l) (crops l).
Definition set_crops (v : list CropRegion.t) (l : t) : t :=
  mk (id l) (groupId l) (name l) (src l) (width l) (height l) v.
End ImageLayer.

Module AssetGroup.
Record t := mk {
  id : string;
  name : string;
  layerIds : list string;         (* Ordered list of layers in this group *)
  crops : list CropRegion.t;      (* Crops applied to the stitched result *)
  parentGroupId : option string   (* For nested subgroups *)
}.
Definition set_layerIds (v : list string) (g : t) : t :=
  mk (id g) (name g) v (crops g) (parentGroupId g).
Definition set_crops (v : list CropRegion.t) (g : t) : t :=
  mk (id g) (name g) (layerIds g) v (parentGroupId g).
Definition set_parentGroupId (v : option string) (g : t) : t :=
  mk (id g) (name g) (layerIds g) (crops g) v.
Definition set_name (v : string) (g : t) : t :=
  mk (id g) v (layerIds g) (crops g) (parentGroupId g).
End AssetGroup.

Module StitchItem.
Record t := mk {
  id : string;
  layerId : string;  (* Can be Layer ID or Group ID *)
  cropId : string
}.
End StitchItem.

(** ** components/ImageCropper.tsx *)

Module ImageCropper.

Inductive InteractionMode :=
  create | move | resize_nw | resize_ne | resize_sw | resize_se.

Definition mode_eqb (a b : InteractionMode) : bool :=
  match a, b with
  | create, create | move, move | resize_nw, resize_nw
  | resize_ne, resize_ne | resize_sw, resize_sw | resize_se, resize_se => true
  | _, _ => false
  end.

Record Interaction := mkInteraction {
  mode : InteractionMode;
  startX : Q;
  startY : Q;
  initialCrop : option CropRegion.t;  (* Snapshot for move/resize *)
  activeId : option string
}.

(** [Partial<CropRegion>] as the code fills it: the four numbers. *)
Record Selection := mkSelection { sel_x : Q; sel_y : Q; sel_width : Q; sel_height : Q }.

(** [getBoundingClientRect()] of the container. *)
Record DOMRect := mkRect { left : Q; top : Q; rect_width : Q; rect_height : Q }.

Record Point := mkPoint { px : Q; py : Q }.

(** The component: the [layer] prop (written through [onUpdateLayer]), its
    state variables and the container element behind [containerRef]. *)
Record State := mkState {
  layer : ImageLayer.t;
  activeCropId : option string;
  optimisticCrop : option CropRegion.t;
  interaction : option Interaction;
  tempSelection : option Selection;
  containerRef : option DOMRect
}.

Definition onUpdateLayer (l : ImageLayer.t) (s : State) : State :=
  mkState l (activeCropId s) (optimisticCrop s) (interaction s) (tempSelection s) (containerRef s).
Definition setActiveCropId (v : option string) (s : State) : State :=
  mkState (layer s) v (optimisticCrop s) (interaction s) (tempSelection s) (containerRef s).
Definition setOptimisticCrop (v : option CropRegion.t) (s : State) : State :=
  mkState (layer s) (activeCropId s) v (interaction s) (tempSelection s) (containerRef s).
Definition setInteraction (v : option Interaction) (s : State) : State :=
  mkState (layer s) (activeCropId s) (optimisticCrop s) v (tempSelection s) (containerRef s).
Definition setTempSelection (v : option Selection) (s : State) : State :=
  mkState (layer s) (activeCropId s) (optimisticCrop s) (interaction s) v (containerRef s).

Definition getClientPos (s : State) (clientX clientY : Q) : Point :=
  match containerRef s with
  | None => mkPoint 0 0
  | Some rect =>
      mkPoint (((clientX - left rect) / rect_width rect) * 100)
              (((clientY - top rect) / rect_height rect) * 100)
  end.

(** The rectangle a pointer-move produces from the snapshot [init] in a
    move or resize interaction ([dx], [dy]: pointer travel since
    pointer-down). *)
Definition modifiedCrop (m : InteractionMode) (init : CropRegion.t) (dx dy : Q) : CropRegion.t :=
  let newCrop := init in
  match m with
  | move =>
      let newX := Qmin (Qmax 0 (CropRegion.x init + dx)) (100 - CropRegion.width init) in
      let newY := Qmin (Qmax 0 (CropRegion.y init + dy)) (100 - CropRegion.height init) in
      CropRegion.set_y newY (CropRegion.set_x newX newCrop)
  | resize_se =>
      let newCrop := CropRegion.set_width
        (Qmax 1 (Qmin (CropRegion.width init + dx) (100 - CropRegion.x init))) newCrop in
      CropRegion.set_height
        (Qmax 1 (Qmin (CropRegion.height init + dy) (100 - CropRegion.y init))) newCrop
  | resize_sw =>
      let proposedX := Qmin (CropRegion.x init + dx) (CropRegion.x init + CropRegion.width init - 1) in
      let newCrop := CropRegion.set_x (Qmax 0 proposedX) newCrop in
      let newCrop := CropRegion.set_width
        (CropRegion.width init + (CropRegion.x init - CropRegion.x newCrop)) newCrop in
      CropRegion.set_height
        (Qmax 1 (Qmin (CropRegion.height init + dy) (100 - CropRegion.y init))) newCrop
  | resize_ne =>
      let proposedY := Qmin (CropRegion.y init + dy) (CropRegion.y init + CropRegion.height init - 1) in
      let newCrop := CropRegion.set_y (Qmax 0 proposedY) newCrop in
      let newCrop := CropRegion.set_height
        (CropRegion.height init + (CropRegion.y init - CropRegion.y newCrop)) newCrop in
      CropRegion.set_width
        (Qmax 1 (Qmin (CropRegion.width init + dx) (100 - CropRegion.x init))) newCrop
  | resize_nw =>
      let proposedX := Qmin (CropRegion.x init + dx) (CropRegion.x init + CropRegion.width init - 1) in
      let proposedY := Qmin (CropRegion.y init + dy) (CropRegion.y init + CropRegion.height init - 1) in
      let newCrop := CropRegion.set_x (Qmax 0 proposedX) newCrop in
      let newCrop := CropRegion.set_y (Qmax 0 proposedY) newCrop in
      let newCrop := CropRegion.set_width
        (CropRegion.width init + (CropRegion.x init - CropRegion.x newCrop)) newCrop in
      CropRegion.set_height
        (CropRegion.height init + (CropRegion.y init - CropRegion.y newCrop)) newCrop
  | create => newCrop
  end.

Definition handleWindowMouseMove (clientX clientY : Q) (s : State) : State :=
  match interaction s with
  | None => s
  | Some currentInteraction =>
      let pos := getClientPos s clientX clientY in
      if mode_eqb (mode currentInteraction) create then
        let x := Qmin (startX currentInteraction) (px pos) in
        let y := Qmin (startY currentInteraction) (py pos) in
        let width := Qabs (px pos - startX currentInteraction) in
        let height := Qabs (py pos - startY currentInteraction) in
        setTempSelection (Some (mkSelection x y width height)) s
      else
        match initialCrop currentInteraction with
        | None => s
        | Some init =>
            if negb (truthy (activeId currentInteraction)) then s
            else
              let dx := px pos - startX currentInteraction in
              let dy := py pos - startY currentInteraction in
              setOptimisticCrop (Some (modifiedCrop (mode currentInteraction) init dx dy)) s
        end
  end.

(** [crops.map(c => c.id === id ? finalCrop : c)] *)
Definition replaceCrop (id : string) (finalCrop : CropRegion.t) (crops : list CropRegion.t)
  : list CropRegion.t :=
  map (fun c => if String.eqb (CropRegion.id c) id then finalCrop else c) crops.

Definition handleWindowMouseUp (clientX clientY : Q) (uuid : string) (s : State) : State :=
  match interaction s with
  | None => s
  | Some currentInteraction =>
      let s1 :=
        if mode_eqb (mode currentInteraction) create then
          let pos := getClientPos s clientX clientY in
          let x := Qmin (startX currentInteraction) (px pos) in
          let y := Qmin (startY currentInteraction) (py pos) in
          let width := Qabs (px pos - startX currentInteraction) in
          let height := Qabs (py pos - startY currentInteraction) in
          let newCrop := CropRegion.mk uuid x y width height false None false in
          if js_gt (CropRegion.width newCrop) 1 && js_gt (CropRegion.height newCrop) 1 then
            let currentLayer := layer s in
            setActiveCropId (Some (CropRegion.id newCrop))
              (onUpdateLayer
                 (ImageLayer.set_crops (ImageLayer.crops currentLayer ++ [newCrop]) currentLayer) s)
          else s
        else
          match optimisticCrop s, activeId currentInteraction with
          | Some finalCrop, Some aid =>
              if truthy (Some aid) then
                let currentLayer := layer s in
                onUpdateLayer
                  (ImageLayer.set_crops
                     (replaceCrop aid finalCrop (ImageLayer.crops currentLayer)) currentLayer) s
              else s
          | _, _ => s
          end in
      setOptimisticCrop None (setTempSelection None (setInteraction None s1))
  end.

Definition handleMouseDown (clientX clientY : Q) (s : State) : State :=
  let pos := getClientPos s clientX clientY in
  setActiveCropId None
    (setTempSelection (Some (mkSelection (px pos) (py pos) 0 0))
       (setInteraction (Some (mkInteraction create (px pos) (py pos) None None)) s)).

Definition handleCropMouseDown (crop : CropRegion.t) (clientX clientY : Q) (s : State) : State :=
  let s := setActiveCropId (Some (CropRegion.id crop)) s in
  if CropRegion.isLocked crop then s
  else
    let pos := getClientPos s clientX clientY in
    setOptimisticCrop (Some crop)
      (setInteraction
         (Some (mkInteraction move (px pos) (py pos) (Some crop) (Some (CropRegion.id crop)))) s).

Definition handleResizeMouseDown (crop : CropRegion.t) (handle : InteractionMode)
    (clientX clientY : Q) (s : State) : State :=
  let s := setActiveCropId (Some (CropRegion.id crop)) s in
  let pos := getClientPos s clientX clientY in
  setOptimisticCrop (Some crop)
    (setInteraction
       (Some (mkInteraction handle (px pos) (py pos) (Some crop) (Some (CropRegion.id crop)))) s).

Definition handleLockToggle (cropId : string) (s : State) : State :=
  let updatedCrops :=
    map (fun c => if String.eqb (CropRegion.id c) cropId
                  then CropRegion.set_isLocked (negb (CropRegion.isLocked c)) c else c)
        (ImageLayer.crops (layer s)) in
  onUpdateLayer (ImageLayer.set_crops updatedCrops (layer s)) s.

Definition handleDeleteCrop (cropId : string) (s : State) : State :=
  let updatedCrops :=
    List.filter (fun c => negb (String.eqb (CropRegion.id c) cropId)) (ImageLayer.crops (layer s)) in
  let s1 := onUpdateLayer (ImageLayer.set_crops updatedCrops (layer s)) s in
  if option_string_eqb (activeCropId s) (Some cropId) then setActiveCropId None s1 else s1.

Definition handleKeyDown (key : string) (s : State) : State :=
  if (String.eqb key "Delete" || String.eqb key "Backspace") && truthy (activeCropId s) then
    match activeCropId s with
    | Some active =>
        match List.find (fun c => String.eqb (CropRegion.id c) active) (ImageLayer.crops (layer s)) with
        | Some crop =>
            (* Only allow deleting if not locked, matching the UI button logic *)
            if negb (CropRegion.isLocked crop) then handleDeleteCrop active s else s
        | None => s
        end
    | None => s
    end
  else s.

(** [displayedCrops]: the layer's crops with the optimistic crop merged in. *)
Definition displayedCrops (s : State) : list CropRegion.t :=
  map (fun c =>
         match optimisticCrop s with
         | Some o => if String.eqb (CropRegion.id c) (CropRegion.id o) then o else c
         | None => c
         end)
      (ImageLayer.crops (layer s)).

(** The four corner handles the component renders. *)
Inductive Handle := NW | NE | SW | SE.

Definition handle_mode (h : Handle) : InteractionMode :=
  match h with
  | NW => resize_nw | NE => resize_ne | SW => resize_sw | SE => resize_se
  end.

(** What the user can do to the rendered component.  A pointer-down reaches
    one handler only (the inner elements stop propagation); crops are
    addressed by their position in [displayedCrops]. *)
Inductive Event :=
| MouseDownCanvas (clientX clientY : Q)
| MouseDownCrop (i : nat) (clientX clientY : Q)
| MouseDownHandle (i : nat) (h : Handle) (clientX clientY : Q)
| MouseMove (clientX clientY : Q)
| MouseUp (clientX clientY : Q) (uuid : string)
| KeyDown (key : string).

Definition step (s : State) (e : Event) : State :=
  match e with
  | MouseDownCanvas cx cy => handleMouseDown cx cy s
  | MouseDownCrop i cx cy =>
      match displayedCrops s !! i with
      | Some crop => handleCropMouseDown crop cx cy s
      | None => s
      end
  | MouseDownHandle i h cx cy =>
      match displayedCrops s !! i with
      | Some crop =>
          (* Resize Handles (Only if Active & Unlocked) *)
          if option_string_eqb (activeCropId s) (Some (CropRegion.id crop))
             && negb (CropRegion.isLocked crop)
          then handleResizeMouseDown crop (handle_mode h) cx cy s
          else s
      | None => s
      end
  | MouseMove cx cy => handleWindowMouseMove cx cy s
  | MouseUp cx cy uuid => handleWindowMouseUp cx cy uuid s
  | KeyDown key => handleKeyDown key s
  end.

Definition run (s : State) (es : list Event) : State := fold_left step es s.


End ImageCropper.

(** ** App.tsx *)

Module App.

Record State := mkState {
  activeAssetId : option string;        (* Can be LayerID or GroupID *)
  selectedLibraryIds : gset string;
  isSelectionMode : bool;
  expandedGroupIds : gset string;
  activeMenuGroupId : option string;
  layers : list ImageLayer.t;
  groups : list AssetGroup.t;
  stitchItems : list StitchItem.t
}.

Definition setActiveAssetId (v : option string) (s : State) : State :=
  mkState v (selectedLibraryIds s) (isSelectionMode s) (expandedGroupIds s)
          (activeMenuGroupId s) (layers s) (groups s) (stitchItems s).
Definition setSelectedLibraryIds (v : gset string) (s : State) : State :=
  mkState (activeAssetId s) v (isSelectionMode s) (expandedGroupIds s)
          (activeMenuGroupId s) (layers s) (groups s) (stitchItems s).
Definition setIsSelectionMode (v : bool) (s : State) : State :=
  mkState (activeAssetId s) (selectedLibraryIds s) v (expandedGroupIds s)
          (activeMenuGroupId s) (layers s) (groups s) (stitchItems s).
Definition setExpandedGroupIds (v : gset string) (s : State) : State :=
  mkState (activeAssetId s) (selectedLibraryIds s) (isSelectionMode s) v
          (activeMenuGroupId s) (layers s) (groups s) (stitchItems s).
Definition setActiveMenuGroupId (v : option string) (s : State) : State :=
  mkState (activeAssetId s) (selectedLibraryIds s) (isSelectionMode s) (expandedGroupIds s)
          v (layers s) (groups s) (stitchItems s).
Definition setLayers (v : list ImageLayer.t) (s : State) : State :=
  mkState (activeAssetId s) (selectedLibraryIds s) (isSelectionMode s) (expandedGroupIds s)
          (activeMenuGroupId s) v (groups s) (stitchItems s).
Definition setGroups (v : list AssetGroup.t) (s : State) : State :=
  mkState (activeAssetId s) (selectedLibraryIds s) (isSelectionMode s) (expandedGroupIds s)
          (activeMenuGroupId s) (layers s) v (stitchItems s).
Definition setStitchItems (v : list StitchItem.t) (s : State) : State :=
  mkState (activeAssetId s) (selectedLibraryIds s) (isSelectionMode s) (expandedGroupIds s)
          (activeMenuGroupId s) (layers s) (groups s) v.

(** [ids.includes(id)] *)
Definition includes (ids : list string) (id : string) : bool :=
  existsb (String.eqb id) ids.

Definition createGroupFromLayers (uuid : string) (layerIds : list string) (s : State) : State :=
  let newGroup :=
    AssetGroup.mk uuid ("Group " ++ show_nat (length (groups s) + 1)) layerIds [] None in
  let s := setGroups (groups s ++ [newGroup]) s in
  let s := setLayers
    (map (fun l => if includes layerIds (ImageLayer.id l)
                   then ImageLayer.set_groupId (Some (AssetGroup.id newGroup)) l else l)
         (layers s)) s in
  let s := setExpandedGroupIds (expandedGroupIds s ∪ {[AssetGroup.id newGroup]}) s in
  setActiveAssetId (Some (AssetGroup.id newGroup)) s.

(** [layers.filter(l => selectedLibraryIds.has(l.id) && !l.groupId)] *)
Definition selectedLayers (s : State) : list ImageLayer.t :=
  List.filter
    (fun l => bool_decide (ImageLayer.id l ∈ selectedLibraryIds s)
              && negb (truthy (ImageLayer.groupId l)))
    (layers s).

Definition handleCreateGroup (uuid : string) (s : State) : State :=
  let selectedLayers := selectedLayers s in
  if (length selectedLayers <? 2)%nat then s
  else
    let s := createGroupFromLayers uuid (map ImageLayer.id selectedLayers) s in
    setIsSelectionMode false (setSelectedLibraryIds ∅ s).

Definition handleUngroup (groupId : string) (s : State) : State :=
  let s := setLayers
    (map (fun l => if option_string_eqb (ImageLayer.groupId l) (Some groupId)
                   then ImageLayer.set_groupId None l else l)
         (layers s)) s in
  let withoutGroup :=
    List.filter (fun g => negb (String.eqb (AssetGroup.id g) groupId)) (groups s) in
  let s := setGroups
    (map (fun g => if option_string_eqb (AssetGroup.parentGroupId g) (Some groupId)
                   then AssetGroup.set_parentGroupId None g else g)
         withoutGroup) s in
  if option_string_eqb (activeAssetId s) (Some groupId) then setActiveAssetId None s else s.

Inductive ItemType := group | layer.

(** [getSubGroups], the recursive local function of [handleDeleteItem].
    The recursion follows [parentGroupId] links and need not terminate on a
    cyclic table; [fuel] bounds its depth and [None] is the call that never
    returns. *)
Fixpoint getSubGroups (fuel : nat) (groups : list AssetGroup.t) (pId : string)
  : option (list string) :=
  match fuel with
  | O => None
  | S fuel =>
      let children :=
        List.filter (fun g => option_string_eqb (AssetGroup.parentGroupId g) (Some pId)) groups in
      match mapM (fun c => getSubGroups fuel groups (AssetGroup.id c)) children with
      | Some subs => Some (pId :: concat subs)
      | None => None
      end
  end.

(** The [Set] filled by the [forEach] over [groups]. *)
Definition collectLayerIds (allGroupIds : list string) (groups : list AssetGroup.t) : gset string :=
  fold_left
    (fun allLayerIds g =>
       if includes allGroupIds (AssetGroup.id g)
       then fold_left (fun acc lid => acc ∪ {[lid]}) (AssetGroup.layerIds g) allLayerIds
       else allLayerIds)
    groups ∅.

Definition handleDeleteItem (fuel : nat) (id : string) (type : ItemType) (s : State)
  : option State :=
  match type with
  | group =>
      match getSubGroups fuel (groups s) id with
      | None => None
      | Some allGroupIds =>
          let allLayerIds := collectLayerIds allGroupIds (groups s) in
          let s1 := setGroups
            (List.filter (fun g => negb (includes allGroupIds (AssetGroup.id g))) (groups s)) s in
          let s2 := setLayers
            (List.filter (fun l => negb (bool_decide (ImageLayer.id l ∈ allLayerIds))) (layers s1))
            s1 in
          let s3 :=
            match activeAssetId s with
            | Some a =>
                if truthy (Some a) && (includes allGroupIds a || bool_decide (a ∈ allLayerIds))
                then setActiveAssetId None s2 else s2
            | None => s2
            end in
          Some (setActiveMenuGroupId None s3)
      end
  | layer =>
      let s1 := setLayers
        (List.filter (fun l => negb (String.eqb (ImageLayer.id l) id)) (layers s)) s in
      let s2 := setGroups
        (map (fun g => AssetGroup.set_layerIds
                         (List.filter (fun lid => negb (String.eqb lid id)) (AssetGroup.layerIds g)) g)
             (groups s1)) s1 in
      let s3 := if option_string_eqb (activeAssetId s) (Some id)
                then setActiveAssetId None s2 else s2 in
      Some (setActiveMenuGroupId None s3)
  end.

(** The array [handleReorderGroup] builds for the group it reorders. *)
Definition reorderedIds (layerIds : list string) (fromIndex toIndex : Z) : list (option string) :=
  let newIds := Some <$> layerIds in
  let '(newIds, removed) := splice newIds fromIndex 1 [] in
  let moved := arr_get removed 0 in
  fst (splice newIds toIndex 0 [moved]).

(** [None] when an [undefined] entry would enter a group's [layerIds], which
    the type [string[]] of the field excludes. *)
Definition handleReorderGroup (groupId : string) (fromIndex toIndex : Z) (s : State)
  : option State :=
  match
    mapM (fun g =>
            if negb (String.eqb (AssetGroup.id g) groupId) then Some g
            else
              match typed (reorderedIds (AssetGroup.layerIds g) fromIndex toIndex) with
              | Some newIds => Some (AssetGroup.set_layerIds newIds g)
              | None => None
              end)
         (groups s)
  with
  | Some gs => Some (setGroups gs s)
  | None => None
  end.

Definition handleUpdateLayer (updatedLayer : ImageLayer.t) (s : State) : State :=
  setLayers
    (map (fun l => if String.eqb (ImageLayer.id l) (ImageLayer.id updatedLayer)
                   then updatedLayer else l)
         (layers s)) s.

(** [crops.map(c => c.id === cropId ? { ...c, isStitched: true } : c)] *)
Definition markStitched (cropId : string) (crops : list CropRegion.t) : list CropRegion.t :=
  map (fun c => if String.eqb (CropRegion.id c) cropId
                then CropRegion.set_isStitched true c else c)
      crops.

Definition handleAddToStitch (uuid : string) (layerId cropId : string) (s : State) : State :=
  (* Check if it's a layer *)
  let found := existsb (fun l => String.eqb (ImageLayer.id l) layerId) (layers s) in
  let updatedLayers :=
    map (fun l => if negb (String.eqb (ImageLayer.id l) layerId) then l
                  else ImageLayer.set_crops (markStitched cropId (ImageLayer.crops l)) l)
        (layers s) in
  if found then
    let s := setLayers updatedLayers s in
    let newItem := StitchItem.mk uuid layerId cropId in
    setStitchItems (stitchItems s ++ [newItem]) s
  else
    (* Check if it's a group *)
    match List.find (fun g => String.eqb (AssetGroup.id g) layerId) (groups s) with
    | Some _ =>
        let s := setGroups
          (map (fun g => if negb (String.eqb (AssetGroup.id g) layerId) then g
                         else AssetGroup.set_crops (markStitched cropId (AssetGroup.crops g)) g)
               (groups s)) s in
        let newItem := StitchItem.mk uuid layerId cropId in
        setStitchItems (stitchItems s ++ [newItem]) s
    | None => s
    end.

Definition toggleSelection (id : string) (s : State) : State :=
  let newSet := selectedLibraryIds s in
  let newSet := if bool_decide (id ∈ newSet) then newSet ∖ {[id]} else newSet ∪ {[id]} in
  setSelectedLibraryIds newSet s.

Definition handleCreateSubgroup (uuid : string) (parentGroupId : string)
    (newLayers : list ImageLayer.t) (s : State) : State :=
  let newLayerIds := map ImageLayer.id newLayers in
  let newSubGroup :=
    AssetGroup.mk uuid
      ("Selection Stitch "
       ++ show_nat (length (List.filter
                              (fun g => option_string_eqb (AssetGroup.parentGroupId g)
                                                          (Some parentGroupId))
                              (groups s)) + 1))
      newLayerIds [] (Some parentGroupId) in
  (* Add new layers *)
  let s := setLayers
    (layers s ++ map (ImageLayer.set_groupId (Some (AssetGroup.id newSubGroup))) newLayers) s in
  (* Add new group *)
  let s := setGroups (groups s ++ [newSubGroup]) s in
  (* Expand parent to show new subgroup *)
  let s := setExpandedGroupIds
    (expandedGroupIds s ∪ {[parentGroupId]} ∪ {[AssetGroup.id newSubGroup]}) s in
  (* Switch view to new subgroup *)
  setActiveAssetId (Some (AssetGroup.id newSubGroup)) s.

Definition removeLayerFromGroup (layerId groupId : string) (s : State) : State :=
  match List.find (fun g => String.eqb (AssetGroup.id g) groupId) (groups s) with
  | None => s
  | Some group' =>
      let newIds :=
        List.filter (fun id => negb (String.eqb id layerId)) (AssetGroup.layerIds group') in
      setGroups
        (map (fun g => if String.eqb (AssetGroup.id g) groupId
                       then AssetGroup.set_layerIds newIds g else g)
             (groups s)) s
  end.

Definition handleDeleteSelected (s : State) : State :=
  let groupsToDelete :=
    List.filter (fun g => bool_decide (AssetGroup.id g ∈ selectedLibraryIds s)) (groups s) in
  let groupIdsToDelete : gset string := list_to_set (map AssetGroup.id groupsToDelete) in
  let layerIdsToDelete : gset string :=
    list_to_set
      (map ImageLayer.id
           (List.filter (fun l => bool_decide (ImageLayer.id l ∈ selectedLibraryIds s))
                        (layers s))) in
  let layerIdsToDelete :=
    fold_left
      (fun acc g => fold_left (fun acc id => acc ∪ {[id]}) (AssetGroup.layerIds g) acc)
      groupsToDelete layerIdsToDelete in
  let s := setGroups
    (List.filter (fun g => negb (bool_decide (AssetGroup.id g ∈ groupIdsToDelete))) (groups s))
    s in
  let s := setLayers
    (List.filter (fun l => negb (bool_decide (ImageLayer.id l ∈ layerIdsToDelete))) (layers s))
    s in
  setActiveAssetId None (setIsSelectionMode false (setSelectedLibraryIds ∅ s)).

Definition handleUpdateGroupCrops (groupId : string) (newCrops : list CropRegion.t)
    (s : State) : State :=
  setGroups
    (map (fun g => if String.eqb (AssetGroup.id g) groupId
                   then AssetGroup.set_crops newCrops g else g)
         (groups s)) s.

(** [processFile], with the [FileReader] and [Image] callbacks run at once:
    [type] and [name] are those of the file, [decoded] is the data URL read
    from it with the size of the decoded image, [None] when the image does
    not load; [draggedLibraryItemId] is the state variable of that name. *)
Definition processFile (uuid type name : string) (decoded : option (string * Q * Q))
    (draggedLibraryItemId : option string) (s : State) : State :=
  if negb (String.prefix "image/" type) then s
  else
    match decoded with
    | None => s
    | Some (src, width, height) =>
        let newLayer := ImageLayer.mk uuid None name src width height [] in
        let s := setLayers (layers s ++ [newLayer]) s in
        (* If not dragging internally, activate new layer *)
        if negb (truthy draggedLibraryItemId)
        then setActiveAssetId (Some (ImageLayer.id newLayer)) s else s
    end.

(** [ids.indexOf(id)]: the first position of [id], [-1] when absent. *)
Fixpoint indexOf_from (i : nat) (ids : list string) (id : string) : Z :=
  match ids with
  | [] => (-1)%Z
  | x :: ids => if String.eqb x id then Z.of_nat i else indexOf_from (S i) ids id
  end.

Definition indexOf (ids : list string) (id : string) : Z := indexOf_from 0 ids id.

(** The array the same-group branch of [handleLibraryDropItem] builds for
    the group it reorders. *)
Definition droppedIds (layerIds : list string) (sourceId targetId : string)
  : list (option string) :=
  let newIds := Some <$> layerIds in
  let oldIndex := indexOf layerIds sourceId in
  let newIndex := indexOf layerIds targetId in
  if negb (oldIndex =? -1)%Z && negb (newIndex =? -1)%Z then
    (* Remove from old *)
    let newIds := fst (splice newIds oldIndex 1 []) in
    (* Insert at new *)
    fst (splice newIds newIndex 0 [Some sourceId])
  else newIds.

(** The three state updates that add the dragged layer to the group
    [groupId], after it has left the group it was in. *)
Definition moveLayerToGroup (sourceLayer : ImageLayer.t) (sourceId groupId : string)
    (s : State) : State :=
  let s := match ImageLayer.groupId sourceLayer with
           | Some old => if truthy (Some old)
                         then removeLayerFromGroup (ImageLayer.id sourceLayer) old s else s
           | None => s
           end in
  let s := setGroups
    (map (fun g => if String.eqb (AssetGroup.id g) groupId
                   then AssetGroup.set_layerIds (AssetGroup.layerIds g ++ [sourceId]) g else g)
         (groups s)) s in
  let s := setLayers
    (map (fun l => if String.eqb (ImageLayer.id l) sourceId
                   then ImageLayer.set_groupId (Some groupId) l else l)
         (layers s)) s in
  setExpandedGroupIds (expandedGroupIds s ∪ {[groupId]}) s.

(** [handleLibraryDropItem]; [draggedLibraryItemId] is the state variable
    of that name, which the handler clears together with [dragTargetId].
    [None] when an [undefined] entry would enter a member list. *)
Definition handleLibraryDropItem (uuid : string) (draggedLibraryItemId : option string)
    (targetId : string) (isTargetGroup : bool) (s : State) : option State :=
  let sourceId := draggedLibraryItemId in
  if negb (truthy sourceId) || option_string_eqb sourceId (Some targetId) then Some s
  else
    match sourceId with
    | None => Some s
    | Some sourceId =>
        match List.find (fun l => String.eqb (ImageLayer.id l) sourceId) (layers s) with
        | None => Some s  (* Only dragging layers supported for simplicity *)
        | Some sourceLayer =>
            let targetLayer :=
              List.find (fun l => String.eqb (ImageLayer.id l) targetId) (layers s) in
            (* 1. REORDERING (Same Group) *)
            if truthy (ImageLayer.groupId sourceLayer)
               && truthy (targetLayer ≫= ImageLayer.groupId)
               && option_string_eqb (ImageLayer.groupId sourceLayer)
                                    (targetLayer ≫= ImageLayer.groupId)
            then
              match ImageLayer.groupId sourceLayer with
              | None => Some s
              | Some groupId =>
                  match
                    mapM (fun g =>
                            if negb (String.eqb (AssetGroup.id g) groupId) then Some g
                            else
                              match typed (droppedIds (AssetGroup.layerIds g) sourceId targetId)
                              with
                              | Some newIds => Some (AssetGroup.set_layerIds newIds g)
                              | None => None
                              end)
                         (groups s)
                  with
                  | Some gs => Some (setGroups gs s)
                  | None => None
                  end
              end
            (* 2. GROUPING *)
            else if isTargetGroup then
              (* Drop on Group -> Add to Group *)
              match List.find (fun g => String.eqb (AssetGroup.id g) targetId) (groups s) with
              | Some _ =>
                  if negb (option_string_eqb (ImageLayer.groupId sourceLayer) (Some targetId))
                  then Some (moveLayerToGroup sourceLayer sourceId targetId s)
                  else Some s
              | None => Some s
              end
            else
              (* Drop on Layer -> Create Group (or add to existing group if target is in one) *)
              match targetLayer with
              | None => Some s
              | Some targetLayer =>
                  if truthy (ImageLayer.groupId targetLayer) then
                    (* Target is in a group -> Add to that group *)
                    match ImageLayer.groupId targetLayer with
                    | None => Some s
                    | Some targetGroupId =>
                        if negb (option_string_eqb (ImageLayer.groupId sourceLayer)
                                                   (ImageLayer.groupId targetLayer))
                        then Some (moveLayerToGroup sourceLayer sourceId targetGroupId s)
                        else Some s
                    end
                  else
                    (* Target is root -> New Group *)
                    let s := match ImageLayer.groupId sourceLayer with
                             | Some old =>
                                 if truthy (Some old)
                                 then removeLayerFromGroup (ImageLayer.id sourceLayer) old s
                                 else s
                             | None => s
                             end in
                    Some (createGroupFromLayers uuid [targetId; sourceId] s)
              end
        end
    end.

(** [handleRenameGroup]; [trimmed] is [newName.trim()]. *)
Definition handleRenameGroup (trimmed : string) (groupId newName : string) (s : State) : State :=
  if negb (truthy (Some trimmed)) then s
  else
    setGroups
      (map (fun g => if String.eqb (AssetGroup.id g) groupId
                     then AssetGroup.set_name newName g else g)
           (groups s)) s.

End App.

(** ** views/StitchView.tsx *)

Module StitchView.

Inductive Direction := left | right.

Section Reorder.
Context {A : Type}.

(** The updater [handleMoveItem] passes to [setStitchItems]. *)
Definition handleMoveItem (index : Z) (direction : Direction) (prev : list (option A))
  : list (option A) :=
  let newItems := prev in
  let targetIndex := match direction with left => (index - 1)%Z | right => (index + 1)%Z end in
  if (targetIndex <? 0)%Z || (targetIndex >=? Z.of_nat (length newItems))%Z then prev
  else
    let rhs0 := arr_get newItems targetIndex in
    let rhs1 := arr_get newItems index in
    let newItems := arr_set newItems index rhs0 in
    arr_set newItems targetIndex rhs1.

(** The updater [handleReorder] passes to [setStitchItems]. *)
Definition handleReorder (from to : Z) (prev : list (option A)) : list (option A) :=
  let newItems := prev in
  let '(newItems, removed) := splice newItems from 1 [] in
  let moved := arr_get removed 0 in
  fst (splice newItems to 0 [moved]).

(** The updater [handleRemoveItem] passes to [setStitchItems]:
    [prev.filter((_, i) => i !== index)] *)
Definition handleRemoveItem (index : Z) (prev : list (option A)) : list (option A) :=
  map snd
    (List.filter (fun '(i, _) => negb (Z.of_nat i =? index)%Z)
                 (imap (fun i v => (i, v)) prev)).

(** The queue with the two drag state variables of the view. *)
Record DragState := mkDragState {
  stitchItems : list (option A);
  draggingIndex : option Z;
  dropTargetIndex : option Z
}.

Definition handleDragStart (index : Z) (st : DragState) : DragState :=
  mkDragState (stitchItems st) (Some index) (dropTargetIndex st).

Definition handleDragOver (index : Z) (st : DragState) : DragState :=
  match draggingIndex st with
  | None => st
  | Some dragging =>
      if (dragging =? index)%Z then st
      else mkDragState (stitchItems st) (draggingIndex st) (Some index)
  end.

Definition handleDrop (index : Z) (st : DragState) : DragState :=
  let items :=
    match draggingIndex st with
    | Some dragging =>
        if negb (dragging =? index)%Z then handleReorder dragging index (stitchItems st)
        else stitchItems st
    | None => stitchItems st
    end in
  mkDragState items None None.

End Reorder.

End StitchView.

(** ** utils/imageUtils.ts *)

Module ImageUtils.

(** A decoded image: what [loadImage] resolves to. *)
Record HTMLImageElement := mkImage { img_src : string; img_width : Q; img_height : Q }.

(** One [ctx.drawImage(image, dx, dy, dWidth, dHeight)]. *)
Record DrawCall := mkDraw {
  image : HTMLImageElement; dx : Q; dy : Q; dWidth : Q; dHeight : Q
}.

(** The canvas [toDataURL] encodes: its size and what was drawn on it, in
    drawing order. *)
Record Canvas := mkCanvas { canvas_width : Z; canvas_height : Z; drawn : list DrawCall }.

(** [Math.max(...values)]; [None] is [-Infinity], the maximum of nothing. *)
Fixpoint Math_max (values : list Q) : option Q :=
  match values with
  | [] => None
  | v :: rest =>
      match Math_max rest with
      | None => Some v
      | Some m => Some (Qmax v m)
      end
  end.

(** An entry of [dimensions]. *)
Record Dimension := mkDimension { dim_img : HTMLImageElement; dim_width : Q; dim_height : Q }.

(** Steps 1 to 4 of [generateStitchedCanvas], on the decoded images. *)
Definition stitchLoaded (loadedImages : list HTMLImageElement) : option Canvas :=
  (* 1. Find the maximum height among all images *)
  match Math_max (map img_height loadedImages) with
  | None => None
  | Some maxHeight =>
      (* 2. Calculate scaled widths and total width *)
      let '(totalWidth, dimensions) :=
        fold_left
          (fun '(totalWidth, dims) img =>
             let aspectRatio := img_width img / img_height img in
             let newWidth := aspectRatio * maxHeight in
             (totalWidth + newWidth, dims ++ [mkDimension img newWidth maxHeight]))
          loadedImages (0, []) in
      (* 3. Create Canvas *)  (* 4. Draw Images *)
      let '(_, draws) :=
        fold_left
          (fun '(currentX, draws) dim =>
             (currentX + dim_width dim,
              draws ++ [mkDraw (dim_img dim) currentX 0 (dim_width dim) (dim_height dim)]))
          dimensions (0, []) in
      Some (mkCanvas (Qceiling totalWidth) (Qceiling maxHeight) draws)
  end.

Inductive Result (T : Type) :=
| EmptyUrl            (* the function returns [''] *)
| Rejected            (* the promise rejects: a source failed to decode *)
| DataUrl (c : T).    (* [canvas.toDataURL('image/png')] *)
Arguments EmptyUrl {T}.
Arguments Rejected {T}.
Arguments DataUrl {T} c.

Section Decode.
(** The decoder behind [loadImage]: [None] when the source does not load. *)
Variable loadImage : string -> option HTMLImageElement.

Definition generateStitchedCanvas (items : list string) : Result Canvas :=
  match items with
  | [] => EmptyUrl
  | _ =>
      match mapM loadImage items with
      | None => Rejected
      | Some loadedImages =>
          match stitchLoaded loadedImages with
          | Some canvas => DataUrl canvas
          | None => EmptyUrl
          end
      end
  end.
End Decode.

(** [SmartStitchImage], as [loadImageFile] builds it (the [File] object is
    left out). *)
Record SmartStitchImage := mkSmartImage {
  ss_id : string; dataUrl : string; ss_width : Q; ss_height : Q
}.

Record Settings := mkSettings {
  containerWidth : Q; targetRowHeight : Q; spacing : Q; backgroundColor : string
}.

(** An entry of a row. *)
Record RowItem := mkRowItem { img : SmartStitchImage; aspectRatio : Q; scaledWidth : Q }.

(** [SmartStitchLayoutItem], as [layout.push] builds it. *)
Record SmartStitchLayoutItem := mkLayoutItem {
  li_img : SmartStitchImage; li_x : Q; li_y : Q; li_width : Q; li_height : Q
}.

Record SmartCanvas := mkSmartCanvas {
  sc_width : Q; sc_height : Q; fillStyle : string; sc_layout : list SmartStitchLayoutItem
}.

(** Build rows based on aspect ratios: the loop state is
    [(rows, currentRow, currentWidth)]. *)
Definition packImage (st : Settings)
    (acc : list (list RowItem) * list RowItem * Q) (image : SmartStitchImage)
  : list (list RowItem) * list RowItem * Q :=
  let '(rows, currentRow, currentWidth) := acc in
  let aspectRatio := ss_width image / ss_height image in
  let scaledWidth := targetRowHeight st * aspectRatio in
  let currentRow := currentRow ++ [mkRowItem image aspectRatio scaledWidth] in
  let currentWidth := currentWidth + scaledWidth in
  let totalWidthWithSpacing := currentWidth + (of_nat (length currentRow) - 1) * spacing st in
  if js_ge totalWidthWithSpacing (containerWidth st)
  then (rows ++ [currentRow], [], 0)
  else (rows, currentRow, currentWidth).

Definition buildRows (st : Settings) (images : list SmartStitchImage) : list (list RowItem) :=
  let '(rows, currentRow, _) := fold_left (packImage st) images ([], [], 0) in
  if (0 <? length currentRow)%nat then rows ++ [currentRow] else rows.

(** [row.reduce((sum, item) => sum + item.aspectRatio, 0)] *)
Definition rowAspectRatio (row : list RowItem) : Q :=
  fold_left (fun sum item => sum + aspectRatio item) row 0.

Definition availableWidth (st : Settings) (row : list RowItem) : Q :=
  containerWidth st - spacing st * 2 - (of_nat (length row) - 1) * spacing st.

(** The condition under which the last row keeps [targetRowHeight]. *)
Definition keepsTargetHeight (st : Settings) (isLastRow : bool) (row : list RowItem) : bool :=
  isLastRow && (0 <? length row)%nat
  && js_lt (rowAspectRatio row) ((availableWidth st row / targetRowHeight st) * (6 # 10)).

Definition rowHeight (st : Settings) (isLastRow : bool) (row : list RowItem) : Q :=
  if keepsTargetHeight st isLastRow row then targetRowHeight st
  else availableWidth st row / rowAspectRatio row.

(** The inner loop over a row's items: what it pushes, and the final [x]. *)
Definition layoutRow (st : Settings) (y rowHeight : Q) (row : list RowItem)
  : list SmartStitchLayoutItem * Q :=
  fold_left
    (fun '(pushed, x) item =>
       let width := rowHeight * aspectRatio item in
       (pushed ++ [mkLayoutItem (img item) x y width rowHeight], x + width + spacing st))
    row ([], spacing st).

(** The outer loop [for (let i = 0; i < rows.length; i++)], from index [i]
    on; [rest] is [rows] from index [i]. *)
Fixpoint layoutRows (st : Settings) (len i : nat) (rest : list (list RowItem))
    (layout : list SmartStitchLayoutItem) (y : Q) : list SmartStitchLayoutItem * Q :=
  match rest with
  | [] => (layout, y)
  | row :: rest =>
      let isLastRow := (Z.of_nat i =? Z.of_nat len - 1)%Z in
      let rowHeight := rowHeight st isLastRow row in
      let '(pushed, _) := layoutRow st y rowHeight row in
      layoutRows st len (S i) rest (layout ++ pushed) (y + rowHeight + spacing st)
  end.

Definition generateSmartStitch (images : list SmartStitchImage) (st : Settings)
  : Result SmartCanvas :=
  match images with
  | [] => EmptyUrl
  | _ =>
      let rows := buildRows st images in
      (* Calculate layout positions *)
      let '(layout, y) := layoutRows st (length rows) 0 rows [] (spacing st) in
      let totalHeight := y in
      DataUrl (mkSmartCanvas (containerWidth st) totalHeight (backgroundColor st) layout)
  end.


Section Composite.
(** The decoder behind [loadImage]: [None] when the source does not load. *)
Variable loadImage : string -> option HTMLImageElement.


End Composite.

End ImageUtils.

(** ** JavaScript numbers in double precision

    A [number] is an IEEE 754 double: [NaN], an infinity, or a finite
    double, held as the rational it denotes.  The arithmetic operators
    compute the exact result and round it to the nearest double, ties to
    the even significand.  The significand has 53 bits; the exponent is
    not bounded, so overflow to [Infinity] and the reduced precision of
    subnormal numbers (magnitudes beyond 1.8e308 or below 2.3e-308) lie
    outside this module, and so does the sign of zero. *)
Module Number.

(** The exponent of the leading bit of [x <> 0]:
    [2 ^ exponent x <= |x| < 2 ^ (exponent x + 1)]. *)
Definition exponent (x : Q) : Z :=
  let e := (Z.log2 (Z.abs (Qnum x)) - Z.log2 (Zpos (Qden x)))%Z in
  if Qle_bool (2 ^ e) (Qabs x) then e else (e - 1)%Z.

(** The integer nearest to [q], the even one of the two when [q] lies half
    way. *)
Definition round_half_even (q : Q) : Z :=
  let f := Qfloor q in
  match Qcompare (q - inject_Z f) (1 # 2) with
  | Lt => f
  | Gt => (f + 1)%Z
  | Eq => if Z.even f then f else (f + 1)%Z
  end.

(** The double nearest to [x]: [x] rounded to a multiple of
    [2 ^ (exponent x - 52)], which leaves a significand of 53 bits; the
    fraction is in lowest terms. *)
Definition double (x : Q) : Q :=
  if Qeq_bool x 0 then 0
  else let ulp := 2 ^ (exponent x - 52) in
       Qred (inject_Z (round_half_even (x / ulp)) * ulp).

(** [2 ^ -53], the largest relative error of one rounding. *)
Definition unit_roundoff : Q := 1 # 9007199254740992.

Inductive t :=
| NaN
| Infinity (negative : bool)
| Finite (q : Q).

(** A number read from a field or a literal: the double nearest to it. *)
Definition of_Q (q : Q) : t := Finite (double q).

(** An array length; lengths are below [2 ^ 32] and need no rounding. *)
Definition of_length (n : nat) : t := Finite (inject_Z (Z.of_nat n)).

Definition negative (q : Q) : bool := negb (Qle_bool 0 q).

(** [x + y] *)
Definition add (x y : t) : t :=
  match x, y with
  | NaN, _ | _, NaN => NaN
  | Infinity a, Infinity b => if Bool.eqb a b then Infinity a else NaN
  | Infinity a, Finite _ => Infinity a
  | Finite _, Infinity b => Infinity b
  | Finite a, Finite b => Finite (double (a + b))
  end.

(** [x - y] *)
Definition sub (x y : t) : t :=
  match x, y with
  | NaN, _ | _, NaN => NaN
  | Infinity a, Infinity b => if Bool.eqb a b then NaN else Infinity a
  | Infinity a, Finite _ => Infinity a
  | Finite _, Infinity b => Infinity (negb b)
  | Finite a, Finite b => Finite (double (a - b))
  end.

(** [x * y] *)
Definition mul (x y : t) : t :=
  match x, y with
  | NaN, _ | _, NaN => NaN
  | Infinity a, Infinity b => Infinity (xorb a b)
  | Infinity a, Finite q | Finite q, Infinity a =>
      if Qeq_bool q 0 then NaN else Infinity (xorb a (negative q))
  | Finite a, Finite b => Finite (double (a * b))
  end.

(** [x / y] *)
Definition div (x y : t) : t :=
  match x, y with
  | NaN, _ | _, NaN => NaN
  | Infinity _, Infinity _ => NaN
  | Infinity a, Finite q => Infinity (xorb a (negative q))
  | Finite _, Infinity _ => Finite 0
  | Finite a, Finite b =>
      if Qeq_bool b 0
      then if Qeq_bool a 0 then NaN else Infinity (negative a)
      else Finite (double (a / b))
  end.

(** [x < y]; a comparison with [NaN] is false. *)
Definition ltb (x y : t) : bool :=
  match x, y with
  | NaN, _ | _, NaN => false
  | Infinity a, Infinity b => a && negb b
  | Infinity a, Finite _ => a
  | Finite _, Infinity b => negb b
  | Finite a, Finite b => negb (Qle_bool b a)
  end.

(** [x >= y] *)
Definition geb (x y : t) : bool :=
  match x, y with
  | NaN, _ | _, NaN => false
  | Infinity a, Infinity b => negb a || b
  | Infinity a, Finite _ => negb a
  | Finite _, Infinity b => b
  | Finite a, Finite b => Qle_bool b a
  end.

(** [Math.max(x, y)] *)
Definition max (x y : t) : t :=
  match x, y with
  | NaN, _ | _, NaN => NaN
  | Infinity a, Infinity b => Infinity (a && b)
  | Infinity a, Finite q => if a then Finite q else Infinity false
  | Finite q, Infinity b => if b then Finite q else Infinity false
  | Finite a, Finite b => Finite (Qmax a b)
  end.

(** [Math.max(...values)]; the maximum of nothing is [-Infinity]. *)
Definition Math_max (values : list t) : t := fold_left max values (Infinity true).

(** [Math.round(x)]: the nearest integer, halves rounded up. *)
Definition Math_round (x : t) : t :=
  match x with
  | Finite q => Finite (inject_Z (Qfloor (q + (1 # 2))))
  | _ => x
  end.

(** [Math.ceil(x)] *)
Definition Math_ceil (x : t) : t :=
  match x with
  | Finite q => Finite (inject_Z (Qceiling q))
  | _ => x
  end.

(** *** The binary64 floats of the kernel

    Rocq's primitive floats are IEEE 754 binary64 numbers with the
    operations of the processor; they serve to test [double] against the
    arithmetic JavaScript runs on. *)

(** The number a binary64 float denotes. *)
Definition of_binary64 (f : PrimFloat.float) : t :=
  match FloatOps.Prim2SF f with
  | SpecFloat.S754_zero _ => Finite 0
  | SpecFloat.S754_infinity s => Infinity s
  | SpecFloat.S754_nan => NaN
  | SpecFloat.S754_finite s m e =>
      Finite (Qred ((if s then -1 else 1) * inject_Z (Zpos m) * 2 ^ e))
  end.

(** The float of an integer below [2 ^ 53]. *)
Definition binary64 (z : Z) : PrimFloat.float := PrimFloat.of_uint63 (Uint63.of_Z z).

(** Whether [a / b * c], [a / b + c], [a / b - c / a] and
    [(a / b) / (c / a)] come out the same in binary64 and in this module. *)
Definition agrees_at (a b c : Z) : bool :=
  let same (f : PrimFloat.float) (x : t) :=
    match of_binary64 f, x with
    | Finite u, Finite v => Qeq_bool u v
    | _, _ => false
    end in
  let fa := binary64 a in
  let fb := binary64 b in
  let fc := binary64 c in
  let xa := Finite (inject_Z a) in
  let xb := Finite (inject_Z b) in
  let xc := Finite (inject_Z c) in
  same (PrimFloat.mul (PrimFloat.div fa fb) fc) (mul (div xa xb) xc)
  && same (PrimFloat.add (PrimFloat.div fa fb) fc) (add (div xa xb) xc)
  && same (PrimFloat.sub (PrimFloat.div fa fb) (PrimFloat.div fc fa)) (sub (div xa xb) (div xc xa))
  && same (PrimFloat.div (PrimFloat.div fa fb) (PrimFloat.div fc fa)) (div (div xa xb) (div xc xa)).

(** Sizes in pixels and percentages at which exact arithmetic and binary64
    take different branches in [imageUtils.ts]. *)
Definition sample_sizes : list Z := [25; 58; 90; 100; 305; 340; 433; 1000]%Z.

End Number.

(** ** The size attributes of a canvas

    [canvas.width] and [canvas.height] are [unsigned long] attributes that
    reflect content attributes with the defaults 300 and 150.  The number
    assigned is converted as Web IDL prescribes: [NaN] and the infinities
    become 0, any other number loses its fractional part and is reduced
    modulo [2 ^ 32].  A value above [2 ^ 31 - 1] is replaced by the
    default. *)
Module HTMLCanvasElement.

(** The integer part of a number: rounding towards zero. *)
Definition IntegerPart (q : Q) : Z := if Qle_bool 0 q then Qfloor q else Qceiling q.

Definition unsigned_long (v : Number.t) : Z :=
  match v with
  | Number.Finite q => (IntegerPart q mod 4294967296)%Z
  | _ => 0%Z
  end.

(** What [canvas.width] (default 300) or [canvas.height] (default 150)
    holds after [v] is assigned to it. *)
Definition size (default : Z) (v : Number.t) : Z :=
  let n := unsigned_long v in
  if (n <=? 2147483647)%Z then n else default.

End HTMLCanvasElement.

(** ** utils/imageUtils.ts in double precision

    The functions of [imageUtils.ts] that turn computed numbers into
    integers or branch on them, with the arithmetic of [Number]: every
    operator rounds, in the order in which the source applies it. *)
Module ImageUtils64.
Import Number.

(** One [ctx.drawImage(image, dx, dy, dWidth, dHeight)]. *)
Record DrawCall := mkDraw {
  image : ImageUtils.HTMLImageElement; dx : Number.t; dy : Number.t;
  dWidth : Number.t; dHeight : Number.t
}.

(** The canvas [toDataURL] encodes: its size and what was drawn on it, in
    drawing order. *)
Record Canvas := mkCanvas { canvas_width : Z; canvas_height : Z; drawn : list DrawCall }.

(** An entry of [dimensions]. *)
Record Dimension := mkDimension {
  dim_img : ImageUtils.HTMLImageElement; dim_width : Number.t; dim_height : Number.t
}.

(** [img.width] and [img.height] *)
Definition width_of (img : ImageUtils.HTMLImageElement) : Number.t :=
  of_Q (ImageUtils.img_width img).
Definition height_of (img : ImageUtils.HTMLImageElement) : Number.t :=
  of_Q (ImageUtils.img_height img).

Section Decode.
(** Whether [canvas.getContext('2d')] yields a context. *)
Variable has2d : bool.
(** The decoder behind [loadImage]: [None] when the source does not load. *)
Variable loadImage : string -> option ImageUtils.HTMLImageElement.

(** Steps 1 to 4 of [generateStitchedCanvas], on the decoded images. *)
Definition stitchLoaded (loadedImages : list ImageUtils.HTMLImageElement)
  : ImageUtils.Result Canvas :=
  (* 1. Find the maximum height among all images *)
  let maxHeight := Math_max (map height_of loadedImages) in
  (* 2. Calculate scaled widths and total width *)
  let '(totalWidth, dimensions) :=
    fold_left
      (fun '(totalWidth, dims) img =>
         let aspectRatio := div (width_of img) (height_of img) in
         let newWidth := mul aspectRatio maxHeight in
         (add totalWidth newWidth, dims ++ [mkDimension img newWidth maxHeight]))
      loadedImages (Finite 0, []) in
  (* 3. Create Canvas *)
  let width := HTMLCanvasElement.size 300 (Math_ceil totalWidth) in
  let height := HTMLCanvasElement.size 150 (Math_ceil maxHeight) in
  if has2d then
    (* 4. Draw Images *)
    let '(_, draws) :=
      fold_left
        (fun '(currentX, draws) dim =>
           (add currentX (dim_width dim),
            draws ++ [mkDraw (dim_img dim) currentX (Finite 0) (dim_width dim) (dim_height dim)]))
        dimensions (Finite 0, []) in
    ImageUtils.DataUrl (mkCanvas width height draws)
  else ImageUtils.Rejected.

Definition generateStitchedCanvas (items : list string) : ImageUtils.Result Canvas :=
  match items with
  | [] => ImageUtils.EmptyUrl
  | _ =>
      match mapM loadImage items with
      | None => ImageUtils.Rejected
      | Some loadedImages => stitchLoaded loadedImages
      end
  end.

(** The canvas [cropImage] encodes: its size and the one
    [ctx.drawImage(img, sx, sy, sWidth, sHeight, 0, 0, canvas.width, canvas.height)]
    made on it. *)
Record CropCanvas := mkCropCanvas {
  crop_canvas_width : Z; crop_canvas_height : Z;
  crop_image : ImageUtils.HTMLImageElement;
  sx : Number.t; sy : Number.t; sWidth : Number.t; sHeight : Number.t;
  crop_dx : Number.t; crop_dy : Number.t; crop_dWidth : Z; crop_dHeight : Z
}.

Definition cropImage (imageSrc : string) (crop : CropRegion.t) (originalWidth originalHeight : Q)
  : ImageUtils.Result CropCanvas :=
  match loadImage imageSrc with
  | None => ImageUtils.Rejected
  | Some img =>
      (* Calculate pixel values *)
      let pxX := mul (div (of_Q (CropRegion.x crop)) (Finite 100)) (of_Q originalWidth) in
      let pxY := mul (div (of_Q (CropRegion.y crop)) (Finite 100)) (of_Q originalHeight) in
      let pxW := mul (div (of_Q (CropRegion.width crop)) (Finite 100)) (of_Q originalWidth) in
      let pxH := mul (div (of_Q (CropRegion.height crop)) (Finite 100)) (of_Q originalHeight) in
      (* Canvas dimensions must be integers *)
      let width := HTMLCanvasElement.size 300 (max (Finite 1) (Math_round pxW)) in
      let height := HTMLCanvasElement.size 150 (max (Finite 1) (Math_round pxH)) in
      if has2d then
        (* Draw the portion of the image *)
        ImageUtils.DataUrl
          (mkCropCanvas width height img pxX pxY pxW pxH (Finite 0) (Finite 0) width height)
      else ImageUtils.Rejected
  end.
End Decode.

(** An entry of a row. *)
Record RowItem := mkRowItem {
  img : ImageUtils.SmartStitchImage; aspectRatio : Number.t; scaledWidth : Number.t
}.

(** [SmartStitchLayoutItem], as [layout.push] builds it. *)
Record SmartStitchLayoutItem := mkLayoutItem {
  li_img : ImageUtils.SmartStitchImage;
  li_x : Number.t; li_y : Number.t; li_width : Number.t; li_height : Number.t
}.

(** The canvas [generateSmartStitch] encodes: its size, the colour it is
    filled with, and the images drawn on it. *)
Record SmartCanvas := mkSmartCanvas {
  sc_width : Z; sc_height : Z; fillStyle : string; sc_layout : list SmartStitchLayoutItem
}.

Section Settings.
Variable st : ImageUtils.Settings.

Definition containerWidth : Number.t := of_Q (ImageUtils.containerWidth st).
Definition targetRowHeight : Number.t := of_Q (ImageUtils.targetRowHeight st).
Definition spacing : Number.t := of_Q (ImageUtils.spacing st).

(** Build rows based on aspect ratios: the loop state is
    [(rows, currentRow, currentWidth)]. *)
Definition packImage
    (acc : list (list RowItem) * list RowItem * Number.t) (image : ImageUtils.SmartStitchImage)
  : list (list RowItem) * list RowItem * Number.t :=
  let '(rows, currentRow, currentWidth) := acc in
  let aspectRatio :=
    div (of_Q (ImageUtils.ss_width image)) (of_Q (ImageUtils.ss_height image)) in
  let scaledWidth := mul targetRowHeight aspectRatio in
  let currentRow := currentRow ++ [mkRowItem image aspectRatio scaledWidth] in
  let currentWidth := add currentWidth scaledWidth in
  let totalWidthWithSpacing :=
    add currentWidth (mul (sub (of_length (length currentRow)) (Finite 1)) spacing) in
  if geb totalWidthWithSpacing containerWidth
  then (rows ++ [currentRow], [], Finite 0)
  else (rows, currentRow, currentWidth).

Definition buildRows (images : list ImageUtils.SmartStitchImage) : list (list RowItem) :=
  let '(rows, currentRow, _) := fold_left packImage images ([], [], Finite 0) in
  if (0 <? length currentRow)%nat then rows ++ [currentRow] else rows.

(** [row.reduce((sum, item) => sum + item.aspectRatio, 0)] *)
Definition rowAspectRatio (row : list RowItem) : Number.t :=
  fold_left (fun sum item => add sum (aspectRatio item)) row (Finite 0).

Definition availableWidth (row : list RowItem) : Number.t :=
  sub (sub containerWidth (mul spacing (Finite 2)))
      (mul (sub (of_length (length row)) (Finite 1)) spacing).

(** The condition under which the last row keeps [targetRowHeight]. *)
Definition keepsTargetHeight (isLastRow : bool) (row : list RowItem) : bool :=
  isLastRow && (0 <? length row)%nat
  && ltb (rowAspectRatio row) (mul (div (availableWidth row) targetRowHeight) (of_Q (6 # 10))).

Definition rowHeight (isLastRow : bool) (row : list RowItem) : Number.t :=
  if keepsTargetHeight isLastRow row then targetRowHeight
  else div (availableWidth row) (rowAspectRatio row).

(** The inner loop over a row's items: what it pushes, and the final [x]. *)
Definition layoutRow (y rowHeight : Number.t) (row : list RowItem)
  : list SmartStitchLayoutItem * Number.t :=
  fold_left
    (fun '(pushed, x) item =>
       let width := mul rowHeight (aspectRatio item) in
       (pushed ++ [mkLayoutItem (img item) x y width rowHeight], add x (add width spacing)))
    row ([], spacing).

(** The outer loop [for (let i = 0; i < rows.length; i++)], from index [i]
    on; [rest] is [rows] from index [i]. *)
Fixpoint layoutRows (len i : nat) (rest : list (list RowItem))
    (layout : list SmartStitchLayoutItem) (y : Number.t)
  : list SmartStitchLayoutItem * Number.t :=
  match rest with
  | [] => (layout, y)
  | row :: rest =>
      let isLastRow := (Z.of_nat i =? Z.of_nat len - 1)%Z in
      let rowHeight := rowHeight isLastRow row in
      let '(pushed, _) := layoutRow y rowHeight row in
      layoutRows len (S i) rest (layout ++ pushed) (add y (add rowHeight spacing))
  end.

(** [has2d]: whether [canvas.getContext('2d')] yields a context;
    [loads]: whether an image with that [src] fires [onload].  A draw
    promise has no [onerror]: when an image does not load the promise
    returned never settles, which is [None]. *)
Definition generateSmartStitch (has2d : bool) (loads : string -> bool)
    (images : list ImageUtils.SmartStitchImage) : option (ImageUtils.Result SmartCanvas) :=
  match images with
  | [] => Some ImageUtils.EmptyUrl
  | _ =>
      let rows := buildRows images in
      (* Calculate layout positions *)
      let '(layout, y) := layoutRows (length rows) 0 rows [] spacing in
      let totalHeight := y in
      (* Draw to canvas *)
      let width := HTMLCanvasElement.size 300 containerWidth in
      let height := HTMLCanvasElement.size 150 totalHeight in
      if has2d then
        if forallb (fun item => loads (ImageUtils.dataUrl (li_img item))) layout
        then Some (ImageUtils.DataUrl
                     (mkSmartCanvas width height (ImageUtils.backgroundColor st) layout))
        else None
      else Some ImageUtils.EmptyUrl
  end.
End Settings.

End ImageUtils64.

(** * Specification predicates *)

(** ** Regions and gestures *)

(** The invariant of a region (section 3 of the specification). *)
Definition valid_region (c : CropRegion.t) : Prop :=
  0 <= CropRegion.x c /\ 0 <= CropRegion.y c /\
  CropRegion.x c + CropRegion.width c <= 100 /\
  CropRegion.y c + CropRegion.height c <= 100 /\
  1 <= CropRegion.width c /\ 1 <= CropRegion.height c.

(** A point of the percentage plane, and equality of two points. *)
Definition same_point (p q : Q * Q) : Prop := fst p == fst q /\ snd p == snd q.

(** The corner diagonally opposite a handle. *)
Definition opposite_corner (h : ImageCropper.Handle) (c : CropRegion.t) : Q * Q :=
  match h with
  | ImageCropper.SE => (CropRegion.x c, CropRegion.y c)
  | ImageCropper.SW => (CropRegion.x c + CropRegion.width c, CropRegion.y c)
  | ImageCropper.NE => (CropRegion.x c, CropRegion.y c + CropRegion.height c)
  | ImageCropper.NW =>
      (CropRegion.x c + CropRegion.width c, CropRegion.y c + CropRegion.height c)
  end.

(** The pointer-move events of a gesture, from the pointer positions. *)
Definition pointer_moves (positions : list (Q * Q)) : list ImageCropper.Event :=
  map (fun p => ImageCropper.MouseMove (fst p) (snd p)) positions.

(** Pointer-move and pointer-up events. *)
Definition move_or_up (e : ImageCropper.Event) : Prop :=
  match e with
  | ImageCropper.MouseMove _ _ | ImageCropper.MouseUp _ _ _ => True
  | _ => False
  end.

(** The container, when mounted, has a non-empty bounding box. *)
Definition sized (s : ImageCropper.State) : Prop :=
  match ImageCropper.containerRef s with
  | Some rect => 0 < ImageCropper.rect_width rect /\ 0 < ImageCropper.rect_height rect
  | None => True
  end.

(** The region [handleKeyDown] and the toolbar act on: the first one whose
    id is [activeCropId]. *)
Definition active_region (s : ImageCropper.State) : option CropRegion.t :=
  match ImageCropper.activeCropId s with
  | Some active =>
      List.find (fun c => String.eqb (CropRegion.id c) active)
                (ImageLayer.crops (ImageCropper.layer s))
  | None => None
  end.

(** A 400 x 300 container at the origin of the viewport, showing an image
    without regions; nothing selected, no gesture in progress. *)
Definition blank_cropper : ImageCropper.State :=
  ImageCropper.mkState
    (ImageLayer.mk "layer-1" None "photo.png" "data:image/png;base64,AA" 800 600 [])
    None None None None
    (Some (ImageCropper.mkRect 0 0 400 300)).

(** No pointer-up of the trace draws [id] as the id of a new region. *)
Definition never_draws (id : string) (e : ImageCropper.Event) : Prop :=
  match e with
  | ImageCropper.MouseUp _ _ uuid => uuid <> id
  | _ => True
  end.

(** The region [locked] is in the list, is the only one under its id, and
    no gesture in progress is about that id. *)
Definition holds_untouched (locked : CropRegion.t) (s : ImageCropper.State) : Prop :=
  In locked (ImageLayer.crops (ImageCropper.layer s)) /\
  (forall c, In c (ImageLayer.crops (ImageCropper.layer s)) ->
             CropRegion.id c = CropRegion.id locked -> c = locked) /\
  (forall o, ImageCropper.optimisticCrop s = Some o -> CropRegion.id o <> CropRegion.id locked) /\
  (forall it, ImageCropper.interaction s = Some it ->
     (forall init, ImageCropper.initialCrop it = Some init ->
                   CropRegion.id init <> CropRegion.id locked) /\
     (forall a, ImageCropper.activeId it = Some a -> a <> CropRegion.id locked)).

(** ** The asset graph *)

(** [ownerId] names a layer, or a group, of the asset graph. *)
Definition has_layer (s : App.State) (ownerId : string) : Prop :=
  exists l, In l (App.layers s) /\ ImageLayer.id l = ownerId.

Definition has_group (s : App.State) (ownerId : string) : Prop :=
  exists g, In g (App.groups s) /\ AssetGroup.id g = ownerId.

(** [ownerId] and [regionId] resolve to an owner / region pair. *)
Definition resolves (s : App.State) (ownerId regionId : string) : Prop :=
  (exists l, In l (App.layers s) /\ ImageLayer.id l = ownerId /\
             exists c, In c (ImageLayer.crops l) /\ CropRegion.id c = regionId) \/
  (exists g, In g (App.groups s) /\ AssetGroup.id g = ownerId /\
             exists c, In c (AssetGroup.crops g) /\ CropRegion.id c = regionId).

(** [c'] is [c], flagged as queued when its id is [regionId]. *)
Definition flagged (regionId : string) (c c' : CropRegion.t) : Prop :=
  (CropRegion.id c = regionId /\ c' = CropRegion.set_isStitched true c) \/
  (CropRegion.id c <> regionId /\ c' = c).

(** [l'] is [l], with the regions named [regionId] flagged when [l] is the
    owner; the same for groups. *)
Definition layer_flagged (ownerId regionId : string) (l l' : ImageLayer.t) : Prop :=
  (ImageLayer.id l = ownerId /\
   exists crops', Forall2 (flagged regionId) (ImageLayer.crops l) crops' /\
                  l' = ImageLayer.set_crops crops' l) \/
  (ImageLayer.id l <> ownerId /\ l' = l).

Definition group_flagged (ownerId regionId : string) (g g' : AssetGroup.t) : Prop :=
  (AssetGroup.id g = ownerId /\
   exists crops', Forall2 (flagged regionId) (AssetGroup.crops g) crops' /\
                  g' = AssetGroup.set_crops crops' g) \/
  (AssetGroup.id g <> ownerId /\ g' = g).

(** A library holding one layer with one locked region. *)
Definition one_layer_library : App.State :=
  App.mkState None ∅ false ∅ None
    [ImageLayer.mk "layer-1" None "photo.png" "data:image/png;base64,AA" 800 600
       [CropRegion.mk "region-1" 10 10 50 50 true None false]]
    [] [].

(** A layer that belongs to no group. *)
Definition ungrouped (l : ImageLayer.t) : Prop := truthy (ImageLayer.groupId l) = false.

(** The selected ungrouped layers, in library order: the layers the group
    operation is about. *)
Definition selected_ungrouped (s : App.State) : list ImageLayer.t :=
  filter (fun l => ImageLayer.id l ∈ App.selectedLibraryIds s /\ ungrouped l) (App.layers s).

(** Three imported layers, the first and the last selected. *)
Definition three_layer_library : App.State :=
  App.mkState None {["layer-3"; "layer-1"]} true ∅ None
    [ImageLayer.mk "layer-1" None "a.png" "data:image/png;base64,AA" 800 600 [];
     ImageLayer.mk "layer-2" None "b.png" "data:image/png;base64,BB" 400 600 [];
     ImageLayer.mk "layer-3" None "c.png" "data:image/png;base64,CC" 640 480 []]
    [] [].

(** [gid] is [root] or the id of a group reachable from [root] by following
    [parentGroupId] links upwards from that group. *)
Inductive descendant (groups : list AssetGroup.t) (root : string) : string -> Prop :=
| descendant_root : descendant groups root root
| descendant_child g p :
    g ∈ groups -> AssetGroup.parentGroupId g = Some p ->
    descendant groups root p -> descendant groups root (AssetGroup.id g).

(** [lid] is in the member list of a group of the subtree of [root]. *)
Definition owned_by_subtree (s : App.State) (root lid : string) : Prop :=
  exists g, g ∈ App.groups s /\ descendant (App.groups s) root (AssetGroup.id g) /\
            lid ∈ AssetGroup.layerIds g.

(** The [parentGroupId] links make the groups a forest: no group has its
    parent among its own descendants, itself included. *)
Definition forest (groups : list AssetGroup.t) : Prop :=
  forall g p,
    g ∈ groups -> AssetGroup.parentGroupId g = Some p ->
    ~ descendant groups (AssetGroup.id g) p.

(** The layout of the table the handlers build: a group's parent, when it
    is in the table, stands before it ([handleCreateSubgroup] appends a
    subgroup after its parent, and no handler moves a group). *)
Definition parents_precede (groups : list AssetGroup.t) : Prop :=
  forall i j gi gj,
    groups !! i = Some gi -> groups !! j = Some gj ->
    AssetGroup.parentGroupId gj = Some (AssetGroup.id gi) -> (i < j)%nat.

(** Membership is recorded on both sides: a layer whose [groupId] names a
    group of the table is in that group's member list. *)
Definition members_consistent (s : App.State) : Prop :=
  Forall (fun l =>
            Forall (fun g =>
                      ImageLayer.groupId l = Some (AssetGroup.id g) ->
                      ImageLayer.id l ∈ AssetGroup.layerIds g)
                   (App.groups s))
         (App.layers s).

(** A group with two nested subgroups, each owning layers, next to a layer
    and a group that are not part of it; a layer of a subgroup is open in
    the editor. *)
Definition nested_library : App.State :=
  App.mkState (Some "layer-3") ∅ false ∅ (Some "group-1")
    [ImageLayer.mk "layer-1" (Some "group-1") "a.png" "data:image/png;base64,AA" 800 600 [];
     ImageLayer.mk "layer-2" (Some "group-1") "b.png" "data:image/png;base64,BB" 400 600 [];
     ImageLayer.mk "layer-3" (Some "group-2") "c.png" "data:image/png;base64,CC" 300 600 [];
     ImageLayer.mk "layer-4" (Some "group-3") "d.png" "data:image/png;base64,DD" 200 600 [];
     ImageLayer.mk "layer-5" None "e.png" "data:image/png;base64,EE" 640 480 [];
     ImageLayer.mk "layer-6" (Some "group-4") "f.png" "data:image/png;base64,FF" 640 480 []]
    [AssetGroup.mk "group-1" "Group 1" ["layer-1"; "layer-2"] [] None;
     AssetGroup.mk "group-4" "Group 2" ["layer-6"] [] None;
     AssetGroup.mk "group-2" "Selection Stitch 1" ["layer-3"] [] (Some "group-1");
     AssetGroup.mk "group-3" "Selection Stitch 2" ["layer-4"] [] (Some "group-1")]
    [].

(** A group that is its own parent. *)
Definition self_parent_group : AssetGroup.t :=
  AssetGroup.mk "group-1" "Group 1" [] [] (Some "group-1").

(** ** Reordering *)

(** [g'] is [g] with its member list rearranged when it is named [groupId],
    and nothing else changed. *)
Definition members_permuted (groupId : string) (g g' : AssetGroup.t) : Prop :=
  (AssetGroup.id g = groupId /\
   exists ids', ids' ≡ₚ AssetGroup.layerIds g /\ g' = AssetGroup.set_layerIds ids' g) \/
  (AssetGroup.id g <> groupId /\ g' = g).

(** A queue of three regions of one layer. *)
Definition three_item_queue : list StitchItem.t :=
  [StitchItem.mk "item-1" "layer-1" "region-1";
   StitchItem.mk "item-2" "layer-1" "region-2";
   StitchItem.mk "item-3" "layer-1" "region-3"].

(** ** Pixel composition *)

(** The sum of a list of numbers. *)
Definition Qsum (values : list Q) : Q := fold_right Qplus 0 values.


(** Sources and images of positive size. *)
Definition decoded (source : ImageUtils.HTMLImageElement) : Prop :=
  0 < ImageUtils.img_width source /\ 0 < ImageUtils.img_height source.




(** The settings and images of the worked example: a 1200 wide container,
    rows of 300, spacing 12; aspect ratios 2, 1 and 1.5. *)
Definition example_settings : ImageUtils.Settings :=
  ImageUtils.mkSettings 1200 300 12 "#ffffff".


(** The row entry made for an image. *)
Definition row_item (st : ImageUtils.Settings) (image : ImageUtils.SmartStitchImage)
  : ImageUtils.RowItem :=
  ImageUtils.mkRowItem image
    (ImageUtils.ss_width image / ImageUtils.ss_height image)
    (ImageUtils.targetRowHeight st * (ImageUtils.ss_width image / ImageUtils.ss_height image)).

(** ** Gestures, from pointer-down to pointer-up *)

(** The rectangle shown for a region dragged in mode [m] from the snapshot
    [crop]: the one computed from the last pointer position, the snapshot
    itself before the first pointer-move. *)
Definition dragged_to (s : ImageCropper.State) (m : ImageCropper.InteractionMode)
    (crop : CropRegion.t) (downX downY : Q) (positions : list (Q * Q)) : CropRegion.t :=
  let start := ImageCropper.getClientPos s downX downY in
  List.last
    (map (fun p =>
            let pos := ImageCropper.getClientPos s (fst p) (snd p) in
            ImageCropper.modifiedCrop m crop
              (ImageCropper.px pos - ImageCropper.px start)
              (ImageCropper.py pos - ImageCropper.py start))
         positions)
    crop.

(** The region spanned by the pointer-down and pointer-up positions of a
    create gesture, under the id [uuid]. *)
Definition drawn_region (s : ImageCropper.State) (uuid : string) (downX downY upX upY : Q)
  : CropRegion.t :=
  let start := ImageCropper.getClientPos s downX downY in
  let stop := ImageCropper.getClientPos s upX upY in
  CropRegion.mk uuid
    (Qmin (ImageCropper.px start) (ImageCropper.px stop))
    (Qmin (ImageCropper.py start) (ImageCropper.py stop))
    (Qabs (ImageCropper.px stop - ImageCropper.px start))
    (Qabs (ImageCropper.py stop - ImageCropper.py start))
    false None false.

(** The cropper showing one unlocked region, nothing selected. *)
Definition one_region_cropper : ImageCropper.State :=
  ImageCropper.mkState
    (ImageLayer.mk "layer-1" None "photo.png" "data:image/png;base64,AA" 800 600
       [CropRegion.mk "region-1" 10 20 30 40 false None false])
    None None None None
    (Some (ImageCropper.mkRect 0 0 400 300)).

(** ** Export of regions and layers *)







(** ** Well-formed libraries *)

(** [uuid] is not in use as a group id: no group carries it, no group names
    it as parent and no layer names it as its group. *)
Definition fresh_group_id (uuid : string) (s : App.State) : Prop :=
  (forall g, g ∈ App.groups s ->
             AssetGroup.id g <> uuid /\ AssetGroup.parentGroupId g <> Some uuid) /\
  (forall l, l ∈ App.layers s -> ImageLayer.groupId l <> Some uuid).

(** The two properties of the asset graph the data model asks for. *)
Definition well_formed (s : App.State) : Prop :=
  forest (App.groups s) /\ members_consistent s.

(** What the user can do to the library.  Fresh ids, file contents and the
    dragged item are part of the action. *)
Inductive LibraryAction :=
| Import (uuid type name : string) (decoded : option (string * Q * Q))
         (draggedLibraryItemId : option string)
| ToggleSelection (id : string)
| CreateGroup (uuid : string)
| Ungroup (groupId : string)
| DeleteItem (fuel : nat) (id : string) (type : App.ItemType)
| DeleteSelected
| CreateSubgroup (uuid parentGroupId : string) (newLayers : list ImageLayer.t)
| DropItem (uuid : string) (draggedLibraryItemId : option string) (targetId : string)
           (isTargetGroup : bool)
| ReorderGroup (groupId : string) (fromIndex toIndex : Z)
| UpdateLayer (updatedLayer : ImageLayer.t)
| UpdateGroupCrops (groupId : string) (newCrops : list CropRegion.t)
| RenameGroup (trimmed groupId newName : string)
| AddToStitch (uuid layerId cropId : string).

(** The handler behind each action; [None] when it does not return. *)
Definition perform (a : LibraryAction) (s : App.State) : option App.State :=
  match a with
  | Import uuid type name decoded dragged => Some (App.processFile uuid type name decoded dragged s)
  | ToggleSelection id => Some (App.toggleSelection id s)
  | CreateGroup uuid => Some (App.handleCreateGroup uuid s)
  | Ungroup groupId => Some (App.handleUngroup groupId s)
  | DeleteItem fuel id type => App.handleDeleteItem fuel id type s
  | DeleteSelected => Some (App.handleDeleteSelected s)
  | CreateSubgroup uuid parentGroupId newLayers =>
      Some (App.handleCreateSubgroup uuid parentGroupId newLayers s)
  | DropItem uuid dragged targetId isTargetGroup =>
      App.handleLibraryDropItem uuid dragged targetId isTargetGroup s
  | ReorderGroup groupId fromIndex toIndex => App.handleReorderGroup groupId fromIndex toIndex s
  | UpdateLayer updatedLayer => Some (App.handleUpdateLayer updatedLayer s)
  | UpdateGroupCrops groupId newCrops => Some (App.handleUpdateGroupCrops groupId newCrops s)
  | RenameGroup trimmed groupId newName =>
      Some (App.handleRenameGroup trimmed groupId newName s)
  | AddToStitch uuid layerId cropId => Some (App.handleAddToStitch uuid layerId cropId s)
  end.

(** The conditions under which the components call the handlers: an id
    drawn for a new group is fresh, a reorder moves a position of the member
    list, and the cropper hands back the layer it was given, with its id
    and group. *)
Definition admissible (s : App.State) (a : LibraryAction) : Prop :=
  match a with
  | CreateGroup uuid | DropItem uuid _ _ _ => fresh_group_id uuid s
  | CreateSubgroup uuid parentGroupId _ => fresh_group_id uuid s /\ uuid <> parentGroupId
  | ReorderGroup groupId fromIndex _ =>
      forall g, g ∈ App.groups s -> AssetGroup.id g = groupId ->
                (0 <= fromIndex < Z.of_nat (length (AssetGroup.layerIds g)))%Z
  | UpdateLayer updatedLayer =>
      forall l, l ∈ App.layers s -> ImageLayer.id l = ImageLayer.id updatedLayer ->
                ImageLayer.groupId l = ImageLayer.groupId updatedLayer
  | _ => True
  end.

(** The library the application starts with. *)
Definition empty_library : App.State := App.mkState None ∅ false ∅ None [] [] [].

(** The libraries the handlers can produce from the empty one. *)
Inductive reachable : App.State -> Prop :=
| reachable_empty : reachable empty_library
| reachable_step s a s' :
    reachable s -> admissible s a -> perform a s = Some s' -> reachable s'.

(** Two imported layers, grouped from the selection: a library the
    handlers produce from the empty one. *)
Definition two_layer_group : App.State :=
  App.handleCreateGroup "group-1"
    (App.toggleSelection "layer-2"
       (App.toggleSelection "layer-1"
          (App.processFile "layer-2" "image/png" "b.png"
             (Some ("data:image/png;base64,BB"%string, 400, 600)) None
             (App.processFile "layer-1" "image/jpeg" "a.jpg"
                (Some ("data:image/png;base64,AA"%string, 800, 600)) None
                empty_library)))).

(** ** The stitch queue *)

(** A drag gesture on the queue: the drag starts on the item at [from],
    passes over the items at [over] and ends with a drop on the item at
    [to]. *)
Definition drag_and_drop {A} (from : Z) (over : list Z) (to : Z)
    (st : @StitchView.DragState A) : StitchView.DragState :=
  StitchView.handleDrop to
    (fold_left (fun st index => StitchView.handleDragOver index st) over
               (StitchView.handleDragStart from st)).

(** ** Rounding tolerance *)

(** The factor by which one rounding to the nearest double can change a
    number: [1 / (1 - 2 ^ -53)]. *)
Definition rounding_step : Q := 1 + (1 # 9007199254740991).

(** The factor [k] roundings in a row can accumulate. *)
Fixpoint growth (k : nat) : Q :=
  match k with
  | O => 1
  | S k => rounding_step * growth k
  end.

(** The relative error of [k] roundings: about [k x 2 ^ -53]. *)
Definition tolerance (k : nat) : Q := growth k - 1.

Definition same_sign (x y : Q) : Prop := (0 <= x /\ 0 <= y) \/ (x <= 0 /\ y <= 0).

(** [x] and [y] are within [k] roundings of each other: of one sign, and
    neither exceeds the other by more than the factor [growth k]. *)
Definition near (k : nat) (x y : Q) : Prop :=
  same_sign x y /\ Qabs x <= Qabs y * growth k /\ Qabs y <= Qabs x * growth k.

(** [x] equals [y] within the tolerance of [k] roundings of numbers of
    size [scale]. *)
Definition within_rounding (k : nat) (x y scale : Q) : Prop :=
  Qabs (x - y) <= tolerance k * scale.

(** ** Pixel composition in double precision *)


(** The running sum [total += width], from 0. *)
Definition running_sum (widths : list Number.t) : Number.t :=
  fold_left Number.add widths (Number.Finite 0).

(** ** Rows of the justified layout in double precision *)

(** The aspect ratio computed for an image. *)
Definition aspect_of (image : ImageUtils.SmartStitchImage) : Number.t :=
  Number.div (Number.of_Q (ImageUtils.ss_width image)) (Number.of_Q (ImageUtils.ss_height image)).

(** The row entry made for an image. *)
Definition row_entry (st : ImageUtils.Settings) (image : ImageUtils.SmartStitchImage)
  : ImageUtils64.RowItem :=
  ImageUtils64.mkRowItem image (aspect_of image)
    (Number.mul (ImageUtils64.targetRowHeight st) (aspect_of image)).

(** The width the packer computes for a row at the target height: the
    running sum of the scaled widths of its items, and the spacing between
    them. *)
Definition packed_width (st : ImageUtils.Settings) (row : list ImageUtils64.RowItem) : Number.t :=
  Number.add (running_sum (map ImageUtils64.scaledWidth row))
             (Number.mul (Number.sub (Number.of_length (length row)) (Number.Finite 1))
                         (ImageUtils64.spacing st)).

(** The test that closes a row. *)
Definition reaches_container (st : ImageUtils.Settings) (row : list ImageUtils64.RowItem) : bool :=
  Number.geb (packed_width st row) (ImageUtils64.containerWidth st).

(** A row still open: none of its non-empty beginnings, itself included,
    reaches the container width. *)
Definition still_open (st : ImageUtils.Settings) (row : list ImageUtils64.RowItem) : Prop :=
  forall k, (0 < k <= length row)%nat -> reaches_container st (take k row) = false.

(** A row the packer has closed: it reaches the container width, and did
    not before its last item was added. *)
Definition closed (st : ImageUtils.Settings) (row : list ImageUtils64.RowItem) : Prop :=
  row <> [] /\
  (forall k, (0 < k < length row)%nat -> reaches_container st (take k row) = false) /\
  reaches_container st row = true.







(** The largest image size for which every canvas size stays below
    [2 ^ 31]: [2 ^ 30] pixels. *)
Definition pixel_limit : Q := 1073741824.

(** The library after the user has selected the items [given], one after
    the other: the selection holds them in that order. *)
Definition selected_in_order (given : list string) (s : App.State) : App.State :=
  fold_left (fun s id => App.toggleSelection id s) given s.

(** * Proofs: the region interaction machine *)

Lemma Qabs_cases (a : Q) : (0 <= a /\ Qabs a == a) \/ (a <= 0 /\ Qabs a == - a).
Proof.
  destruct (Qlt_le_dec a 0) as [H | H].
  - right. split; [lra | apply Qabs_neg; lra].
  - left. split; [assumption | apply Qabs_pos; assumption].
Qed.

(** Case analysis on every [Qmin], [Qmax] and [Qabs] in sight, then linear
    arithmetic. *)
(** Reduction that leaves the arithmetic of [Q] folded. *)
Tactic Notation "qcbn" :=
  cbn -[Qabs Qplus Qminus Qmult Qdiv Qopp Qmin Qmax Qle Qlt Qeq].
Tactic Notation "qcbn" "in" hyp(H) :=
  cbn -[Qabs Qplus Qminus Qmult Qdiv Qopp Qmin Qmax Qle Qlt Qeq] in H.

Ltac q_case_on t lem :=
  let H := fresh "Hcase" in let m := fresh "m" in
  pose proof lem as H; set (m := t) in *; clearbody m.

Ltac q_cases :=
  repeat match goal with
  | |- context [Qmax ?a ?b] => q_case_on (Qmax a b) (Q.max_spec a b)
  | |- context [Qmin ?a ?b] => q_case_on (Qmin a b) (Q.min_spec a b)
  | |- context [Qabs ?a] => q_case_on (Qabs a) (Qabs_cases a)
  | _ : context [Qmax ?a ?b] |- _ => q_case_on (Qmax a b) (Q.max_spec a b)
  | _ : context [Qmin ?a ?b] |- _ => q_case_on (Qmin a b) (Q.min_spec a b)
  | _ : context [Qabs ?a] |- _ => q_case_on (Qabs a) (Qabs_cases a)
  end;
  lra.

Section CropperFacts.
Import ImageCropper.

Lemma js_gt_true a b : js_gt a b = true <-> b < a.
Proof.
  unfold js_gt. rewrite negb_true_iff, <- not_true_iff_false, Qle_bool_iff.
  split; intros H; lra.
Qed.

Lemma js_ge_true a b : js_ge a b = true <-> b <= a.
Proof. unfold js_ge. apply Qle_bool_iff. Qed.

Lemma js_lt_true a b : js_lt a b = true <-> a < b.
Proof.
  unfold js_lt. rewrite negb_true_iff, <- not_true_iff_false, Qle_bool_iff.
  split; intros H; lra.
Qed.

(** Move and resize keep a valid snapshot valid, wherever the pointer is. *)
Lemma modifiedCrop_valid m init dx dy :
  valid_region init -> valid_region (modifiedCrop m init dx dy).
Proof.
  unfold valid_region. intros (Hx & Hy & Hw & Hh & Hw1 & Hh1).
  destruct m; cbn; repeat split; try assumption; q_cases.
Qed.

(** A move keeps the size of the snapshot. *)
Lemma modifiedCrop_move_size init dx dy :
  CropRegion.width (modifiedCrop move init dx dy) = CropRegion.width init /\
  CropRegion.height (modifiedCrop move init dx dy) = CropRegion.height init.
Proof. split; reflexivity. Qed.

(** Resizing keeps the corner opposite the dragged handle. *)
Lemma modifiedCrop_opposite_corner h init dx dy :
  same_point (opposite_corner h (modifiedCrop (handle_mode h) init dx dy))
             (opposite_corner h init).
Proof. destruct h; split; cbn; q_cases. Qed.

Lemma modifiedCrop_id m init dx dy :
  CropRegion.id (modifiedCrop m init dx dy) = CropRegion.id init.
Proof. destruct m; reflexivity. Qed.

Lemma modifiedCrop_isLocked m init dx dy :
  CropRegion.isLocked (modifiedCrop m init dx dy) = CropRegion.isLocked init.
Proof. destruct m; reflexivity. Qed.

End CropperFacts.

Section CropperGestures.
Import ImageCropper.

Lemma mode_eqb_handle_create h : mode_eqb (handle_mode h) create = false.
Proof. destruct h; reflexivity. Qed.

(** While a resize is in progress, pointer-moves change the optimistic crop
    only, and every value it takes keeps the opposite corner of the
    snapshot. *)
Lemma resize_moves_invariant h crop sx sy positions :
  forall s c,
    interaction s = Some (mkInteraction (handle_mode h) sx sy (Some crop) (Some (CropRegion.id crop))) ->
    optimisticCrop s = Some c ->
    same_point (opposite_corner h c) (opposite_corner h crop) ->
    exists c',
      run s (pointer_moves positions) = setOptimisticCrop (Some c') s /\
      same_point (opposite_corner h c') (opposite_corner h crop).
Proof.
  induction positions as [| [cx cy] positions IH]; intros s c Hi Ho Hc.
  - exists c. split; [| exact Hc]. cbn. destruct s; cbn in *. now subst.
  - cbn [pointer_moves map run fold_left step fst snd].
    unfold handleWindowMouseMove at 1. rewrite Hi. cbn [mode initialCrop activeId startX startY].
    rewrite mode_eqb_handle_create.
    destruct (negb (truthy (Some (CropRegion.id crop)))).
    + apply (IH s c Hi Ho Hc).
    + match goal with |- context [setOptimisticCrop (Some ?n) s] => set (new := n) end.
      destruct (IH (setOptimisticCrop (Some new) s) new) as (c' & Hrun & Hc').
      * exact Hi.
      * reflexivity.
      * apply modifiedCrop_opposite_corner.
      * exists c'. split; [| exact Hc'].
        unfold run, pointer_moves in *. rewrite Hrun. reflexivity.
Qed.

(** C7. In a resize gesture started on any of the four corner handles, the
    optimistic rectangle after any sequence of pointer-moves has the corner
    diagonally opposite the dragged handle where the snapshot taken at
    pointer-down has it, for all pointer positions; pointer-up then commits
    that very rectangle under the region's id. *)
Theorem resize_keeps_opposite_corner
    (s : State) (crop : CropRegion.t) (h : Handle) (clientX clientY : Q)
    (positions : list (Q * Q)) (upX upY : Q) (uuid : string) :
  sized s ->
  let s1 := handleResizeMouseDown crop (handle_mode h) clientX clientY s in
  let s2 := run s1 (pointer_moves positions) in
  exists c',
    optimisticCrop s2 = Some c' /\
    same_point (opposite_corner h c') (opposite_corner h crop) /\
    ImageLayer.crops (layer (handleWindowMouseUp upX upY uuid s2)) =
      if truthy (Some (CropRegion.id crop))
      then replaceCrop (CropRegion.id crop) c' (ImageLayer.crops (layer s))
      else ImageLayer.crops (layer s).
Proof.
  intros _ s1 s2.
  destruct (resize_moves_invariant h crop (px (getClientPos s clientX clientY))
              (py (getClientPos s clientX clientY)) positions s1 crop)
    as (c' & Hrun & Hc').
  - reflexivity.
  - reflexivity.
  - split; reflexivity.
  - exists c'. subst s2. rewrite Hrun. split; [reflexivity |]. split; [exact Hc' |].
    unfold handleWindowMouseUp. cbn.
    rewrite mode_eqb_handle_create.
    destruct (negb (CropRegion.id crop =? ""))%string; reflexivity.
Qed.

Lemma resize_keeps_opposite_corner_witness :
  sized blank_cropper /\
  exists c',
    optimisticCrop
      (run (handleResizeMouseDown (CropRegion.mk "r" 10 20 30 40 false None false)
              (handle_mode NW) 40 60 blank_cropper)
           (pointer_moves [(100, 90); (-500, 3000)])) = Some c' /\
    same_point (opposite_corner NW c') (40, 60).
Proof.
  assert (Hs : sized blank_cropper) by (cbn; split; reflexivity).
  split; [exact Hs |].
  destruct (resize_keeps_opposite_corner blank_cropper
              (CropRegion.mk "r" 10 20 30 40 false None false) NW 40 60
              [(100, 90); (-500, 3000)] 0 0 "u" Hs) as (c' & Ho & Hc & _).
  exists c'. split; [exact Ho |].
  destruct Hc as [Hx Hy]. split; cbn in *; [rewrite Hx | rewrite Hy]; reflexivity.
Defined.

Lemma idle_ignores_moves_and_ups es :
  forall s, interaction s = None -> Forall move_or_up es -> run s es = s.
Proof.
  induction es as [| e es IH]; intros s Hi Hes; [reflexivity |].
  inversion Hes as [| ? ? He Hes']; subst.
  assert (Hstep : step s e = s).
  { destruct e; cbn in He; try contradiction; cbn.
    - unfold handleWindowMouseMove. now rewrite Hi.
    - unfold handleWindowMouseUp. now rewrite Hi. }
  cbn [run fold_left]. rewrite Hstep. apply (IH s Hi Hes').
Qed.

(** C8. A pointer-down on the body of a locked region only makes it the
    active region: no interaction is established, so from an idle machine no
    later pointer-move or pointer-up changes anything; and Delete or
    Backspace pressed while a locked region is the active one leaves the
    state, hence the owner's region list, unchanged. *)
Theorem locked_region_is_inert (s : State) (crop : CropRegion.t) :
  CropRegion.isLocked crop = true ->
  (forall clientX clientY,
     handleCropMouseDown crop clientX clientY s = setActiveCropId (Some (CropRegion.id crop)) s) /\
  (forall clientX clientY es,
     interaction s = None -> Forall move_or_up es ->
     run (handleCropMouseDown crop clientX clientY s) es
       = setActiveCropId (Some (CropRegion.id crop)) s) /\
  (forall key, active_region s = Some crop -> handleKeyDown key s = s).
Proof.
  intros Hlocked.
  assert (Hdown : forall cx cy,
             handleCropMouseDown crop cx cy s = setActiveCropId (Some (CropRegion.id crop)) s).
  { intros cx cy. unfold handleCropMouseDown. now rewrite Hlocked. }
  split; [exact Hdown |]. split.
  - intros cx cy es Hi Hes. rewrite Hdown.
    apply idle_ignores_moves_and_ups; [exact Hi | exact Hes].
  - intros key Hactive. unfold handleKeyDown.
    destruct ((key =? "Delete")%string || (key =? "Backspace")%string); [| reflexivity].
    unfold active_region in Hactive.
    destruct (activeCropId s) as [active |]; [| discriminate].
    cbn [andb]. destruct (truthy (Some active)); [| reflexivity].
    rewrite Hactive, Hlocked. reflexivity.
Qed.

Lemma locked_region_is_inert_witness :
  let locked := CropRegion.mk "r1" 10 10 50 50 true None false in
  let s := setActiveCropId (Some "r1")
             (onUpdateLayer (ImageLayer.set_crops [locked] (layer blank_cropper)) blank_cropper) in
  CropRegion.isLocked locked = true /\
  ImageLayer.crops (layer (run (handleCropMouseDown locked 40 40 s)
                               [MouseMove 300 200; MouseUp 300 200 "u"])) = [locked] /\
  ImageLayer.crops (layer (handleKeyDown "Delete" s)) = [locked].
Proof.
  intros locked s.
  destruct (locked_region_is_inert s locked eq_refl) as (_ & Hrun & Hkey).
  split; [reflexivity |]. split.
  - rewrite (Hrun 40 40 [MouseMove 300 200; MouseUp 300 200 "u"] eq_refl).
    + reflexivity.
    + repeat constructor.
  - rewrite (Hkey "Delete" eq_refl). reflexivity.
Defined.

(** C1, on the code.  A create gesture is committed without clamping: in a
    400 x 300 container, pressing at (200,150) and releasing at (600,450),
    outside the container, commits the region x = y = 50, width = height =
    100, whose right and bottom edges are at 150. *)
Theorem create_commits_out_of_bounds :
  exists c,
    ImageLayer.crops
      (layer (run blank_cropper
                [MouseDownCanvas 200 150; MouseMove 600 450; MouseUp 600 450 "region-1"]))
      = [c] /\
    CropRegion.x c + CropRegion.width c == 150 /\
    CropRegion.y c + CropRegion.height c == 150 /\
    ~ valid_region c.
Proof.
  eexists. split; [vm_compute; reflexivity |].
  split; [reflexivity |]. split; [reflexivity |].
  unfold valid_region. cbn. intros (_ & _ & H & _). vm_compute in H. apply H. reflexivity.
Qed.

Lemma getClientPos_container s s' cx cy :
  containerRef s = containerRef s' -> getClientPos s cx cy = getClientPos s' cx cy.
Proof. unfold getClientPos. now intros ->. Qed.

Lemma displayedCrops_untouched locked s crop :
  holds_untouched locked s -> In crop (displayedCrops s) ->
  CropRegion.id crop = CropRegion.id locked -> crop = locked.
Proof.
  intros (_ & Hone & Ho & _) Hin Hid. unfold displayedCrops in Hin.
  apply in_map_iff in Hin as (c & Heq & Hin).
  destruct (optimisticCrop s) as [o |]; [| subst; now apply Hone].
  destruct (String.eqb _ _); [| subst; now apply Hone].
  subst. now destruct (Ho crop eq_refl).
Qed.

Lemma step_holds_untouched locked s e :
  CropRegion.isLocked locked = true -> never_draws (CropRegion.id locked) e ->
  holds_untouched locked s -> holds_untouched locked (step s e).
Proof.
  intros Hlocked He Hs. pose proof Hs as (Hin & Hone & Ho & Hi).
  destruct e; cbn [step].
  - (* pointer-down on the canvas *)
    split; [exact Hin |]. split; [exact Hone |]. split; [exact Ho |].
    intros it [= <-]. cbn. split; intros ? [=].
  - (* pointer-down on a region *)
    destruct (displayedCrops s !! i) as [crop |] eqn:Hlook; [| exact Hs].
    unfold handleCropMouseDown. destruct (CropRegion.isLocked crop) eqn:Hcrop; [exact Hs |].
    assert (Hne : CropRegion.id crop <> CropRegion.id locked).
    { intros Hid. apply (displayedCrops_untouched locked s crop Hs) in Hid; [congruence |].
      apply list_elem_of_In, list_elem_of_lookup. eauto. }
    split; [exact Hin |]. split; [exact Hone |]. split.
    + now intros o [= <-].
    + intros it [= <-]. cbn. split; now intros ? [= <-].
  - (* pointer-down on a handle *)
    destruct (displayedCrops s !! i) as [crop |] eqn:Hlook; [| exact Hs].
    destruct (_ && negb (CropRegion.isLocked crop)) eqn:Hguard; [| exact Hs].
    apply andb_true_iff in Hguard as [_ Hcrop]. apply negb_true_iff in Hcrop.
    assert (Hne : CropRegion.id crop <> CropRegion.id locked).
    { intros Hid. apply (displayedCrops_untouched locked s crop Hs) in Hid; [congruence |].
      apply list_elem_of_In, list_elem_of_lookup. eauto. }
    split; [exact Hin |]. split; [exact Hone |]. split.
    + now intros o [= <-].
    + intros it [= <-]. cbn. split; now intros ? [= <-].
  - (* pointer-move *)
    unfold handleWindowMouseMove.
    destruct (interaction s) as [it |] eqn:Hit; [| exact Hs].
    destruct (mode_eqb (mode it) create).
    + split; [exact Hin |]. split; [exact Hone |]. split; [exact Ho |]. cbn. now rewrite Hit.
    + destruct (initialCrop it) as [init |] eqn:Hinit; [| exact Hs].
      destruct (negb _); [exact Hs |].
      split; [exact Hin |]. split; [exact Hone |]. split.
      * intros o [= <-]. rewrite modifiedCrop_id.
        destruct (Hi it eq_refl) as [Hsnapshot _]. now apply Hsnapshot.
      * cbn. now rewrite Hit.
  - (* pointer-up *)
    unfold handleWindowMouseUp.
    destruct (interaction s) as [it |] eqn:Hit; [| exact Hs].
    assert (Hdone : forall s1,
              In locked (ImageLayer.crops (layer s1)) ->
              (forall c, In c (ImageLayer.crops (layer s1)) ->
                         CropRegion.id c = CropRegion.id locked -> c = locked) ->
              holds_untouched locked
                (setOptimisticCrop None (setTempSelection None (setInteraction None s1)))).
    { intros s1 H1 H2. split; [exact H1 |]. split; [exact H2 |]. split; intros ? [=]. }
    destruct (mode_eqb (mode it) create).
    + destruct (_ && _); [| now apply Hdone].
      apply Hdone; cbn.
      * apply in_or_app. now left.
      * intros c Hc Hid. apply in_app_or in Hc as [Hc | [<- | []]]; [now apply Hone |].
        cbn in Hid, He. congruence.
    + destruct (optimisticCrop s) as [o |] eqn:Hopt; [| now apply Hdone].
      destruct (activeId it) as [aid |] eqn:Haid; [| now apply Hdone].
      destruct (truthy (Some aid)); [| now apply Hdone].
      assert (Haid' : aid <> CropRegion.id locked).
      { destruct (Hi it eq_refl) as [_ Hactive]. now apply Hactive. }
      apply Hdone; cbn; unfold replaceCrop.
      * apply in_map_iff. exists locked. split; [| exact Hin].
        destruct (String.eqb_spec (CropRegion.id locked) aid); [congruence | reflexivity].
      * intros c Hc Hid. apply in_map_iff in Hc as (c0 & Hc0 & Hin0).
        destruct (String.eqb _ _); subst; [now destruct (Ho c eq_refl) | now apply Hone].
  - (* key *)
    unfold handleKeyDown. destruct (_ && _); [| exact Hs].
    destruct (activeCropId s) as [active |]; [| exact Hs].
    destruct (find _ _) as [crop |] eqn:Hfind; [| exact Hs].
    destruct (negb (CropRegion.isLocked crop)) eqn:Hcrop; [| exact Hs].
    apply negb_true_iff in Hcrop. apply find_some in Hfind as [Hcin Hcid].
    apply String.eqb_eq in Hcid.
    assert (Hne : CropRegion.id locked <> active).
    { intros Heq. rewrite <- Heq in Hcid. apply Hone in Hcid; [congruence | exact Hcin]. }
    assert (Hdel : holds_untouched locked
              (onUpdateLayer
                 (ImageLayer.set_crops
                    (List.filter (fun c => negb (CropRegion.id c =? active)%string)
                       (ImageLayer.crops (layer s))) (layer s)) s)).
    { split; [| split; [| split; [exact Ho | exact Hi]]]; cbn.
      - apply filter_In. split; [exact Hin |]. now apply negb_true_iff, String.eqb_neq.
      - intros c Hc. apply filter_In in Hc as [Hc _]. now apply Hone. }
    unfold handleDeleteCrop. destruct (option_string_eqb _ _); exact Hdel.
Qed.

(** Over whole traces: a locked region that is the only one under its id
    stays in the region list as it is, rectangle and lock included, through
    every sequence of pointer and key events, provided no new region is
    given its id. *)
Lemma locked_region_survives es :
  forall locked s,
    CropRegion.isLocked locked = true -> holds_untouched locked s ->
    Forall (never_draws (CropRegion.id locked)) es ->
    holds_untouched locked (run s es).
Proof.
  induction es as [| e es IH]; intros locked s Hlocked Hs Hes; [exact Hs |].
  inversion Hes as [| ? ? He Hes']; subst. cbn [run fold_left].
  apply IH; [exact Hlocked | | exact Hes']. now apply step_holds_untouched.
Qed.

End CropperGestures.

(** * Proofs: the asset graph *)

Section StitchQueue.
Import App.

Lemma markStitched_flagged regionId crops :
  Forall2 (flagged regionId) crops (markStitched regionId crops).
Proof.
  induction crops as [| c crops IH]; cbn; constructor; [| exact IH].
  destruct (String.eqb_spec (CropRegion.id c) regionId); [left | right]; now split.
Qed.

Lemma markStitched_absent regionId crops :
  (forall c, In c crops -> CropRegion.id c <> regionId) -> markStitched regionId crops = crops.
Proof.
  intros H. unfold markStitched. rewrite <- (map_id crops) at 2.
  apply map_ext_in. intros c Hin.
  destruct (String.eqb_spec (CropRegion.id c) regionId) as [Heq |]; [| reflexivity].
  now destruct (H c Hin).
Qed.

Lemma found_has_layer s ownerId :
  existsb (fun l => String.eqb (ImageLayer.id l) ownerId) (layers s) = true <-> has_layer s ownerId.
Proof.
  rewrite existsb_exists. unfold has_layer.
  split; intros (l & Hin & H); exists l; (split; [exact Hin |]); now apply String.eqb_eq.
Qed.

Lemma find_has_group s ownerId :
  (exists g, List.find (fun g => String.eqb (AssetGroup.id g) ownerId) (groups s) = Some g)
  <-> has_group s ownerId.
Proof.
  unfold has_group. split.
  - intros (g & Hfind). apply find_some in Hfind as [Hin Heq].
    exists g. split; [exact Hin | now apply String.eqb_eq].
  - intros (g & Hin & Heq).
    destruct (List.find _ (groups s)) as [g0 |] eqn:Hfind; [now exists g0 |].
    apply (find_none _ _ Hfind) in Hin. apply String.eqb_neq in Hin. contradiction.
Qed.

(** C2, as the code has it.  When [ownerId] names a layer, or else a group,
    exactly one item for [(ownerId, regionId)] is appended to the queue and
    the regions of that owner named [regionId] are flagged, nothing else
    changing, whether or not such a region exists; when it names neither,
    the state is unchanged. *)
Theorem handleAddToStitch_by_owner (uuid ownerId regionId : string) (s : State) :
  let s' := handleAddToStitch uuid ownerId regionId s in
  (has_layer s ownerId ->
     stitchItems s' = stitchItems s ++ [StitchItem.mk uuid ownerId regionId] /\
     Forall2 (layer_flagged ownerId regionId) (layers s) (layers s') /\
     groups s' = groups s) /\
  (~ has_layer s ownerId -> has_group s ownerId ->
     stitchItems s' = stitchItems s ++ [StitchItem.mk uuid ownerId regionId] /\
     layers s' = layers s /\
     Forall2 (group_flagged ownerId regionId) (groups s) (groups s')) /\
  (~ has_layer s ownerId -> ~ has_group s ownerId -> s' = s) /\
  (~ resolves s ownerId regionId -> layers s' = layers s /\ groups s' = groups s).
Proof.
  intros s'. subst s'. unfold handleAddToStitch.
  destruct (existsb _ (layers s)) eqn:Hfound.
  - (* a layer *)
    apply found_has_layer in Hfound.
    assert (Hlayers : Forall2 (layer_flagged ownerId regionId) (layers s)
              (map (fun l => if negb (String.eqb (ImageLayer.id l) ownerId) then l
                    else ImageLayer.set_crops (markStitched regionId (ImageLayer.crops l)) l)
                 (layers s))).
    { induction (layers s) as [| l ls IH]; cbn; constructor; [| exact IH].
      destruct (String.eqb_spec (ImageLayer.id l) ownerId); cbn; [left | right];
        (split; [assumption |]); [| reflexivity].
      eexists. split; [apply markStitched_flagged | reflexivity]. }
    split; [intros _; cbn; auto |].
    split; [intros Hno; contradiction |].
    split; [intros Hno; contradiction |].
    intros Hres. cbn. split; [| reflexivity].
    rewrite <- (map_id (layers s)) at 2. apply map_ext_in. intros l Hin.
    destruct (String.eqb_spec (ImageLayer.id l) ownerId) as [Heq |]; [| reflexivity].
    cbn. rewrite markStitched_absent; [now destruct l |].
    intros c Hc Hid. apply Hres. left. exists l. split; [exact Hin |]. split; [exact Heq |].
    now exists c.
  - (* not a layer *)
    assert (Hno : ~ has_layer s ownerId).
    { intros H. apply found_has_layer in H. congruence. }
    split; [intros H; contradiction |].
    destruct (List.find _ (groups s)) as [g |] eqn:Hfind.
    + assert (Hg : has_group s ownerId) by (apply find_has_group; eauto).
      split; [| split; [intros _ H; contradiction |]].
      * intros _ _. cbn. split; [reflexivity |]. split; [reflexivity |].
        clear Hfind Hg. induction (groups s) as [| g0 gs IH]; cbn; constructor; [| exact IH].
        destruct (String.eqb_spec (AssetGroup.id g0) ownerId); cbn; [left | right];
          (split; [assumption |]); [| reflexivity].
        eexists. split; [apply markStitched_flagged | reflexivity].
      * intros Hres. cbn. split; [reflexivity |].
        rewrite <- (map_id (groups s)) at 2. apply map_ext_in. intros g0 Hin.
        destruct (String.eqb_spec (AssetGroup.id g0) ownerId) as [Heq |]; [| reflexivity].
        cbn. rewrite markStitched_absent; [now destruct g0 |].
        intros c Hc Hid. apply Hres. right. exists g0. split; [exact Hin |].
        split; [exact Heq |]. now exists c.
    + assert (Hg : ~ has_group s ownerId).
      { intros H. apply find_has_group in H as (g & H). congruence. }
      split; [intros _ H; contradiction |]. split; [reflexivity |]. intros _. now split.
Qed.

Lemma handleAddToStitch_by_owner_witness :
  has_layer one_layer_library "layer-1" /\
  stitchItems (handleAddToStitch "item-1" "layer-1" "region-1" one_layer_library)
    = [StitchItem.mk "item-1" "layer-1" "region-1"] /\
  (~ has_layer one_layer_library "group-9" /\ ~ has_group one_layer_library "group-9") /\
  handleAddToStitch "item-1" "group-9" "region-1" one_layer_library = one_layer_library.
Proof.
  assert (Hl : has_layer one_layer_library "layer-1").
  { eexists. split; [left; reflexivity | reflexivity]. }
  assert (Hnl : ~ has_layer one_layer_library "group-9").
  { intros (l & [<- | []] & H). discriminate. }
  assert (Hng : ~ has_group one_layer_library "group-9").
  { intros (g & [] & _). }
  destruct (handleAddToStitch_by_owner "item-1" "layer-1" "region-1" one_layer_library)
    as (Hlayer & _ & _ & _).
  destruct (handleAddToStitch_by_owner "item-1" "group-9" "region-1" one_layer_library)
    as (_ & _ & Hnone & _).
  split; [exact Hl |]. split; [exact (proj1 (Hlayer Hl)) |].
  split; [split; assumption |]. exact (Hnone Hnl Hng).
Defined.

(** Counterexample to C2 as stated: with an existing owner and a region id
    that names none of its regions, an item is queued all the same. *)
Lemma enqueue_unresolved_region_counterexample :
  ~ (forall uuid ownerId regionId s,
       ~ resolves s ownerId regionId ->
       stitchItems (handleAddToStitch uuid ownerId regionId s) = stitchItems s).
Proof.
  intros H.
  specialize (H "item-1" "layer-1" "no-such-region" one_layer_library).
  cbn in H. discriminate H.
  intros [(l & [<- | []] & _ & c & [<- | []] & Hc) | (g & [] & _)].
  discriminate Hc.
Qed.

End StitchQueue.

Section Grouping.
Import App.

Lemma selectedLayers_selected_ungrouped s : selectedLayers s = selected_ungrouped s.
Proof.
  unfold selectedLayers, selected_ungrouped.
  induction (layers s) as [| l ls IH]; [reflexivity |].
  cbn [List.filter]. rewrite filter_cons, IH.
  destruct (decide (ImageLayer.id l ∈ selectedLibraryIds s)) as [Hsel | Hsel].
  - rewrite (bool_decide_eq_true_2 _ Hsel). cbn [andb].
    unfold ungrouped. destruct (truthy (ImageLayer.groupId l)) eqn:Ht; cbn [negb].
    + rewrite decide_False; [reflexivity |]. intros [_ H]. congruence.
    + rewrite decide_True; [reflexivity | now split].
  - rewrite (bool_decide_eq_false_2 _ Hsel). cbn [andb].
    rewrite decide_False; [reflexivity |]. now intros [H _].
Qed.

Lemma includes_elem_of ids id : includes ids id = true <-> id ∈ ids.
Proof.
  unfold includes. rewrite existsb_exists, list_elem_of_In. split.
  - intros (x & Hin & Heq). apply String.eqb_eq in Heq. now subst.
  - intros Hin. exists id. split; [exact Hin | apply String.eqb_refl].
Qed.

(** With distinct layer ids, a layer is among [members] exactly when its id
    is among their ids. *)
Lemma member_by_id (ls members : list ImageLayer.t) l :
  NoDup (map ImageLayer.id ls) -> members ⊆ ls -> l ∈ ls ->
  ImageLayer.id l ∈ map ImageLayer.id members <-> l ∈ members.
Proof.
  intros Hnd Hsub Hl. split.
  - intros Hid. apply list_elem_of_fmap in Hid as (m & Heq & Hm).
    enough (l = m) by now subst.
    apply Hsub in Hm.
    apply list_elem_of_lookup in Hl as (i & Hi), Hm as (j & Hj).
    assert (Hi' : map ImageLayer.id ls !! i = Some (ImageLayer.id l))
      by now rewrite list_lookup_fmap, Hi.
    assert (Hj' : map ImageLayer.id ls !! j = Some (ImageLayer.id l))
      by now rewrite list_lookup_fmap, Hj, Heq.
    pose proof (NoDup_lookup _ _ _ _ Hnd Hi' Hj') as ->.
    congruence.
  - intros Hm. apply list_elem_of_fmap. now exists l.
Qed.

(** C9, as the code has it.  With fewer than two selected ungrouped layers
    the group operation leaves the state, layers and groups included, as it
    is.  With two or more it appends exactly one group, whose member list
    is the ids of those layers in library order: the order of the layer
    list, which [layers.filter] keeps, and not the order in which they
    were selected.  It sets the [groupId] of every layer that carries one
    of these ids to the new group's id, and leaves every other layer and
    every existing group unchanged.  When the layer ids are distinct, the
    layers that carry one of these ids are the selected ungrouped layers
    themselves. *)
Theorem handleCreateGroup_groups_selection (uuid : string) (s : State) :
  let members := selected_ungrouped s in
  let memberIds := map ImageLayer.id members in
  let s' := handleCreateGroup uuid s in
  ((length members < 2)%nat -> s' = s) /\
  ((2 <= length members)%nat ->
     (exists g, groups s' = groups s ++ [g] /\
                AssetGroup.id g = uuid /\
                AssetGroup.layerIds g = memberIds) /\
     length (layers s') = length (layers s) /\
     forall i l, layers s !! i = Some l ->
       (ImageLayer.id l ∈ memberIds ->
        layers s' !! i = Some (ImageLayer.set_groupId (Some uuid) l)) /\
       (ImageLayer.id l ∉ memberIds -> layers s' !! i = Some l)) /\
  (NoDup (map ImageLayer.id (layers s)) ->
   forall l, l ∈ layers s -> ImageLayer.id l ∈ memberIds <-> l ∈ members).
Proof.
  intros members memberIds s'. subst members memberIds s'. unfold handleCreateGroup.
  rewrite selectedLayers_selected_ungrouped.
  set (members := selected_ungrouped s).
  split; [| split].
  - intros Hlt. destruct (Nat.ltb_spec (length members) 2) as [_ | Hge]; [reflexivity | lia].
  - intros Hge. destruct (Nat.ltb_spec (length members) 2) as [Hlt | _]; [lia |]. cbn.
    split; [eexists; split; [reflexivity | split; reflexivity] |].
    split; [apply length_map |].
    intros i l Hi. rewrite list_lookup_fmap, Hi. cbn.
    pose proof (includes_elem_of (map ImageLayer.id members) (ImageLayer.id l)) as Hiff.
    split; intros Hm.
    + now rewrite (proj2 Hiff Hm).
    + destruct (includes _ _); [| reflexivity]. exfalso. apply Hm, Hiff. reflexivity.
  - intros Hnd l Hl. apply (member_by_id (layers s)); [exact Hnd | | exact Hl].
    intros x Hx. apply (list_elem_of_filter _ _ _) in Hx. tauto.
Qed.

Lemma handleCreateGroup_groups_selection_witness :
  (2 <= length (selected_ungrouped three_layer_library))%nat /\
  exists g,
    groups (handleCreateGroup "group-1" three_layer_library) = [g] /\
    AssetGroup.layerIds g = ["layer-1"; "layer-3"].
Proof.
  assert (Hlen : (2 <= length (selected_ungrouped three_layer_library))%nat).
  { vm_compute. lia. }
  destruct (handleCreateGroup_groups_selection "group-1" three_layer_library)
    as (_ & Hgroup & _).
  destruct (Hgroup Hlen) as ((g & Hg & _ & Hids) & _).
  split; [exact Hlen |].
  exists g. split; [exact Hg |]. rewrite Hids. vm_compute. reflexivity.
Defined.

(** Counterexample to C9 as stated: in a library of three ungrouped layers
    the user selects "layer-3" and then "layer-1"; the selection holds
    exactly these two ids, both of ungrouped layers, and the group operation
    makes one group whose member list is "layer-1", "layer-3": the order of
    the library, not the order given. *)
Lemma handleCreateGroup_order_counterexample :
  let given := ["layer-3"; "layer-1"]%string in
  let s := selected_in_order given (setSelectedLibraryIds ∅ three_layer_library) in
  selectedLibraryIds s = list_to_set given /\
  map ImageLayer.id (selected_ungrouped s) ≡ₚ given /\
  exists g,
    groups (handleCreateGroup "group-1" s) = [g] /\
    AssetGroup.layerIds g = ["layer-1"; "layer-3"]%string /\
    AssetGroup.layerIds g <> given.
Proof.
  intros given s. split; [| split].
  - vm_compute. reflexivity.
  - assert (E : map ImageLayer.id (selected_ungrouped s) = ["layer-1"; "layer-3"]%string)
      by (vm_compute; reflexivity).
    rewrite E. apply Permutation_swap.
  - eexists. split; [vm_compute; reflexivity |]. cbn [AssetGroup.layerIds].
    split; [reflexivity | discriminate].
Qed.

End Grouping.

Section DeleteGroup.
Import App.

Lemma option_string_eqb_Some o a : option_string_eqb o (Some a) = true <-> o = Some a.
Proof.
  destruct o as [b |]; cbn; [| split; discriminate].
  rewrite String.eqb_eq. split; congruence.
Qed.

Lemma children_spec groups pId c :
  In c (List.filter (fun g => option_string_eqb (AssetGroup.parentGroupId g) (Some pId)) groups)
  <-> c ∈ groups /\ AssetGroup.parentGroupId c = Some pId.
Proof. now rewrite filter_In, option_string_eqb_Some, list_elem_of_In. Qed.

(** In a forest the recursion returns.  The ids of the groups on the path
    from the first call to the current one are distinct, so the path is no
    longer than the table. *)
Lemma getSubGroups_returns groups :
  forest groups ->
  forall fuel path pId,
    NoDup path ->
    (forall v, v ∈ path -> v ∈ map AssetGroup.id groups) ->
    (forall v, v ∈ path -> descendant groups v pId) ->
    (length groups + 1 <= fuel + length path)%nat ->
    is_Some (getSubGroups fuel groups pId).
Proof.
  intros Hforest. induction fuel as [| fuel IH]; intros path pId Hnd Hids Hpath Hfuel.
  - pose proof (submseteq_length _ _ (NoDup_submseteq _ _ Hnd Hids)) as Hlen.
    rewrite length_map in Hlen. cbn in Hfuel. lia.
  - cbn [getSubGroups].
    match goal with |- context [mapM ?f ?l] => destruct (mapM_is_Some_2 f l) as [subs ->] end;
      [| eauto].
    apply Forall_forall. intros c Hc.
    apply list_elem_of_In, children_spec in Hc as [Hin Hparent].
    apply (IH (AssetGroup.id c :: path)).
    + apply NoDup_cons. split; [| exact Hnd].
      intros Hseen. apply (Hforest c pId Hin Hparent). now apply Hpath.
    + intros v Hv. apply elem_of_cons in Hv as [-> | Hv]; [| now apply Hids].
      now apply list_elem_of_fmap_2.
    + intros v Hv. apply elem_of_cons in Hv as [-> | Hv]; [constructor |].
      apply (descendant_child groups v c pId Hin Hparent). now apply Hpath.
    + cbn [length]. lia.
Qed.

(** On a table with a cycle the recursion does not return, whatever depth
    it is allowed. *)
Lemma getSubGroups_cycle_never_returns fuel :
  getSubGroups fuel [self_parent_group] "group-1" = None.
Proof.
  induction fuel as [| fuel IH]; [reflexivity |].
  cbn [getSubGroups]. cbn [List.filter self_parent_group AssetGroup.parentGroupId option_string_eqb].
  rewrite String.eqb_refl. cbn [mapM AssetGroup.id]. simpl. now rewrite IH.
Qed.

Lemma getSubGroups_total groups fuel pId :
  forest groups -> (length groups < fuel)%nat ->
  is_Some (getSubGroups fuel groups pId).
Proof.
  intros Hforest Hfuel. apply (getSubGroups_returns groups Hforest fuel []).
  - constructor.
  - intros v Hv. inversion Hv.
  - intros v Hv. inversion Hv.
  - cbn [length]. lia.
Qed.

(** A table laid out parents first is a forest. *)
Lemma descendant_stands_after groups root gid :
  parents_precede groups -> descendant groups root gid ->
  forall i gi, groups !! i = Some gi -> AssetGroup.id gi = root ->
    gid = root \/
    exists j gj, groups !! j = Some gj /\ AssetGroup.id gj = gid /\ (i < j)%nat.
Proof.
  intros Hpp Hd. induction Hd as [| g p Hg Hparent _ IH]; intros i gi Hi Hroot; [now left |].
  right. apply list_elem_of_lookup in Hg as (j & Hj). exists j, g.
  split; [exact Hj |]. split; [reflexivity |].
  destruct (IH i gi Hi Hroot) as [-> | (k & gk & Hk & Hid & Hlt)].
  - apply (Hpp i j gi g Hi Hj). now rewrite Hparent, Hroot.
  - enough (k < j)%nat by lia. apply (Hpp k j gk g Hk Hj). now rewrite Hparent, Hid.
Qed.

Lemma parents_precede_forest groups : parents_precede groups -> forest groups.
Proof.
  intros Hpp g p Hg Hparent Hd.
  apply list_elem_of_lookup in Hg as (i & Hi).
  destruct (descendant_stands_after groups _ _ Hpp Hd i g Hi eq_refl)
    as [-> | (j & gj & Hj & Hid & Hlt)].
  - pose proof (Hpp i i g g Hi Hi Hparent). lia.
  - enough (j < i)%nat by lia. apply (Hpp j i gj g Hj Hi). now rewrite Hparent, Hid.
Qed.

Lemma descendant_trans groups a b c :
  descendant groups a b -> descendant groups b c -> descendant groups a c.
Proof.
  intros Hab Hbc. induction Hbc as [| g p Hg Hp _ IH]; [exact Hab |].
  now apply (descendant_child groups a g p).
Qed.

(** What the recursion collects is the subtree of its argument. *)
Lemma getSubGroups_sound groups fuel :
  forall pId ids, getSubGroups fuel groups pId = Some ids ->
  forall gid, In gid ids -> descendant groups pId gid.
Proof.
  induction fuel as [| fuel IH]; intros pId ids Hget gid Hin; [discriminate |].
  cbn [getSubGroups] in Hget.
  destruct (mapM _ _) as [subs |] eqn:Hsubs; [| discriminate].
  injection Hget as <-. destruct Hin as [<- | Hin]; [constructor |].
  apply in_concat in Hin as (sub & Hsub & Hin).
  apply mapM_Some_1 in Hsubs.
  apply list_elem_of_In, list_elem_of_lookup in Hsub as (i & Hi).
  destruct (Forall2_lookup_r _ _ _ _ _ Hsubs Hi) as (c & Hc & Hcall).
  assert (Hchild : c ∈ groups /\ AssetGroup.parentGroupId c = Some pId).
  { apply children_spec, list_elem_of_In, list_elem_of_lookup. eauto. }
  apply (descendant_trans groups pId (AssetGroup.id c)).
  - apply (descendant_child groups pId c pId); [tauto | tauto | constructor].
  - apply (IH _ _ Hcall _ Hin).
Qed.

Lemma getSubGroups_head groups fuel pId ids :
  getSubGroups fuel groups pId = Some ids -> In pId ids.
Proof.
  destruct fuel; [discriminate |]. cbn [getSubGroups].
  destruct (mapM _ _); [| discriminate]. intros [= <-]. now left.
Qed.

Lemma getSubGroups_closed groups fuel :
  forall pId ids, getSubGroups fuel groups pId = Some ids ->
  forall p g, In p ids -> g ∈ groups -> AssetGroup.parentGroupId g = Some p ->
    In (AssetGroup.id g) ids.
Proof.
  induction fuel as [| fuel IH]; intros pId ids Hget p g Hp Hg Hparent; [discriminate |].
  cbn [getSubGroups] in Hget.
  destruct (mapM _ _) as [subs |] eqn:Hsubs; [| discriminate].
  injection Hget as <-. apply mapM_Some_1 in Hsubs. right. apply in_concat.
  destruct Hp as [<- | Hp].
  - assert (Hchild : g ∈ List.filter
              (fun g => option_string_eqb (AssetGroup.parentGroupId g) (Some pId)) groups)
      by now apply list_elem_of_In, children_spec.
    apply list_elem_of_lookup in Hchild as (i & Hi).
    destruct (Forall2_lookup_l _ _ _ _ _ Hsubs Hi) as (sub & Hsub & Hcall).
    exists sub. split; [apply list_elem_of_In, list_elem_of_lookup; eauto |].
    apply (getSubGroups_head _ _ _ _ Hcall).
  - apply in_concat in Hp as (sub & Hsub & Hp). exists sub. split; [exact Hsub |].
    apply list_elem_of_In, list_elem_of_lookup in Hsub as (i & Hi).
    destruct (Forall2_lookup_r _ _ _ _ _ Hsubs Hi) as (c & Hc & Hcall).
    apply (IH _ _ Hcall p g Hp Hg Hparent).
Qed.

Lemma getSubGroups_spec groups fuel pId ids :
  getSubGroups fuel groups pId = Some ids ->
  forall gid, includes ids gid = true <-> descendant groups pId gid.
Proof.
  intros Hget gid. rewrite includes_elem_of, list_elem_of_In. split.
  - apply (getSubGroups_sound _ _ _ _ Hget).
  - intros Hd. induction Hd as [| g p Hg Hp _ IH].
    + apply (getSubGroups_head _ _ _ _ Hget).
    + apply (getSubGroups_closed _ _ _ _ Hget p g IH Hg Hp).
Qed.

Lemma collectLayerIds_spec ids groups lid :
  lid ∈ collectLayerIds ids groups <->
  exists g, g ∈ groups /\ includes ids (AssetGroup.id g) = true /\ lid ∈ AssetGroup.layerIds g.
Proof.
  unfold collectLayerIds.
  enough (H : forall acc : gset string,
            lid ∈ fold_left
                    (fun allLayerIds g =>
                       if includes ids (AssetGroup.id g)
                       then fold_left (fun acc lid => acc ∪ {[lid]}) (AssetGroup.layerIds g) allLayerIds
                       else allLayerIds) groups acc
            <-> lid ∈ acc \/
                exists g, g ∈ groups /\ includes ids (AssetGroup.id g) = true /\
                          lid ∈ AssetGroup.layerIds g).
  { rewrite H. split; [intros [Hin | Hex]; [set_solver | exact Hex] | now right]. }
  assert (Hadd : forall (l : list string) (acc : gset string),
             lid ∈ fold_left (fun acc lid => acc ∪ {[lid]}) l acc <-> lid ∈ acc \/ lid ∈ l).
  { induction l as [| x l IH]; intros acc; cbn.
    - split; [now left | intros [H | H]; [exact H | inversion H]].
    - rewrite IH, elem_of_union, elem_of_singleton, elem_of_cons. tauto. }
  induction groups as [| g gs IH]; intros acc; cbn [fold_left].
  - split; [now left | intros [H | (g & Hg & _)]; [exact H | inversion Hg]].
  - rewrite IH. destruct (includes ids (AssetGroup.id g)) eqn:Hinc.
    + rewrite Hadd. split.
      * intros [[H | H] | (g' & Hg' & H')]; [now left | right | right].
        -- exists g. split; [left | now split].
        -- exists g'. split; [now right | exact H'].
      * intros [H | (g' & Hg' & Hinc' & Hl)]; [now left; left |].
        apply elem_of_cons in Hg' as [-> | Hg']; [left; now right |].
        right. exists g'. now split.
    + split.
      * intros [H | (g' & Hg' & H')]; [now left | right].
        exists g'. split; [now right | exact H'].
      * intros [H | (g' & Hg' & Hinc' & Hl)]; [now left |].
        apply elem_of_cons in Hg' as [-> | Hg']; [congruence |].
        right. exists g'. now split.
Qed.

(** C4. On an asset graph as the data model has it (the groups form a
    forest, and a layer whose [groupId] names a group is among that group's
    members), deleting a group returns (with any recursion depth beyond the
    number of groups) and removes exactly the named group, its descendant
    groups and the layers listed as members of any of them; no remaining
    layer's [groupId] names a removed group; and an active selection inside
    the deleted subtree is cleared, any other is kept. *)
Theorem deleteGroup_removes_subtree (fuel : nat) (id : string) (s : State) :
  forest (groups s) -> members_consistent s -> (length (groups s) < fuel)%nat ->
  exists s',
    handleDeleteItem fuel id group s = Some s' /\
    (forall g, g ∈ groups s' <->
               g ∈ groups s /\ ~ descendant (groups s) id (AssetGroup.id g)) /\
    (forall l, l ∈ layers s' <->
               l ∈ layers s /\ ~ owned_by_subtree s id (ImageLayer.id l)) /\
    (forall l g, l ∈ layers s' -> g ∈ groups s ->
                 descendant (groups s) id (AssetGroup.id g) ->
                 ImageLayer.groupId l <> Some (AssetGroup.id g)) /\
    (forall a, activeAssetId s = Some a -> a <> "" ->
               descendant (groups s) id a \/ owned_by_subtree s id a ->
               activeAssetId s' = None) /\
    (forall a, activeAssetId s = Some a ->
               ~ (descendant (groups s) id a \/ owned_by_subtree s id a) ->
               activeAssetId s' = Some a).
Proof.
  intros Hforest Hcons Hfuel.
  destruct (getSubGroups_total (groups s) fuel id Hforest Hfuel) as [ids Hids].
  pose proof (getSubGroups_spec _ _ _ _ Hids) as Hspec.
  assert (Howned : forall lid, lid ∈ collectLayerIds ids (groups s) <-> owned_by_subtree s id lid).
  { intros lid. rewrite collectLayerIds_spec. unfold owned_by_subtree.
    split; intros (g & Hg & Hd & Hl); exists g; (split; [exact Hg |]);
      (split; [now apply Hspec | exact Hl]). }
  assert (Hkept : forall l, In l (List.filter
              (fun l => negb (bool_decide (ImageLayer.id l ∈ collectLayerIds ids (groups s))))
              (layers s)) <-> l ∈ layers s /\ ~ owned_by_subtree s id (ImageLayer.id l)).
  { intros l. rewrite filter_In, negb_true_iff, bool_decide_eq_false, Howned.
    now rewrite list_elem_of_In. }
  unfold handleDeleteItem. rewrite Hids.
  eexists. split; [reflexivity |].
  split; [| split; [| split; [| split]]].
  - intros g. destruct (activeAssetId s) as [a |]; [destruct (_ && _) |]; cbn;
      rewrite list_elem_of_In, filter_In, negb_true_iff, <- not_true_iff_false, Hspec;
      now rewrite list_elem_of_In.
  - intros l. destruct (activeAssetId s) as [a |]; [destruct (_ && _) |]; cbn;
      rewrite list_elem_of_In; apply Hkept.
  - intros l g Hl Hg Hd Hgid.
    assert (Hl' : l ∈ layers s /\ ~ owned_by_subtree s id (ImageLayer.id l)).
    { apply Hkept, list_elem_of_In.
      destruct (activeAssetId s) as [a |]; [destruct (_ && _) |]; exact Hl. }
    destruct Hl' as [Hin Hnot]. apply Hnot. exists g. split; [exact Hg |]. split; [exact Hd |].
    unfold members_consistent in Hcons. rewrite Forall_forall in Hcons.
    specialize (Hcons l Hin). rewrite Forall_forall in Hcons. now apply Hcons.
  - intros a Ha Hne Hin. rewrite Ha.
    assert (Ht : truthy (Some a) = true).
    { cbn. apply negb_true_iff, String.eqb_neq. exact Hne. }
    assert (Hb : includes ids a || bool_decide (a ∈ collectLayerIds ids (groups s)) = true).
    { apply orb_true_iff. destruct Hin as [Hd | Ho]; [left; now apply Hspec |].
      right. now apply bool_decide_eq_true, Howned. }
    rewrite Ht, Hb. reflexivity.
  - intros a Ha Hout. rewrite Ha.
    assert (Hb : includes ids a || bool_decide (a ∈ collectLayerIds ids (groups s)) = false).
    { apply orb_false_iff. split.
      - apply not_true_iff_false. intros H. apply Hout. left. now apply Hspec.
      - apply bool_decide_eq_false. intros H. apply Hout. right. now apply Howned. }
    rewrite Hb, andb_false_r. cbn. exact Ha.
Qed.

Lemma deleteGroup_removes_subtree_witness :
  forest (groups nested_library) /\
  members_consistent nested_library /\
  (length (groups nested_library) < 5)%nat /\
  exists s',
    handleDeleteItem 5 "group-1" group nested_library = Some s' /\
    map AssetGroup.id (groups s') = ["group-4"] /\
    map ImageLayer.id (layers s') = ["layer-5"; "layer-6"] /\
    activeAssetId s' = None.
Proof.
  assert (Hpp : forest (groups nested_library)).
  { apply parents_precede_forest. intros i j gi gj Hi Hj Hp.
    destruct i as [| [| [| [| i]]]]; destruct j as [| [| [| [| j]]]];
      cbn in Hi, Hj; simplify_eq; cbn in Hp; try discriminate Hp; lia. }
  assert (Hcons : members_consistent nested_library).
  { unfold members_consistent. apply (bool_decide_unpack _). vm_compute. exact I. }
  assert (Hlen : (length (groups nested_library) < 5)%nat) by (cbn; lia).
  split; [exact Hpp |]. split; [exact Hcons |]. split; [exact Hlen |].
  destruct (deleteGroup_removes_subtree 5 "group-1" nested_library Hpp Hcons Hlen)
    as (s' & Hs' & _).
  exists s'. split; [exact Hs' |].
  vm_compute in Hs'. injection Hs' as <-. repeat split.
Defined.

End DeleteGroup.

(** * Proofs: reordering *)

Section Reordering.
Context {A : Type}.
Implicit Types (l : list A) (a : list (option A)).

Lemma arr_get_typed l (i : nat) : arr_get (Some <$> l) (Z.of_nat i) = l !! i.
Proof.
  unfold arr_get. destruct (Z.ltb_spec (Z.of_nat i) 0) as [H | _]; [lia |].
  rewrite Nat2Z.id, list_lookup_fmap. now destruct (l !! i).
Qed.

Lemma arr_set_typed l (i : nat) x :
  (i < length l)%nat -> arr_set (Some <$> l) (Z.of_nat i) (Some x) = Some <$> <[i := x]> l.
Proof.
  intros Hi. unfold arr_set. rewrite length_fmap.
  destruct (Z.ltb_spec (Z.of_nat i) 0) as [H | _]; [lia |].
  destruct (Z.ltb_spec (Z.of_nat i) (Z.of_nat (length l))) as [_ | H]; [| lia].
  now rewrite Nat2Z.id, list_fmap_insert.
Qed.

(** Exchanging two neighbours rearranges the list. *)
Lemma swap_neighbours l k x y :
  l !! k = Some x -> l !! S k = Some y ->
  <[S k := x]> (<[k := y]> l) ≡ₚ l /\ <[k := y]> (<[S k := x]> l) ≡ₚ l.
Proof.
  revert k. induction l as [| z l IH]; intros k Hx Hy; [discriminate |].
  destruct k as [| k].
  - destruct l as [| z' l]; [discriminate |]. cbn in Hx, Hy. simplify_eq.
    cbn. split; apply Permutation_swap.
  - cbn in Hx, Hy. destruct (IH k Hx Hy) as [H1 H2]. cbn. now rewrite H1, H2.
Qed.

Lemma handleMoveItem_typed l (index : Z) direction :
  (0 <= index < Z.of_nat (length l))%Z ->
  exists l', StitchView.handleMoveItem index direction (Some <$> l) = Some <$> l' /\ l' ≡ₚ l.
Proof.
  intros Hindex. unfold StitchView.handleMoveItem. rewrite length_fmap.
  set (target := match direction with
                 | StitchView.left => (index - 1)%Z | StitchView.right => (index + 1)%Z end).
  destruct (Z.ltb_spec target 0) as [Hneg | Hpos]; [now exists l |].
  destruct (Z.geb_spec target (Z.of_nat (length l))) as [Hbig | Hsmall]; [now exists l |].
  cbn [orb].
  destruct (lookup_lt_is_Some_2 l (Z.to_nat index)) as [x Hx]; [lia |].
  destruct (lookup_lt_is_Some_2 l (Z.to_nat target)) as [y Hy]; [lia |].
  rewrite <- (Z2Nat.id index), <- (Z2Nat.id target) by lia.
  rewrite !arr_get_typed, Hx, Hy.
  rewrite arr_set_typed by lia. rewrite arr_set_typed by (rewrite length_insert; lia).
  eexists. split; [reflexivity |].
  destruct direction; subst target.
  - replace (Z.to_nat index) with (S (Z.to_nat (index - 1))) in * by lia.
    apply (swap_neighbours l _ y x Hy Hx).
  - replace (Z.to_nat (index + 1)) with (S (Z.to_nat index)) in * by lia.
    apply (swap_neighbours l _ x y Hx Hy).
Qed.

Lemma handleMoveItem_at_the_ends a :
  StitchView.handleMoveItem 0 StitchView.left a = a /\
  StitchView.handleMoveItem (Z.of_nat (length a) - 1) StitchView.right a = a.
Proof.
  unfold StitchView.handleMoveItem. split; [reflexivity |].
  destruct (Z.ltb_spec (Z.of_nat (length a) - 1 + 1) 0); [reflexivity |].
  destruct (Z.geb_spec (Z.of_nat (length a) - 1 + 1) (Z.of_nat (length a))); [reflexivity | lia].
Qed.

(** [a.splice(i, 1)] on an element of the array. *)
Lemma splice_remove a (i : nat) v :
  a !! i = Some v -> splice a (Z.of_nat i) 1 [] = (delete i a, [v]).
Proof.
  intros Hi. pose proof (lookup_lt_Some _ _ _ Hi) as Hlt.
  unfold splice, splice_start.
  destruct (Z.ltb_spec (Z.of_nat i) 0) as [H | _]; [lia |].
  replace (Z.to_nat (Z.min (Z.of_nat i) (Z.of_nat (length a)))) with i by lia.
  replace (Z.to_nat (Z.min (Z.max 1 0) (Z.of_nat (length a - i)))) with 1%nat by lia.
  f_equal.
  - rewrite delete_take_drop. cbn. now replace (i + 1)%nat with (S i) by lia.
  - rewrite (drop_S _ _ _ Hi). reflexivity.
Qed.

(** [a.splice(to, 0, v)] puts [v] somewhere in the array. *)
Lemma splice_insert a (to : Z) v :
  exists k, fst (splice a to 0 [v]) = take k a ++ v :: drop k a.
Proof.
  unfold splice. exists (splice_start (length a) to). cbn [fst].
  replace (Z.to_nat (Z.min (Z.max 0 0) _)) with 0%nat by lia.
  now rewrite Nat.add_0_r.
Qed.

Lemma handleReorder_typed l (from to : Z) :
  (0 <= from < Z.of_nat (length l))%Z ->
  exists l', StitchView.handleReorder from to (Some <$> l) = Some <$> l' /\ l' ≡ₚ l.
Proof.
  intros Hfrom. unfold StitchView.handleReorder.
  set (n := Z.to_nat from). assert (Hn : from = Z.of_nat n) by lia. clearbody n. subst from.
  destruct (lookup_lt_is_Some_2 l n) as [x Hx]; [lia |].
  rewrite (splice_remove _ _ (Some x)) by now rewrite list_lookup_fmap, Hx.
  change (arr_get [Some x] 0) with (Some x).
  destruct (splice_insert (delete n (Some <$> l)) to (Some x)) as (k & ->).
  exists (take k (delete n l) ++ x :: drop k (delete n l)). split.
  - now rewrite fmap_app, fmap_cons, fmap_take, fmap_drop, list_fmap_delete.
  - rewrite <- Permutation_middle, take_drop. symmetry. now apply delete_Permutation.
Qed.

End Reordering.

Section ReorderingHandlers.
Import App.

Lemma typed_Some {A} (l : list A) : typed (Some <$> l) = Some l.
Proof. unfold typed. now apply mapM_fmap_Some. Qed.

Lemma handleReorderGroup_permutes groupId (fromIndex toIndex : Z) (s : State) :
  (forall g, g ∈ groups s -> AssetGroup.id g = groupId ->
             (0 <= fromIndex < Z.of_nat (length (AssetGroup.layerIds g)))%Z) ->
  exists s',
    handleReorderGroup groupId fromIndex toIndex s = Some s' /\
    Forall2 (members_permuted groupId) (groups s) (groups s') /\
    layers s' = layers s.
Proof.
  intros Hvalid. unfold handleReorderGroup.
  match goal with |- context [mapM ?f (groups s)] => set (update := f) end.
  enough (H : exists gs, Forall2 (fun g g' => update g = Some g') (groups s) gs /\
                         Forall2 (members_permuted groupId) (groups s) gs).
  { destruct H as (gs & Hmap & Hperm). apply mapM_Some_2 in Hmap. rewrite Hmap.
    eexists. split; [reflexivity |]. now split. }
  induction (groups s) as [| g gs IH].
  - exists []. split; constructor.
  - destruct IH as (gs' & Hmap & Hperm).
    { intros g' Hg'. apply Hvalid. now right. }
    assert (Hg : exists g', update g = Some g' /\ members_permuted groupId g g').
    { subst update. cbn beta. destruct (String.eqb_spec (AssetGroup.id g) groupId) as [Heq | Hne]; cbn [negb].
      - destruct (handleReorder_typed (AssetGroup.layerIds g) fromIndex toIndex)
          as (ids' & Hids & Hp); [apply Hvalid; [now left | exact Heq] |].
        unfold reorderedIds. fold (StitchView.handleReorder fromIndex toIndex (Some <$> AssetGroup.layerIds g)).
        rewrite Hids, typed_Some. eexists. split; [reflexivity |].
        left. split; [exact Heq |]. now exists ids'.
      - exists g. split; [reflexivity |]. right. now split. }
    destruct Hg as (g' & Hg' & Hpg). exists (g' :: gs'). split; now constructor.
Qed.

(** C10. Each reorder operation, applied at a position of the list, yields a
    rearrangement of its input (a permutation: the same items, each as often
    as before, hence the same length): the adjacent swap and the splice
    based move of the stitch queue, and the move of a group's member list,
    which leaves every other group and the layers alone.  The adjacent swap
    towards the left at index 0, or towards the right at the last index,
    returns the queue as it is. *)
Theorem reorders_are_permutations :
  (forall (items : list StitchItem.t) index direction,
     (0 <= index < Z.of_nat (length items))%Z ->
     exists items',
       StitchView.handleMoveItem index direction (Some <$> items) = Some <$> items' /\
       items' ≡ₚ items /\ length items' = length items) /\
  (forall (queue : list (option StitchItem.t)),
     StitchView.handleMoveItem 0 StitchView.left queue = queue /\
     StitchView.handleMoveItem (Z.of_nat (length queue) - 1) StitchView.right queue = queue) /\
  (forall (items : list StitchItem.t) from to,
     (0 <= from < Z.of_nat (length items))%Z ->
     exists items',
       StitchView.handleReorder from to (Some <$> items) = Some <$> items' /\
       items' ≡ₚ items /\ length items' = length items) /\
  (forall groupId fromIndex toIndex s,
     (forall g, g ∈ groups s -> AssetGroup.id g = groupId ->
                (0 <= fromIndex < Z.of_nat (length (AssetGroup.layerIds g)))%Z) ->
     exists s',
       handleReorderGroup groupId fromIndex toIndex s = Some s' /\
       Forall2 (members_permuted groupId) (groups s) (groups s') /\
       layers s' = layers s).
Proof.
  split; [| split; [| split]].
  - intros items index direction Hindex.
    destruct (handleMoveItem_typed items index direction Hindex) as (items' & Heq & Hp).
    exists items'. split; [exact Heq |]. split; [exact Hp | now apply Permutation_length].
  - intros queue. apply handleMoveItem_at_the_ends.
  - intros items from to Hfrom.
    destruct (handleReorder_typed items from to Hfrom) as (items' & Heq & Hp).
    exists items'. split; [exact Heq |]. split; [exact Hp | now apply Permutation_length].
  - intros groupId fromIndex toIndex s. apply handleReorderGroup_permutes.
Qed.

Lemma reorders_are_permutations_witness :
  (0 <= 0 < Z.of_nat (length three_item_queue))%Z /\
  (exists items',
     StitchView.handleMoveItem 0 StitchView.right (Some <$> three_item_queue) = Some <$> items' /\
     items' ≡ₚ three_item_queue) /\
  (exists items',
     StitchView.handleReorder 0 2 (Some <$> three_item_queue) = Some <$> items' /\
     items' ≡ₚ three_item_queue) /\
  (exists s',
     handleReorderGroup "group-1" 0 1 nested_library = Some s' /\
     Forall2 (members_permuted "group-1") (groups nested_library) (groups s')).
Proof.
  destruct reorders_are_permutations as (Hswap & _ & Hmove & Hgroup).
  assert (Hidx : (0 <= 0 < Z.of_nat (length three_item_queue))%Z) by (cbn; lia).
  split; [exact Hidx |]. split; [| split].
  - destruct (Hswap three_item_queue 0%Z StitchView.right Hidx) as (items' & Heq & Hp & _).
    now exists items'.
  - destruct (Hmove three_item_queue 0%Z 2%Z Hidx) as (items' & Heq & Hp & _).
    now exists items'.
  - destruct (Hgroup "group-1" 0%Z 1%Z nested_library) as (s' & Heq & Hp & _).
    + intros g Hg Hid. unfold nested_library in Hg. cbn in Hg.
      repeat (apply elem_of_cons in Hg as [-> | Hg]); try (inversion Hg);
        cbn in Hid |- *; try discriminate Hid; lia.
    + now exists s'.
Defined.

(** Off the list the splice based move is no rearrangement: nothing is
    removed, and [undefined] is inserted. *)
Lemma handleReorder_off_the_list :
  StitchView.handleReorder 5 0 (Some <$> three_item_queue)
  = None :: (Some <$> three_item_queue).
Proof. reflexivity. Qed.

(** Nor is the adjacent swap, started one position before the list. *)
Lemma handleMoveItem_off_the_list :
  StitchView.handleMoveItem (-1) StitchView.right (Some <$> three_item_queue)
  = None :: (Some <$> drop 1 three_item_queue).
Proof. reflexivity. Qed.

(** Counterexample to C10 as stated: moving the item at index 5 of a queue
    of three removes nothing and inserts [undefined] in front; the result is
    longer than the queue and no rearrangement of it.  The view gets there
    with a stale drag index: a drag is started on the last item and
    abandoned, the first item is removed, and the next drop moves from an
    index that is no longer on the queue. *)
Lemma reorder_off_the_list_counterexample :
  let queue := Some <$> three_item_queue in
  let moved := StitchView.handleReorder 5 0 queue in
  moved = None :: queue /\
  length moved <> length queue /\
  ~ moved ≡ₚ queue /\
  let dragging := StitchView.handleDragStart 2 (StitchView.mkDragState queue None None) in
  let shorter :=
    StitchView.mkDragState
      (StitchView.handleRemoveItem 0 (StitchView.stitchItems dragging))
      (StitchView.draggingIndex dragging) (StitchView.dropTargetIndex dragging) in
  StitchView.stitchItems (StitchView.handleDrop 0 shorter)
  = None :: (Some <$> drop 1 three_item_queue).
Proof.
  intros queue moved.
  assert (Hmoved : moved = None :: queue) by reflexivity.
  split; [exact Hmoved |]. split; [rewrite Hmoved; cbn; lia |].
  split; [| reflexivity].
  intros Hperm. apply Permutation_length in Hperm. rewrite Hmoved in Hperm. cbn in Hperm. lia.
Qed.

End ReorderingHandlers.

(** * Proofs: pixel composition *)

Section HorizontalStitch.
Import ImageUtils.






End HorizontalStitch.

Section JustifiedLayout.
Import ImageUtils.



(** The inner loop: what it pushes for a row. *)
Lemma layoutRow_loop st y h row :
  forall pushed x,
    exists items,
      fst (fold_left
             (fun '(pushed, x) item =>
                let width := h * aspectRatio item in
                (pushed ++ [mkLayoutItem (img item) x y width h], x + width + spacing st))
             row (pushed, x))
      = pushed ++ items /\
      map li_img items = map img row /\
      map li_width items = map (fun item => h * aspectRatio item) row /\
      Forall (fun it => li_height it = h /\ li_y it = y) items /\
      forall i it, items !! i = Some it ->
        li_x it == x + Qsum (map (fun w => w + spacing st) (map li_width (take i items))).
Proof.
  induction row as [| item row IH]; intros pushed x; cbn [fold_left].
  - exists []. rewrite app_nil_r. repeat split; try constructor. intros i it H. discriminate.
  - destruct (IH (pushed ++ [mkLayoutItem (img item) x y (h * aspectRatio item) h])
                 (x + h * aspectRatio item + spacing st))
      as (items & Heq & Himg & Hw & Hh & Hx).
    exists (mkLayoutItem (img item) x y (h * aspectRatio item) h :: items).
    split; [rewrite <- app_assoc in Heq; exact Heq |].
    split; [cbn; now rewrite Himg |]. split; [cbn; now rewrite Hw |].
    split; [constructor; [split; reflexivity | exact Hh] |].
    intros [| i] it Hi.
    + injection Hi as <-. cbn [li_x take map Qsum fold_right]. ring.
    + rewrite (Hx i it Hi). cbn [take map li_width Qsum fold_right]. unfold Qsum. ring.
Qed.


(** One step of the packing loop: the row stays open below the container
    width, and is closed once it is reached. *)
Lemma packImage_open st rows currentRow currentWidth image :
  currentWidth + scaledWidth (row_item st image)
    + (of_nat (length (currentRow ++ [row_item st image])) - 1) * spacing st
    < containerWidth st ->
  packImage st (rows, currentRow, currentWidth) image
  = (rows, currentRow ++ [row_item st image], currentWidth + scaledWidth (row_item st image)).
Proof.
  intros H. unfold packImage. cbn zeta. fold (row_item st image).
  destruct (js_ge _ _) eqn:Hge; [| reflexivity].
  apply js_ge_true in Hge. cbn [scaledWidth row_item] in H. lra.
Qed.

Lemma packImage_close st rows currentRow currentWidth image :
  containerWidth st
    <= currentWidth + scaledWidth (row_item st image)
       + (of_nat (length (currentRow ++ [row_item st image])) - 1) * spacing st ->
  packImage st (rows, currentRow, currentWidth) image
  = (rows ++ [currentRow ++ [row_item st image]], [], 0).
Proof.
  intros H. unfold packImage. cbn zeta. fold (row_item st image).
  destruct (js_ge _ _) eqn:Hge; [reflexivity |].
  apply not_true_iff_false in Hge. destruct Hge. apply js_ge_true.
  cbn [scaledWidth row_item] in H. exact H.
Qed.

(** C5. With [containerWidth = 1200], [targetRowHeight = 300] and
    [spacing = 12], three images of aspect ratios 2, 1 and 1.5 have the
    provisional widths 600, 300 and 450; the row stays open after the first
    two and is closed by the third, so all three are in one row; the row's
    aspect ratio is 4.5 and its available width 1152, the last-row exemption
    does not apply, and the row height is recomputed to 256. *)
Theorem justified_example_row_height (a b c : SmartStitchImage) (background : string) :
  ss_width a / ss_height a == 2 ->
  ss_width b / ss_height b == 1 ->
  ss_width c / ss_height c == 3 # 2 ->
  let st := mkSettings 1200 300 12 background in
  let row := [row_item st a; row_item st b; row_item st c] in
  fold_left (packImage st) [a; b] ([], [], 0)
    = ([], [row_item st a; row_item st b], 0 + scaledWidth (row_item st a) + scaledWidth (row_item st b)) /\
  fold_left (packImage st) [a; b; c] ([], [], 0) = ([row], [], 0) /\
  buildRows st [a; b; c] = [row] /\
  Forall2 (fun item w => scaledWidth item == w) row [600; 300; 450] /\
  rowAspectRatio row == 9 # 2 /\
  availableWidth st row == 1152 /\
  (6 # 10) * (1152 / 300) <= rowAspectRatio row /\
  keepsTargetHeight st true row = false /\
  rowHeight st true row == 256 /\
  exists canvas,
    generateSmartStitch [a; b; c] st = DataUrl canvas /\
    map li_img (sc_layout canvas) = [a; b; c] /\
    Forall (fun it => li_height it == 256) (sc_layout canvas).
Proof.
  intros Ha Hb Hc st row.
  assert (Hwa : scaledWidth (row_item st a) == 600) by (cbn; rewrite Ha; reflexivity).
  assert (Hwb : scaledWidth (row_item st b) == 300) by (cbn; rewrite Hb; reflexivity).
  assert (Hwc : scaledWidth (row_item st c) == 450) by (cbn; rewrite Hc; reflexivity).
  assert (Hopen : fold_left (packImage st) [a; b] ([], [], 0)
                  = ([], [row_item st a; row_item st b],
                     0 + scaledWidth (row_item st a) + scaledWidth (row_item st b))).
  { cbn [fold_left].
    rewrite packImage_open by (rewrite Hwa; reflexivity).
    rewrite packImage_open by (rewrite Hwa, Hwb; reflexivity).
    reflexivity. }
  assert (Hclose : fold_left (packImage st) [a; b; c] ([], [], 0) = ([row], [], 0)).
  { change [a; b; c] with ([a; b] ++ [c]). rewrite fold_left_app, Hopen. cbn [fold_left].
    rewrite packImage_close by (rewrite Hwa, Hwb, Hwc; discriminate).
    reflexivity. }
  assert (Hrows : buildRows st [a; b; c] = [row]).
  { unfold buildRows. rewrite Hclose. reflexivity. }
  assert (Haspect : rowAspectRatio row == 9 # 2).
  { unfold rowAspectRatio. cbn [fold_left row aspectRatio row_item]. rewrite Ha, Hb, Hc. reflexivity. }
  assert (Havailable : availableWidth st row == 1152) by reflexivity.
  assert (Hstretch : keepsTargetHeight st true row = false).
  { unfold keepsTargetHeight. cbn [andb length row Nat.ltb Nat.leb].
    apply not_true_iff_false. intros H. apply js_lt_true in H.
    rewrite Haspect, Havailable in H. revert H. apply Qle_not_lt. discriminate. }
  assert (Hheight : rowHeight st true row == 256).
  { unfold rowHeight. rewrite Hstretch, Haspect, Havailable. reflexivity. }
  split; [exact Hopen |]. split; [exact Hclose |]. split; [exact Hrows |].
  split; [repeat constructor; assumption |].
  split; [exact Haspect |]. split; [exact Havailable |].
  split; [rewrite Haspect; discriminate |].
  split; [exact Hstretch |]. split; [exact Hheight |].
  unfold generateSmartStitch. rewrite Hrows. cbn [length layoutRows Z.of_nat Z.eqb Z.sub Z.add Z.opp Z.pos_sub].
  destruct (layoutRow_loop st (spacing st) (rowHeight st true row) row [] (spacing st))
    as (items & Heq & Himg & _ & Hh & _).
  unfold layoutRow. destruct (fold_left _ row ([], spacing st)) as [pushed endX].
  cbn [fst app] in Heq. subst pushed.
  eexists. split; [reflexivity |]. cbn [sc_layout app]. split; [exact Himg |].
  eapply Forall_impl; [exact Hh |]. intros it [-> _]. exact Hheight.
Qed.

Lemma justified_example_row_height_witness :
  let a := mkSmartImage "a" "data:image/png;base64,AA" 1000 500 in
  let b := mkSmartImage "b" "data:image/png;base64,BB" 640 640 in
  let c := mkSmartImage "c" "data:image/png;base64,CC" 600 400 in
  ss_width a / ss_height a == 2 /\
  ss_width b / ss_height b == 1 /\
  ss_width c / ss_height c == 3 # 2 /\
  length (buildRows example_settings [a; b; c]) = 1%nat /\
  exists canvas,
    generateSmartStitch [a; b; c] example_settings = DataUrl canvas /\
    Forall (fun it => li_height it == 256) (sc_layout canvas).
Proof.
  intros a b c.
  assert (Ha : ss_width a / ss_height a == 2) by reflexivity.
  assert (Hb : ss_width b / ss_height b == 1) by reflexivity.
  assert (Hc : ss_width c / ss_height c == 3 # 2) by reflexivity.
  split; [exact Ha |]. split; [exact Hb |]. split; [exact Hc |].
  destruct (justified_example_row_height a b c "#ffffff" Ha Hb Hc)
    as (_ & _ & Hrows & _ & _ & _ & _ & _ & _ & canvas & Hcanvas & _ & Hheights).
  split; [unfold example_settings; now rewrite Hrows |].
  exists canvas. split; [exact Hcanvas | exact Hheights].
Defined.

End JustifiedLayout.

(** * Further properties: the region interaction machine *)

Section CropperTraces.
Import ImageCropper.

Lemma create_moves sx sy positions :
  forall s,
    interaction s = Some (mkInteraction create sx sy None None) ->
    exists t, run s (pointer_moves positions) = setTempSelection t s.
Proof.
  induction positions as [| [cx cy] positions IH]; intros s Hi.
  - exists (tempSelection s). destruct s; reflexivity.
  - cbn [pointer_moves map run fold_left step fst snd].
    unfold handleWindowMouseMove at 1. rewrite Hi. cbn [mode mode_eqb].
    match goal with |- context [setTempSelection (Some ?n) s] => set (new := n) end.
    destruct (IH (setTempSelection (Some new) s) Hi) as (t & Hrun).
    exists t. unfold run, pointer_moves in *. rewrite Hrun. reflexivity.
Qed.

Lemma last_cons_default {T} (l : list T) :
  forall a d d', List.last (a :: l) d = List.last (a :: l) d'.
Proof.
  induction l as [| b l IH]; intros a d d'; [reflexivity |].
  change (List.last (b :: l) d = List.last (b :: l) d'). apply IH.
Qed.

Lemma snapshot_moves m crop aid downX downY positions :
  mode_eqb m create = false -> truthy (Some aid) = true ->
  forall s0 s,
    containerRef s = containerRef s0 ->
    interaction s
    = Some (mkInteraction m (px (getClientPos s0 downX downY)) (py (getClientPos s0 downX downY))
                          (Some crop) (Some aid)) ->
    forall c, optimisticCrop s = Some c ->
    run s (pointer_moves positions)
    = setOptimisticCrop
        (Some (List.last
                 (map (fun p =>
                         let pos := getClientPos s0 (fst p) (snd p) in
                         modifiedCrop m crop
                           (px pos - px (getClientPos s0 downX downY))
                           (py pos - py (getClientPos s0 downX downY)))
                      positions)
                 c))
        s.
Proof.
  intros Hm Hid s0.
  induction positions as [| [cx cy] positions IH]; intros s Hrect Hi c Ho.
  - cbn. destruct s; cbn in *. now subst.
  - cbn [pointer_moves map run fold_left step fst snd].
    unfold handleWindowMouseMove at 1. rewrite Hi. cbn [mode initialCrop activeId startX startY].
    rewrite Hm, Hid. cbn [negb].
    rewrite (getClientPos_container s s0 cx cy Hrect).
    match goal with |- context [setOptimisticCrop (Some ?n) s] => set (new := n) end.
    pose proof (IH (setOptimisticCrop (Some new) s) Hrect Hi new eq_refl) as Hrun.
    unfold run, pointer_moves in *. rewrite Hrun.
    unfold setOptimisticCrop.
    cbn [layer activeCropId interaction tempSelection containerRef].
    f_equal. f_equal.
    destruct positions as [| p positions]; [reflexivity |].
    cbn [map]. etransitivity; [apply (last_cons_default _ _ new c) | reflexivity].
Qed.

(** X1. Pointer-moves never commit: whatever the machine is doing, a
    sequence of pointer-moves leaves the layer, the active region id, the
    interaction and the container as they are; only the ephemeral selection
    and the optimistic rectangle can change. *)
Theorem pointer_moves_never_commit (positions : list (Q * Q)) (s : State) :
  let s' := run s (pointer_moves positions) in
  layer s' = layer s /\ activeCropId s' = activeCropId s /\
  interaction s' = interaction s /\ containerRef s' = containerRef s.
Proof.
  revert s. induction positions as [| [cx cy] positions IH]; intros s; [cbn; repeat split |].
  cbn zeta in *. cbn [pointer_moves map run fold_left step fst snd].
  specialize (IH (handleWindowMouseMove cx cy s)).
  unfold run, pointer_moves in IH. destruct IH as (-> & -> & -> & ->).
  unfold handleWindowMouseMove. destruct (interaction s) as [it |] eqn:Hi; [| now rewrite Hi].
  destruct (mode_eqb _ _); [now cbn |].
  destruct (initialCrop it); [| now rewrite Hi]. destruct (truthy _); cbn; now rewrite ?Hi.
Qed.

(** Two pointer positions in one column, or in one row, of the viewport are
    in one column, or row, of the image. *)
Lemma getClientPos_aligned s cx cy cx' cy' :
  (cx' == cx -> px (getClientPos s cx' cy') - px (getClientPos s cx cy) == 0) /\
  (cy' == cy -> py (getClientPos s cx' cy') - py (getClientPos s cx cy) == 0).
Proof.
  unfold getClientPos. destruct (containerRef s) as [rect |]; cbn [px py].
  - split; intros ->; ring.
  - split; intros _; ring.
Qed.

(** X2. A click on the empty canvas adds no region, and neither does a drag
    along one axis: when the pointer goes up in the column or in the row in
    which it went down, the layer is unchanged, nothing is selected, and the
    machine is idle again with no ephemeral rectangle left, whatever the
    pointer did in between. *)
Theorem click_creates_no_region
    (s : State) (downX downY : Q) (positions : list (Q * Q)) (upX upY : Q) (uuid : string) :
  upX == downX \/ upY == downY ->
  handleWindowMouseUp upX upY uuid
    (run (handleMouseDown downX downY s) (pointer_moves positions))
  = mkState (layer s) None None None None (containerRef s).
Proof.
  intros Hclick.
  destruct (create_moves (px (getClientPos s downX downY)) (py (getClientPos s downX downY))
              positions (handleMouseDown downX downY s) eq_refl) as (t & ->).
  unfold handleWindowMouseUp.
  cbn [handleMouseDown setTempSelection setActiveCropId setInteraction interaction mode mode_eqb
       startX startY layer activeCropId optimisticCrop tempSelection containerRef].
  match goal with |- context [getClientPos ?s' upX upY] =>
    rewrite (getClientPos_container s' s upX upY eq_refl) end.
  cbn [CropRegion.width CropRegion.height].
  destruct (getClientPos_aligned s downX downY upX upY) as [Hcolumn Hrow].
  assert (Hno : js_gt (Qabs (px (getClientPos s upX upY) - px (getClientPos s downX downY))) 1
                && js_gt (Qabs (py (getClientPos s upX upY) - py (getClientPos s downX downY))) 1
                = false).
  { apply andb_false_iff. rewrite <- !not_true_iff_false, !js_gt_true.
    destruct Hclick as [H | H]; [left; rewrite (Hcolumn H) | right; rewrite (Hrow H)];
      change (Qabs 0) with 0; lra. }
  rewrite Hno. reflexivity.
Qed.

Lemma click_creates_no_region_witness :
  ImageLayer.crops
    (layer (handleWindowMouseUp 200 150 "region-1"
              (run (handleMouseDown 200 150 blank_cropper) (pointer_moves [(210, 160)]))))
  = [].
Proof.
  rewrite (click_creates_no_region blank_cropper 200 150 [(210, 160)] 200 150 "region-1").
  - reflexivity.
  - left. reflexivity.
Defined.

(** X3. A create gesture whose pointer-down and pointer-up are more than
    one percent apart in both axes appends exactly one region after the
    existing ones, which stay as they are: it spans the two positions, is
    unlocked, unqueued and without replacement, carries the fresh id, and
    becomes the active region; the machine is idle again.  The pointer-moves
    in between have no influence on the outcome. *)
Theorem create_gesture_appends_region
    (s : State) (downX downY : Q) (positions : list (Q * Q)) (upX upY : Q) (uuid : string) :
  sized s ->
  let new := drawn_region s uuid downX downY upX upY in
  1 < CropRegion.width new -> 1 < CropRegion.height new ->
  handleWindowMouseUp upX upY uuid
    (run (handleMouseDown downX downY s) (pointer_moves positions))
  = mkState (ImageLayer.set_crops (ImageLayer.crops (layer s) ++ [new]) (layer s))
            (Some uuid) None None None (containerRef s).
Proof.
  intros _ new Hw Hh.
  destruct (create_moves (px (getClientPos s downX downY)) (py (getClientPos s downX downY))
              positions (handleMouseDown downX downY s) eq_refl) as (t & ->).
  unfold handleWindowMouseUp.
  cbn [handleMouseDown setTempSelection setActiveCropId setInteraction interaction mode mode_eqb
       startX startY layer activeCropId optimisticCrop tempSelection containerRef].
  match goal with |- context [getClientPos ?s' upX upY] =>
    rewrite (getClientPos_container s' s upX upY eq_refl) end.
  cbn [CropRegion.width CropRegion.height].
  assert (Hyes : js_gt (CropRegion.width new) 1 && js_gt (CropRegion.height new) 1 = true).
  { apply andb_true_iff. now rewrite !js_gt_true. }
  subst new. cbn [drawn_region CropRegion.width CropRegion.height] in Hyes. rewrite Hyes.
  reflexivity.
Qed.

Lemma create_gesture_appends_region_witness :
  ImageLayer.crops
    (layer (handleWindowMouseUp 200 150 "region-1"
              (run (handleMouseDown 40 30 blank_cropper) (pointer_moves [(500, 500)]))))
  = [drawn_region blank_cropper "region-1" 40 30 200 150].
Proof.
  rewrite (create_gesture_appends_region blank_cropper 40 30 [(500, 500)] 200 150 "region-1").
  - reflexivity.
  - split; reflexivity.
  - vm_compute. reflexivity.
  - vm_compute. reflexivity.
Defined.

(** X4. A gesture is committed once: after a pointer-up, whatever the
    machine was doing before it, further pointer-moves and pointer-ups
    change nothing until the next pointer-down. *)
Theorem gesture_ends_at_pointer_up
    (s : State) (upX upY : Q) (uuid : string) (es : list Event) :
  Forall move_or_up es ->
  run (handleWindowMouseUp upX upY uuid s) es = handleWindowMouseUp upX upY uuid s.
Proof.
  intros Hes. apply idle_ignores_moves_and_ups; [| exact Hes].
  unfold handleWindowMouseUp. destruct (interaction s) as [it |] eqn:Hi; [reflexivity | exact Hi].
Qed.

Lemma gesture_ends_at_pointer_up_witness :
  let s := handleWindowMouseUp 200 150 "region-1" (handleMouseDown 40 30 blank_cropper) in
  run s [MouseMove 10 10; MouseUp 300 300 "region-2"; MouseMove 0 0] = s.
Proof.
  intros s.
  apply (gesture_ends_at_pointer_up (handleMouseDown 40 30 blank_cropper) 200 150 "region-1").
  repeat constructor.
Defined.

(** X5. A move gesture on an unlocked valid region commits, at pointer-up,
    the rectangle computed from the last pointer-move (the region itself
    when the pointer never moved; the pointer-up position plays no part):
    every region under the dragged id is replaced by it.  That rectangle is
    the snapshot translated and clamped: it is a valid region of the same
    size, id, lock state, replacement and queue flag.  The region is the
    active one afterwards and the machine is idle. *)
Theorem move_gesture_commits_translation
    (s : State) (crop : CropRegion.t) (downX downY : Q) (positions : list (Q * Q))
    (upX upY : Q) (uuid : string) :
  sized s ->
  CropRegion.isLocked crop = false -> CropRegion.id crop <> ""%string -> valid_region crop ->
  let c' := dragged_to s move crop downX downY positions in
  handleWindowMouseUp upX upY uuid
    (run (handleCropMouseDown crop downX downY s) (pointer_moves positions))
  = mkState (ImageLayer.set_crops
               (replaceCrop (CropRegion.id crop) c' (ImageLayer.crops (layer s))) (layer s))
            (Some (CropRegion.id crop)) None None None (containerRef s)
  /\ valid_region c'
  /\ CropRegion.id c' = CropRegion.id crop
  /\ CropRegion.width c' = CropRegion.width crop
  /\ CropRegion.height c' = CropRegion.height crop
  /\ CropRegion.isLocked c' = false
  /\ CropRegion.replacementSrc c' = CropRegion.replacementSrc crop
  /\ CropRegion.isStitched c' = CropRegion.isStitched crop.
Proof.
  intros _ Hunlocked Hid Hvalid c'.
  assert (Htruthy : truthy (Some (CropRegion.id crop)) = true).
  { cbn. apply negb_true_iff, String.eqb_neq, Hid. }
  split.
  - unfold handleCropMouseDown. rewrite Hunlocked.
    erewrite (snapshot_moves move crop (CropRegion.id crop) downX downY positions eq_refl Htruthy s);
      [| reflexivity | reflexivity | reflexivity].
    fold (dragged_to s move crop downX downY positions). fold c'.
    unfold handleWindowMouseUp.
    cbn [setOptimisticCrop setInteraction setActiveCropId setTempSelection interaction mode mode_eqb
         optimisticCrop activeId layer activeCropId tempSelection containerRef].
    rewrite Htruthy. reflexivity.
  - assert (Hshape : forall l c, valid_region c ->
              CropRegion.id c = CropRegion.id crop ->
              CropRegion.width c = CropRegion.width crop ->
              CropRegion.height c = CropRegion.height crop ->
              CropRegion.isLocked c = false ->
              CropRegion.replacementSrc c = CropRegion.replacementSrc crop ->
              CropRegion.isStitched c = CropRegion.isStitched crop ->
              let c' := List.last
                          (map (fun p : Q * Q =>
                                  let pos := getClientPos s (fst p) (snd p) in
                                  modifiedCrop move crop
                                    (px pos - px (getClientPos s downX downY))
                                    (py pos - py (getClientPos s downX downY))) l) c in
              valid_region c' /\ CropRegion.id c' = CropRegion.id crop /\
              CropRegion.width c' = CropRegion.width crop /\
              CropRegion.height c' = CropRegion.height crop /\
              CropRegion.isLocked c' = false /\
              CropRegion.replacementSrc c' = CropRegion.replacementSrc crop /\
              CropRegion.isStitched c' = CropRegion.isStitched crop).
    { induction l as [| p l IH]; intros c Hv H1 H2 H3 H4 H5 H6; [now cbn |].
      cbn zeta. cbn [map]. destruct l as [| q l].
      - cbn [map List.last]. split; [now apply modifiedCrop_valid |]. now cbn.
      - cbn [map] in *. cbn [List.last]. cbn [List.last] in IH.
        apply (IH c); assumption. }
    now apply Hshape.
Qed.

Lemma move_gesture_commits_translation_witness :
  let crop := CropRegion.mk "region-1" 10 20 30 40 false None false in
  exists c',
    ImageLayer.crops
      (layer (handleWindowMouseUp 0 0 "u"
                (run (handleCropMouseDown crop 80 90 one_region_cropper)
                     (pointer_moves [(100, 90); (2000, 150)]))))
    = [c'] /\
    (CropRegion.x c' == 70) /\ (CropRegion.y c' == 40) /\
    CropRegion.width c' = 30 /\ CropRegion.height c' = 40 /\ valid_region c'.
Proof.
  intros crop.
  destruct (move_gesture_commits_translation one_region_cropper crop 80 90
              [(100, 90); (2000, 150)] 0 0 "u") as (Heq & Hvalid & _ & Hw & Hh & _).
  - split; reflexivity.
  - reflexivity.
  - discriminate.
  - unfold valid_region. cbn. repeat split; discriminate.
  - exists (dragged_to one_region_cropper move crop 80 90 [(100, 90); (2000, 150)]).
    split; [rewrite Heq; reflexivity |].
    split; [vm_compute; reflexivity |]. split; [vm_compute; reflexivity |].
    split; [exact Hw |]. split; [exact Hh | exact Hvalid].
Defined.

(** X7. A locked region that is the only one under its id is still in the
    layer's region list, as it was, after every sequence of pointer and key
    events in which no new region is given its id. *)
Theorem locked_region_outlives_every_trace
    (locked : CropRegion.t) (s : State) (es : list Event) :
  CropRegion.isLocked locked = true -> holds_untouched locked s ->
  Forall (never_draws (CropRegion.id locked)) es ->
  In locked (ImageLayer.crops (layer (run s es))) /\
  forall c, In c (ImageLayer.crops (layer (run s es))) ->
            CropRegion.id c = CropRegion.id locked -> c = locked.
Proof.
  intros Hlocked Hs Hes.
  destruct (locked_region_survives es locked s Hlocked Hs Hes) as (Hin & Hone & _).
  now split.
Qed.

Lemma locked_region_outlives_every_trace_witness :
  let locked := CropRegion.mk "r1" 10 10 50 50 true None false in
  let s := onUpdateLayer (ImageLayer.set_crops [locked] (layer blank_cropper)) blank_cropper in
  In locked
     (ImageLayer.crops
        (layer (run s [MouseDownCrop 0 100 100; MouseMove 300 200; MouseUp 300 200 "u";
                       MouseDownHandle 0 SE 240 180; MouseMove 10 10; MouseUp 10 10 "v";
                       KeyDown "Delete"]))).
Proof.
  intros locked s.
  apply (locked_region_outlives_every_trace locked s).
  - reflexivity.
  - split; [now left |]. split; [| split].
    + intros c [<- | []] _. reflexivity.
    + intros o H. discriminate H.
    + intros it H. discriminate H.
  - repeat constructor; discriminate.
Defined.

End CropperTraces.

Section CropperToolbar.
Import ImageCropper.

Lemma set_isLocked_twice c :
  CropRegion.set_isLocked (negb (CropRegion.isLocked (CropRegion.set_isLocked
                                                         (negb (CropRegion.isLocked c)) c)))
    (CropRegion.set_isLocked (negb (CropRegion.isLocked c)) c) = c.
Proof. destruct c as [? ? ? ? ? locked ? ?]. cbn. now rewrite negb_involutive. Qed.

(** X8. Toggling the lock of a region twice restores the component as it
    was: locking is undone by unlocking, for every region list (also one
    in which several regions share the id) and whatever else the machine
    is doing. *)
Theorem handleLockToggle_twice_restores (cropId : string) (s : State) :
  handleLockToggle cropId (handleLockToggle cropId s) = s.
Proof.
  unfold handleLockToggle.
  cbn [onUpdateLayer layer activeCropId optimisticCrop interaction tempSelection containerRef
       ImageLayer.set_crops ImageLayer.crops ImageLayer.id ImageLayer.groupId ImageLayer.name
       ImageLayer.src ImageLayer.width ImageLayer.height].
  rewrite map_map.
  assert (Hid : map (fun c => if String.eqb
                                   (CropRegion.id
                                      (if String.eqb (CropRegion.id c) cropId
                                       then CropRegion.set_isLocked (negb (CropRegion.isLocked c)) c
                                       else c)) cropId
                              then CropRegion.set_isLocked
                                     (negb (CropRegion.isLocked
                                              (if String.eqb (CropRegion.id c) cropId
                                               then CropRegion.set_isLocked
                                                      (negb (CropRegion.isLocked c)) c
                                               else c)))
                                     (if String.eqb (CropRegion.id c) cropId
                                      then CropRegion.set_isLocked (negb (CropRegion.isLocked c)) c
                                      else c)
                              else (if String.eqb (CropRegion.id c) cropId
                                    then CropRegion.set_isLocked (negb (CropRegion.isLocked c)) c
                                    else c))
                    (ImageLayer.crops (layer s))
                = ImageLayer.crops (layer s)).
  { rewrite <- (map_id (ImageLayer.crops (layer s))) at 2. apply map_ext. intros c.
    destruct (String.eqb (CropRegion.id c) cropId) eqn:Heq.
    - cbn [CropRegion.set_isLocked CropRegion.id]. rewrite Heq. apply set_isLocked_twice.
    - now rewrite Heq. }
  rewrite Hid. destruct s as [[] ? ? ? ? ?]. reflexivity.
Qed.

Lemma filter_other_ids (cropId : string) (crops : list CropRegion.t) :
  List.filter (fun c => negb (String.eqb (CropRegion.id c) cropId)) crops
  = filter (fun c => CropRegion.id c <> cropId) crops.
Proof.
  induction crops as [| c l IH]; [reflexivity |].
  cbn [List.filter]. rewrite filter_cons.
  destruct (String.eqb (CropRegion.id c) cropId) eqn:Heq; cbn [negb].
  - apply String.eqb_eq in Heq. rewrite decide_False by (intros H; now apply H).
    exact IH.
  - apply String.eqb_neq in Heq. rewrite decide_True by exact Heq. now rewrite IH.
Qed.

(** X9. Delete or Backspace pressed while an unlocked region is the active
    one removes every region that carries the active id, keeps all other
    regions in their order, and clears the selection; the gesture state is
    not touched.  Any other key changes nothing. *)
Theorem delete_key_removes_active_region (key : string) (s : State) :
  (key <> "Delete"%string -> key <> "Backspace"%string -> handleKeyDown key s = s) /\
  (forall crop,
     key = "Delete"%string \/ key = "Backspace"%string ->
     active_region s = Some crop -> CropRegion.isLocked crop = false ->
     CropRegion.id crop <> ""%string ->
     let s' := handleKeyDown key s in
     ImageLayer.crops (layer s')
     = filter (fun c => CropRegion.id c <> CropRegion.id crop) (ImageLayer.crops (layer s)) /\
     Forall (fun c => CropRegion.id c <> CropRegion.id crop) (ImageLayer.crops (layer s')) /\
     activeCropId s' = None /\ active_region s' = None /\
     interaction s' = interaction s /\ optimisticCrop s' = optimisticCrop s /\
     tempSelection s' = tempSelection s).
Proof.
  split.
  - intros Hd Hb. unfold handleKeyDown.
    apply String.eqb_neq in Hd, Hb. now rewrite Hd, Hb.
  - intros crop Hkey Hactive Hunlocked Hid s'.
    unfold active_region in Hactive.
    destruct (activeCropId s) as [active |] eqn:Ha; [| discriminate].
    assert (Hcrop : CropRegion.id crop = active).
    { apply find_some in Hactive as [_ H]. now apply String.eqb_eq in H. }
    subst active.
    assert (Hs' : s' = setActiveCropId None
                         (onUpdateLayer
                            (ImageLayer.set_crops
                               (List.filter
                                  (fun c => negb (String.eqb (CropRegion.id c) (CropRegion.id crop)))
                                  (ImageLayer.crops (layer s))) (layer s)) s)).
    { subst s'. unfold handleKeyDown. rewrite Ha.
      assert (Hk : (String.eqb key "Delete" || String.eqb key "Backspace") = true).
      { destruct Hkey as [-> | ->]; reflexivity. }
      rewrite Hk. cbn [andb truthy].
      apply String.eqb_neq in Hid. rewrite Hid. cbn [negb].
      rewrite Hactive, Hunlocked. cbn [negb].
      unfold handleDeleteCrop. rewrite Ha. cbn [option_string_eqb].
      now rewrite String.eqb_refl. }
    rewrite Hs'.
    cbn [setActiveCropId onUpdateLayer layer activeCropId interaction optimisticCrop tempSelection
         ImageLayer.set_crops ImageLayer.crops].
    rewrite filter_other_ids.
    split; [reflexivity |]. split.
    { apply Forall_forall. intros c Hc. now apply list_elem_of_filter in Hc as [Hc _]. }
    repeat split; reflexivity.
Qed.

Lemma delete_key_removes_active_region_witness :
  let s := setActiveCropId (Some "region-1") one_region_cropper in
  handleKeyDown "Shift" s = s /\
  ImageLayer.crops (layer (handleKeyDown "Backspace" s)) = [] /\
  activeCropId (handleKeyDown "Backspace" s) = None.
Proof.
  intros s.
  destruct (delete_key_removes_active_region "Shift" s) as [Hother _].
  destruct (delete_key_removes_active_region "Backspace" s) as [_ Hdelete].
  split; [apply Hother; discriminate |].
  destruct (Hdelete (CropRegion.mk "region-1" 10 20 30 40 false None false))
    as (Hcrops & _ & Hnone & _).
  - now right.
  - reflexivity.
  - reflexivity.
  - discriminate.
  - split; [rewrite Hcrops; reflexivity | exact Hnone].
Defined.

End CropperToolbar.

(** * Further properties: export of regions and layers *)

Section ExportFacts.
Import ImageUtils.








End ExportFacts.

(** * Further properties: the horizontal stitch *)

Section HorizontalStitchFacts.
Import ImageUtils.










End HorizontalStitchFacts.

(** * Further properties: the asset library *)

Section LibraryFacts.
Import App.

Lemma filter_bool_Prop {T} (f : T -> bool) (P : T -> Prop) `{!forall x, Decision (P x)}
    (l : list T) :
  (forall x, x ∈ l -> (f x = true <-> P x)) -> List.filter f l = filter P l.
Proof.
  induction l as [| a l IH]; intros Hiff; [reflexivity |].
  cbn [List.filter]. rewrite filter_cons.
  assert (Hl : List.filter f l = filter P l).
  { apply IH. intros x Hx. apply Hiff. now right. }
  destruct (f a) eqn:Hf.
  - rewrite decide_True by (apply Hiff; [left | exact Hf]). now rewrite Hl.
  - rewrite decide_False; [exact Hl |]. intros HP. apply Hiff in HP; [congruence | left].
Qed.

Lemma filter_all {T} (P : T -> Prop) `{!forall x, Decision (P x)} (l : list T) :
  (forall x, x ∈ l -> P x) -> filter P l = l.
Proof.
  induction l as [| a l IH]; intros Hall; [reflexivity |].
  rewrite filter_cons_True by (apply Hall; left). f_equal.
  apply IH. intros x Hx. apply Hall. now right.
Qed.

Lemma map_if_decide {T} (f : T -> bool) (P : T -> Prop) `{!forall x, Decision (P x)}
    (g : T -> T) (l : list T) :
  (forall x, f x = true <-> P x) ->
  map (fun x => if f x then g x else x) l = (fun x => if decide (P x) then g x else x) <$> l.
Proof.
  intros Hiff. apply map_ext. intros x. destruct (f x) eqn:Hf.
  - rewrite decide_True by (now apply Hiff). reflexivity.
  - rewrite decide_False; [reflexivity |]. intros HP. apply Hiff in HP. congruence.
Qed.

Lemma members_consistent_spec s :
  members_consistent s <->
  forall l g, l ∈ layers s -> g ∈ groups s ->
              ImageLayer.groupId l = Some (AssetGroup.id g) ->
              ImageLayer.id l ∈ AssetGroup.layerIds g.
Proof.
  unfold members_consistent. rewrite Forall_forall. split.
  - intros H l g Hl Hg. specialize (H l Hl). rewrite Forall_forall in H. now apply H.
  - intros H l Hl. apply Forall_forall. intros g Hg. now apply H.
Qed.

Lemma negb_eqb_true (a b : string) : negb (String.eqb a b) = true <-> a <> b.
Proof. rewrite negb_true_iff. apply String.eqb_neq. Qed.

(** X17. Ungrouping deletes no layer: the library keeps its layers in
    order, those that belonged to the group become ungrouped and all others
    are untouched; the group leaves the table and its direct subgroups
    become top-level groups, every other group staying as it is, in order.
    Afterwards no layer and no group refers to the group.  The stitch queue
    and the selection are not touched, and the editor is cleared exactly
    when it showed the group. *)
Theorem handleUngroup_releases_members (groupId : string) (s : State) :
  let s' := handleUngroup groupId s in
  layers s'
  = (fun l => if decide (ImageLayer.groupId l = Some groupId)
              then ImageLayer.set_groupId None l else l) <$> layers s /\
  map ImageLayer.id (layers s') = map ImageLayer.id (layers s) /\
  Forall (fun l => ImageLayer.groupId l <> Some groupId) (layers s') /\
  groups s'
  = (fun g => if decide (AssetGroup.parentGroupId g = Some groupId)
              then AssetGroup.set_parentGroupId None g else g)
      <$> filter (fun g => AssetGroup.id g <> groupId) (groups s) /\
  Forall (fun g => AssetGroup.id g <> groupId /\ AssetGroup.parentGroupId g <> Some groupId)
         (groups s') /\
  stitchItems s' = stitchItems s /\ selectedLibraryIds s' = selectedLibraryIds s /\
  activeAssetId s' = (if decide (activeAssetId s = Some groupId) then None else activeAssetId s).
Proof.
  intros s'.
  assert (Hlayers : layers s'
            = (fun l => if decide (ImageLayer.groupId l = Some groupId)
                        then ImageLayer.set_groupId None l else l) <$> layers s).
  { subst s'. unfold handleUngroup.
    destruct (option_string_eqb _ _); cbn [layers setActiveAssetId setGroups setLayers];
      apply map_if_decide; intros l; apply option_string_eqb_Some. }
  assert (Hgroups : groups s'
            = (fun g => if decide (AssetGroup.parentGroupId g = Some groupId)
                        then AssetGroup.set_parentGroupId None g else g)
                <$> filter (fun g => AssetGroup.id g <> groupId) (groups s)).
  { subst s'. unfold handleUngroup.
    destruct (option_string_eqb _ _); cbn [groups layers setActiveAssetId setGroups setLayers];
      rewrite (filter_bool_Prop _ (fun g => AssetGroup.id g <> groupId))
        by (intros g _; apply negb_eqb_true);
      apply map_if_decide; intros g; apply option_string_eqb_Some. }
  split; [exact Hlayers |]. split; [| split; [| split; [exact Hgroups | split; [| split; [| split]]]]].
  - rewrite Hlayers. change (map ?f (?g <$> ?l)) with (map f (map g l)). rewrite map_map.
    apply map_ext. intros l. now destruct (decide _).
  - rewrite Hlayers. apply Forall_forall. intros l' Hl'.
    apply list_elem_of_fmap in Hl' as (l & -> & _).
    destruct (decide (ImageLayer.groupId l = Some groupId)) as [_ | Hne]; [discriminate | exact Hne].
  - rewrite Hgroups. apply Forall_forall. intros g' Hg'.
    apply list_elem_of_fmap in Hg' as (g & -> & Hg). apply list_elem_of_filter in Hg as [Hid _].
    destruct (decide (AssetGroup.parentGroupId g = Some groupId)) as [_ | Hne].
    + split; [exact Hid | discriminate].
    + split; [exact Hid | exact Hne].
  - subst s'. unfold handleUngroup. now destruct (option_string_eqb _ _).
  - subst s'. unfold handleUngroup. now destruct (option_string_eqb _ _).
  - subst s'. unfold handleUngroup.
    cbn [activeAssetId setGroups setLayers].
    destruct (option_string_eqb (activeAssetId s) (Some groupId)) eqn:Heq.
    + apply option_string_eqb_Some in Heq. now rewrite decide_True.
    + rewrite decide_False; [reflexivity |]. intros H. apply option_string_eqb_Some in H. congruence.
Qed.

(** X18. Deleting a layer always returns and removes every reference the
    asset graph holds to it: the layers under that id leave the library,
    the others staying in order, and the id leaves the member list of every
    group, whose other members keep their order; no group is removed, even
    one left without members.  The stitch queue is not touched; the editor
    is cleared exactly when it showed the layer, and the group menu is
    closed. *)
Theorem deleteLayer_removes_every_reference (fuel : nat) (id : string) (s : State) :
  exists s',
    handleDeleteItem fuel id layer s = Some s' /\
    layers s' = filter (fun l => ImageLayer.id l <> id) (layers s) /\
    groups s'
    = (fun g => AssetGroup.set_layerIds (filter (fun lid => lid <> id) (AssetGroup.layerIds g)) g)
        <$> groups s /\
    Forall (fun g => id ∉ AssetGroup.layerIds g) (groups s') /\
    map AssetGroup.id (groups s') = map AssetGroup.id (groups s) /\
    stitchItems s' = stitchItems s /\
    activeAssetId s' = (if decide (activeAssetId s = Some id) then None else activeAssetId s) /\
    activeMenuGroupId s' = None.
Proof.
  eexists. split; [reflexivity |].
  assert (Hgroups :
            map (fun g => AssetGroup.set_layerIds
                            (List.filter (fun lid => negb (String.eqb lid id))
                                         (AssetGroup.layerIds g)) g) (groups s)
            = (fun g => AssetGroup.set_layerIds
                          (filter (fun lid => lid <> id) (AssetGroup.layerIds g)) g)
                <$> groups s).
  { apply map_ext. intros g. f_equal. apply filter_bool_Prop. intros lid _. apply negb_eqb_true. }
  assert (Hactive : activeAssetId
                      (if option_string_eqb (activeAssetId s) (Some id)
                       then setActiveAssetId None
                              (setGroups
                                 (map (fun g => AssetGroup.set_layerIds
                                                  (List.filter (fun lid => negb (String.eqb lid id))
                                                               (AssetGroup.layerIds g)) g)
                                      (groups s))
                                 (setLayers
                                    (List.filter (fun l => negb (String.eqb (ImageLayer.id l) id))
                                                 (layers s)) s))
                       else setGroups
                              (map (fun g => AssetGroup.set_layerIds
                                               (List.filter (fun lid => negb (String.eqb lid id))
                                                            (AssetGroup.layerIds g)) g)
                                   (groups s))
                              (setLayers
                                 (List.filter (fun l => negb (String.eqb (ImageLayer.id l) id))
                                              (layers s)) s))
                    = if decide (activeAssetId s = Some id) then None else activeAssetId s).
  { destruct (option_string_eqb (activeAssetId s) (Some id)) eqn:Heq.
    + apply option_string_eqb_Some in Heq. now rewrite decide_True.
    + rewrite decide_False; [reflexivity |]. intros H. apply option_string_eqb_Some in H. congruence. }
  cbn [layers groups setLayers setGroups] in *.
  split; [| split; [| split; [| split; [| split; [| split]]]]].
  - destruct (option_string_eqb _ _); cbn [layers setActiveMenuGroupId setActiveAssetId setGroups setLayers];
      apply filter_bool_Prop; intros l _; apply negb_eqb_true.
  - destruct (option_string_eqb _ _); cbn [groups setActiveMenuGroupId setActiveAssetId setGroups setLayers];
      exact Hgroups.
  - assert (Hgone : Forall (fun g => id ∉ AssetGroup.layerIds g)
                      ((fun g => AssetGroup.set_layerIds
                                   (filter (fun lid => lid <> id) (AssetGroup.layerIds g)) g)
                         <$> groups s)).
    { apply Forall_forall. intros g' Hg'. apply list_elem_of_fmap in Hg' as (g & -> & _).
      cbn [AssetGroup.set_layerIds AssetGroup.layerIds]. intros Hin.
      apply list_elem_of_filter in Hin as [Hne _]. now apply Hne. }
    destruct (option_string_eqb _ _); cbn [groups setActiveMenuGroupId setActiveAssetId setGroups setLayers];
      rewrite Hgroups; exact Hgone.
  - destruct (option_string_eqb _ _); cbn [groups setActiveMenuGroupId setActiveAssetId setGroups setLayers];
      rewrite map_map; reflexivity.
  - now destruct (option_string_eqb _ _).
  - cbn [activeAssetId setActiveMenuGroupId]. exact Hactive.
  - reflexivity.
Qed.

Lemma fold_add_spec (lid : string) (l : list string) :
  forall acc : gset string,
    lid ∈ fold_left (fun acc id => acc ∪ {[id]}) l acc <-> lid ∈ acc \/ lid ∈ l.
Proof.
  induction l as [| x l IH]; intros acc; cbn.
  - split; [now left | intros [H | H]; [exact H | inversion H]].
  - rewrite IH, elem_of_union, elem_of_singleton, elem_of_cons. tauto.
Qed.

Lemma fold_members_spec (lid : string) (gs : list AssetGroup.t) :
  forall acc : gset string,
    lid ∈ fold_left
            (fun acc g => fold_left (fun acc id => acc ∪ {[id]}) (AssetGroup.layerIds g) acc)
            gs acc
    <-> lid ∈ acc \/ exists g, g ∈ gs /\ lid ∈ AssetGroup.layerIds g.
Proof.
  induction gs as [| g gs IH]; intros acc; cbn [fold_left].
  - split; [now left | intros [H | (g & Hg & _)]; [exact H | inversion Hg]].
  - rewrite IH, fold_add_spec. split.
    + intros [[H | H] | (g' & Hg' & H')]; [now left | right | right].
      * exists g. split; [left | exact H].
      * exists g'. split; [now right | exact H'].
    + intros [H | (g' & Hg' & Hl)]; [now left; left |].
      apply elem_of_cons in Hg' as [-> | Hg']; [left; now right |].
      right. now exists g'.
Qed.

(** X19. Deleting the selection removes the groups whose id is selected
    and the layers whose id is selected or listed as a member of a selected
    group, and nothing else: every other group stays in the table as it is
    (its member list and parent link included, so subgroups of a deleted
    group are kept), every other layer stays, in order.  The selection is
    emptied, selection mode ends and the editor is cleared in every case;
    the stitch queue is not touched.  With an empty selection no layer and
    no group is removed. *)
Theorem handleDeleteSelected_removes_selection (s : State) :
  let s' := handleDeleteSelected s in
  groups s' = filter (fun g => AssetGroup.id g ∉ selectedLibraryIds s) (groups s) /\
  (exists layerIdsToDelete : gset string,
     (forall lid, lid ∈ layerIdsToDelete <->
        (lid ∈ selectedLibraryIds s /\ exists l, l ∈ layers s /\ ImageLayer.id l = lid) \/
        (exists g, g ∈ groups s /\ AssetGroup.id g ∈ selectedLibraryIds s /\
                   lid ∈ AssetGroup.layerIds g)) /\
     layers s' = filter (fun l => ImageLayer.id l ∉ layerIdsToDelete) (layers s)) /\
  selectedLibraryIds s' = ∅ /\ isSelectionMode s' = false /\ activeAssetId s' = None /\
  stitchItems s' = stitchItems s /\
  (selectedLibraryIds s = ∅ -> layers s' = layers s /\ groups s' = groups s).
Proof.
  intros s'. subst s'. unfold handleDeleteSelected.
  set (sel := selectedLibraryIds s).
  set (groupsToDelete := List.filter (fun g => bool_decide (AssetGroup.id g ∈ sel)) (groups s)).
  set (L0 := list_to_set
               (map ImageLayer.id
                    (List.filter (fun l => bool_decide (ImageLayer.id l ∈ sel)) (layers s)))
             : gset string).
  set (L := fold_left _ groupsToDelete L0).
  cbn [groups layers selectedLibraryIds isSelectionMode activeAssetId stitchItems
       setActiveAssetId setIsSelectionMode setSelectedLibraryIds setLayers setGroups].
  assert (HG : forall g, g ∈ groupsToDelete <-> g ∈ groups s /\ AssetGroup.id g ∈ sel).
  { intros g. subst groupsToDelete.
    rewrite list_elem_of_In, filter_In, <- list_elem_of_In, bool_decide_eq_true. tauto. }
  assert (HL : forall lid, lid ∈ L <->
             (lid ∈ sel /\ exists l, l ∈ layers s /\ ImageLayer.id l = lid) \/
             (exists g, g ∈ groups s /\ AssetGroup.id g ∈ sel /\ lid ∈ AssetGroup.layerIds g)).
  { intros lid. subst L. rewrite fold_members_spec. subst L0. rewrite elem_of_list_to_set.
    split.
    - intros [Hin | (g & Hg & Hl)].
      + left. apply list_elem_of_In, in_map_iff in Hin as (l & <- & Hl).
        apply filter_In in Hl as [Hl Hsel]. apply bool_decide_eq_true in Hsel.
        split; [exact Hsel |]. exists l. split; [now apply list_elem_of_In | reflexivity].
      + right. apply HG in Hg as [Hg Hsel]. exists g. auto.
    - intros [[Hsel (l & Hl & <-)] | (g & Hg & Hsel & Hl)].
      + left. apply list_elem_of_In, in_map_iff. exists l. split; [reflexivity |].
        apply filter_In. split; [now apply list_elem_of_In | now apply bool_decide_eq_true].
      + right. exists g. split; [apply HG; auto | exact Hl]. }
  assert (Hgroups :
            List.filter
              (fun g => negb (bool_decide
                                (AssetGroup.id g
                                 ∈ (list_to_set (map AssetGroup.id groupsToDelete) : gset string))))
              (groups s)
            = filter (fun g => AssetGroup.id g ∉ sel) (groups s)).
  { apply filter_bool_Prop. intros g Hg.
    rewrite negb_true_iff, bool_decide_eq_false, elem_of_list_to_set. split.
    - intros Hnot Hsel. apply Hnot, list_elem_of_In, in_map. apply list_elem_of_In, HG. auto.
    - intros Hnot Hin. apply list_elem_of_In, in_map_iff in Hin as (g' & Hid & Hg').
      apply list_elem_of_In, HG in Hg' as [_ Hsel]. rewrite Hid in Hsel. contradiction. }
  assert (Hlayers :
            List.filter (fun l => negb (bool_decide (ImageLayer.id l ∈ L))) (layers s)
            = filter (fun l => ImageLayer.id l ∉ L) (layers s)).
  { apply filter_bool_Prop. intros l _. now rewrite negb_true_iff, bool_decide_eq_false. }
  split; [exact Hgroups |]. split; [exists L; split; [exact HL | exact Hlayers] |].
  split; [reflexivity |]. split; [reflexivity |]. split; [reflexivity |]. split; [reflexivity |].
  intros Hempty. split.
  - rewrite Hlayers. apply filter_all. intros l Hl Hin. apply HL in Hin.
    rewrite Hempty in Hin. set_solver.
  - rewrite Hgroups. apply filter_all. intros g _. rewrite Hempty. set_solver.
Qed.

(** X20. Clicking a library item in selection mode toggles exactly that
    item: it is selected afterwards if and only if it was not before, the
    selection of every other id is unchanged, the layers, groups and queue
    are not touched, and a second click restores the state as it was. *)
Theorem toggleSelection_flips_membership (id : string) (s : State) :
  let s' := toggleSelection id s in
  (id ∈ selectedLibraryIds s' <-> id ∉ selectedLibraryIds s) /\
  (forall other, other <> id ->
     (other ∈ selectedLibraryIds s' <-> other ∈ selectedLibraryIds s)) /\
  layers s' = layers s /\ groups s' = groups s /\ stitchItems s' = stitchItems s /\
  toggleSelection id s' = s.
Proof.
  intros s'. subst s'. unfold toggleSelection.
  cbn [selectedLibraryIds layers groups stitchItems setSelectedLibraryIds].
  destruct (bool_decide (id ∈ selectedLibraryIds s)) eqn:Hin.
  - apply bool_decide_eq_true in Hin.
    split; [set_solver |]. split; [set_solver |].
    split; [reflexivity |]. split; [reflexivity |]. split; [reflexivity |].
    rewrite bool_decide_eq_false_2 by set_solver.
    assert (Hback : selectedLibraryIds s ∖ {[id]} ∪ {[id]} = selectedLibraryIds s).
    { apply set_eq. intros x. destruct (decide (x = id)); set_solver. }
    rewrite Hback. now destruct s.
  - apply bool_decide_eq_false in Hin.
    split; [set_solver |]. split; [set_solver |].
    split; [reflexivity |]. split; [reflexivity |]. split; [reflexivity |].
    rewrite bool_decide_eq_true_2 by set_solver.
    assert (Hback : (selectedLibraryIds s ∪ {[id]}) ∖ {[id]} = selectedLibraryIds s)
      by set_solver.
    rewrite Hback. now destruct s.
Qed.

Lemma descendant_first_step groups a b :
  descendant groups a b -> a <> b ->
  exists c, c ∈ groups /\ AssetGroup.parentGroupId c = Some a /\
            descendant groups (AssetGroup.id c) b.
Proof.
  induction 1 as [| g p Hg Hp Hd IH]; intros Hne; [contradiction |].
  destruct (decide (a = p)) as [-> | Hap].
  - exists g. split; [exact Hg |]. split; [exact Hp | constructor].
  - destruct (IH Hap) as (c & Hc & Hcp & Hcd).
    exists c. split; [exact Hc |]. split; [exact Hcp |].
    now apply (descendant_child _ _ g p).
Qed.

(** On a cycle of parent links the recursion of [getSubGroups] never
    returns, whatever depth it is given. *)
Lemma getSubGroups_on_cycle groups g0 p0 :
  g0 ∈ groups -> AssetGroup.parentGroupId g0 = Some p0 ->
  descendant groups (AssetGroup.id g0) p0 ->
  forall fuel x,
    descendant groups (AssetGroup.id g0) x -> descendant groups x (AssetGroup.id g0) ->
    getSubGroups fuel groups x = None.
Proof.
  intros Hg0 Hp0 Hd0. induction fuel as [| fuel IH]; intros x Hdown Hup; [reflexivity |].
  assert (Hchild : exists c, c ∈ groups /\ AssetGroup.parentGroupId c = Some x /\
                             descendant groups (AssetGroup.id g0) (AssetGroup.id c) /\
                             descendant groups (AssetGroup.id c) (AssetGroup.id g0)).
  { destruct (decide (x = AssetGroup.id g0)) as [-> | Hne].
    - destruct (decide (AssetGroup.id g0 = p0)) as [Heq | Hne0].
      + exists g0. split; [exact Hg0 |]. split; [now rewrite Heq |]. split; constructor.
      + destruct (descendant_first_step _ _ _ Hd0 Hne0) as (c & Hc & Hcp & Hcd).
        exists c. split; [exact Hc |]. split; [exact Hcp |]. split.
        * apply (descendant_child _ _ c (AssetGroup.id g0)); [exact Hc | exact Hcp | constructor].
        * now apply (descendant_child _ _ g0 p0).
    - destruct (descendant_first_step _ _ _ Hup Hne) as (c & Hc & Hcp & Hcd).
      exists c. split; [exact Hc |]. split; [exact Hcp |]. split; [| exact Hcd].
      now apply (descendant_child _ _ c x). }
  destruct Hchild as (c & Hc & Hcp & Hcdown & Hcup).
  cbn [getSubGroups].
  match goal with |- context [mapM ?f ?l] =>
    assert (Hnone : mapM f l = None) end.
  { apply mapM_None_2, Exists_exists. exists c. split.
    - apply list_elem_of_In, children_spec. now split.
    - now apply IH. }
  now rewrite Hnone.
Qed.

(** X21. Deleting a group returns for every group id, given enough
    recursion depth, exactly when the parent links of the group table form
    a forest: on a forest every depth beyond the number of groups suffices,
    and if some group has its parent among its own descendants, deleting
    that group returns for no depth at all. *)
Theorem group_deletion_returns_iff_forest (s : State) :
  ((forall id, exists fuel, is_Some (handleDeleteItem fuel id group s))
   <-> forest (groups s)) /\
  (forest (groups s) ->
   forall id fuel, (length (groups s) < fuel)%nat -> is_Some (handleDeleteItem fuel id group s)) /\
  (forall g p fuel,
     g ∈ groups s -> AssetGroup.parentGroupId g = Some p ->
     descendant (groups s) (AssetGroup.id g) p ->
     handleDeleteItem fuel (AssetGroup.id g) group s = None).
Proof.
  assert (Htotal : forest (groups s) ->
            forall id fuel, (length (groups s) < fuel)%nat ->
                            is_Some (handleDeleteItem fuel id group s)).
  { intros Hforest id fuel Hfuel. unfold handleDeleteItem.
    destruct (getSubGroups_total (groups s) fuel id Hforest Hfuel) as [ids ->]. now eexists. }
  assert (Hcycle : forall g p fuel,
            g ∈ groups s -> AssetGroup.parentGroupId g = Some p ->
            descendant (groups s) (AssetGroup.id g) p ->
            handleDeleteItem fuel (AssetGroup.id g) group s = None).
  { intros g p fuel Hg Hp Hd. unfold handleDeleteItem.
    rewrite (getSubGroups_on_cycle (groups s) g p Hg Hp Hd fuel (AssetGroup.id g));
      [reflexivity | constructor | constructor]. }
  split; [| split; [exact Htotal | exact Hcycle]].
  split.
  - intros Hreturns g p Hg Hp Hd.
    destruct (Hreturns (AssetGroup.id g)) as (fuel & s' & Hs').
    rewrite (Hcycle g p fuel Hg Hp Hd) in Hs'. discriminate.
  - intros Hforest id. exists (S (length (groups s))). apply Htotal; [exact Hforest | lia].
Qed.

(** The parent links of [groups'] are among those of [groups]. *)
Lemma forest_fewer_links groups groups' :
  (forall g' p, g' ∈ groups' -> AssetGroup.parentGroupId g' = Some p ->
                exists g, g ∈ groups /\ AssetGroup.id g = AssetGroup.id g' /\
                          AssetGroup.parentGroupId g = Some p) ->
  forest groups -> forest groups'.
Proof.
  intros Hlinks Hforest.
  assert (Hdesc : forall root x, descendant groups' root x -> descendant groups root x).
  { intros root x. induction 1 as [| g' p Hg' Hp _ IH]; [constructor |].
    destruct (Hlinks g' p Hg' Hp) as (g & Hg & <- & Hgp).
    now apply (descendant_child _ _ g p). }
  intros g' p Hg' Hp Hd. destruct (Hlinks g' p Hg' Hp) as (g & Hg & Hid & Hgp).
  apply (Hforest g p Hg Hgp). rewrite Hid. now apply Hdesc.
Qed.

Lemma descendant_leaves_root groups root x :
  descendant groups root x ->
  x = root \/ exists g, g ∈ groups /\ AssetGroup.parentGroupId g = Some root.
Proof.
  induction 1 as [| g p Hg Hp _ IH]; [now left |]. right.
  destruct IH as [-> | Hex]; [now exists g | exact Hex].
Qed.

(** A new group under a fresh id keeps the table a forest, whatever its
    parent. *)
Lemma forest_new_leaf groups (new : AssetGroup.t) :
  forest groups ->
  (forall g, g ∈ groups -> AssetGroup.parentGroupId g <> Some (AssetGroup.id new)) ->
  AssetGroup.parentGroupId new <> Some (AssetGroup.id new) ->
  forest (groups ++ [new]).
Proof.
  intros Hforest Hfresh Hself.
  assert (Hold : forall root x,
            descendant (groups ++ [new]) root x ->
            descendant groups root x \/
            (x = AssetGroup.id new /\ exists p, AssetGroup.parentGroupId new = Some p /\
                                                descendant groups root p)).
  { intros root x. induction 1 as [| g p Hg Hp _ IH]; [left; constructor |].
    assert (Hp' : descendant groups root p).
    { destruct IH as [H | [-> _]]; [exact H |]. exfalso.
      apply elem_of_app in Hg as [Hg | Hg]; [now apply (Hfresh g Hg) |].
      apply list_elem_of_singleton in Hg as ->. now apply Hself. }
    apply elem_of_app in Hg as [Hg | Hg].
    - left. now apply (descendant_child _ _ g p).
    - apply list_elem_of_singleton in Hg as ->. right. split; [reflexivity |]. now exists p. }
  intros g p Hg Hp Hd. apply elem_of_app in Hg as [Hg | Hg].
  - destruct (Hold _ _ Hd) as [H | [-> _]]; [now apply (Hforest g p Hg Hp) |].
    now apply (Hfresh g Hg).
  - apply list_elem_of_singleton in Hg as ->.
    destruct (Hold _ _ Hd) as [H | [-> _]]; [| now apply Hself].
    destruct (descendant_leaves_root _ _ _ H) as [-> | (g & Hg & Hgp)]; [now apply Hself |].
    now apply (Hfresh g Hg).
Qed.

Lemma set_crops_same (l : ImageLayer.t) : ImageLayer.set_crops (ImageLayer.crops l) l = l.
Proof. now destruct l. Qed.

(** The cropper writes to the region list of its layer and to nothing else
    of it. *)
Lemma step_edits_crops_only (c : ImageCropper.State) (e : ImageCropper.Event) :
  exists crops',
    ImageCropper.layer (ImageCropper.step c e)
    = ImageLayer.set_crops crops' (ImageCropper.layer c).
Proof.
  assert (Hsame : exists crops',
            ImageCropper.layer c = ImageLayer.set_crops crops' (ImageCropper.layer c)).
  { exists (ImageLayer.crops (ImageCropper.layer c)). now rewrite set_crops_same. }
  destruct e; cbn [ImageCropper.step].
  - exact Hsame.
  - destruct (ImageCropper.displayedCrops c !! i); [| exact Hsame].
    unfold ImageCropper.handleCropMouseDown. destruct (CropRegion.isLocked t); exact Hsame.
  - destruct (ImageCropper.displayedCrops c !! i); [| exact Hsame].
    destruct (_ && _); exact Hsame.
  - unfold ImageCropper.handleWindowMouseMove.
    destruct (ImageCropper.interaction c) as [it |]; [| exact Hsame].
    destruct (ImageCropper.mode_eqb _ _); [exact Hsame |].
    destruct (ImageCropper.initialCrop it); [| exact Hsame].
    destruct (truthy _); exact Hsame.
  - unfold ImageCropper.handleWindowMouseUp.
    destruct (ImageCropper.interaction c) as [it |]; [| exact Hsame].
    destruct (ImageCropper.mode_eqb _ _).
    + destruct (js_gt _ _ && js_gt _ _); [| exact Hsame]. eexists. reflexivity.
    + destruct (ImageCropper.optimisticCrop c), (ImageCropper.activeId it); try exact Hsame.
      destruct (truthy _); [| exact Hsame]. eexists. reflexivity.
  - unfold ImageCropper.handleKeyDown. destruct (_ && _); [| exact Hsame].
    destruct (ImageCropper.activeCropId c); [| exact Hsame].
    destruct (find _ _); [| exact Hsame].
    destruct (negb _); [| exact Hsame].
    unfold ImageCropper.handleDeleteCrop.
    destruct (option_string_eqb _ _); eexists; reflexivity.
Qed.

Lemma run_edits_crops_only (es : list ImageCropper.Event) :
  forall c, exists crops',
    ImageCropper.layer (ImageCropper.run c es)
    = ImageLayer.set_crops crops' (ImageCropper.layer c).
Proof.
  induction es as [| e es IH]; intros c.
  - exists (ImageLayer.crops (ImageCropper.layer c)). cbn. now rewrite set_crops_same.
  - cbn [ImageCropper.run fold_left]. destruct (IH (ImageCropper.step c e)) as (crops2 & H2).
    destruct (step_edits_crops_only c e) as (crops1 & H1).
    exists crops2. unfold ImageCropper.run in H2. rewrite H2, H1. reflexivity.
Qed.

(** X23. Edits made in the cropper reach the library and stay local: after
    any sequence of pointer and key events on the cropper showing a layer
    of a library with distinct layer ids, handing the cropper's layer to
    [handleUpdateLayer] replaces that layer in place; the new layer differs
    from the old one in its region list only, every other layer, the
    groups, the queue and the selection are unchanged, and a well-formed
    library stays well formed. *)
Theorem cropper_edits_reach_library
    (app : State) (c : ImageCropper.State) (es : list ImageCropper.Event) (i : nat) :
  NoDup (map ImageLayer.id (layers app)) ->
  layers app !! i = Some (ImageCropper.layer c) ->
  let edited := ImageCropper.layer (ImageCropper.run c es) in
  let app' := handleUpdateLayer edited app in
  layers app' = <[i := edited]> (layers app) /\
  (exists crops', edited = ImageLayer.set_crops crops' (ImageCropper.layer c)) /\
  groups app' = groups app /\ stitchItems app' = stitchItems app /\
  selectedLibraryIds app' = selectedLibraryIds app /\ activeAssetId app' = activeAssetId app /\
  (well_formed app -> well_formed app').
Proof.
  intros Hnodup Hi edited app'.
  destruct (run_edits_crops_only es c) as (crops' & Hedited). fold edited in Hedited.
  assert (Hid : ImageLayer.id edited = ImageLayer.id (ImageCropper.layer c))
    by now rewrite Hedited.
  assert (Hgroup : ImageLayer.groupId edited = ImageLayer.groupId (ImageCropper.layer c))
    by now rewrite Hedited.
  assert (Hlayers : layers app' = <[i := edited]> (layers app)).
  { subst app'. unfold handleUpdateLayer. cbn [layers setLayers].
    apply list_eq. intros j.
    change (map ?f (layers app)) with (f <$> layers app). rewrite list_lookup_fmap.
    destruct (decide (j = i)) as [-> | Hji].
    - rewrite list_lookup_insert_eq by (eapply lookup_lt_Some; exact Hi).
      rewrite Hi. cbn. now rewrite Hid, String.eqb_refl.
    - rewrite list_lookup_insert_ne by congruence.
      destruct (layers app !! j) as [l |] eqn:Hj; [| reflexivity]. cbn.
      destruct (String.eqb_spec (ImageLayer.id l) (ImageLayer.id edited)) as [Heq | _];
        [| reflexivity].
      exfalso. apply Hji.
      apply (NoDup_lookup _ j i (ImageLayer.id l) Hnodup);
        change (map ?f (layers app)) with (f <$> layers app); rewrite list_lookup_fmap.
      + now rewrite Hj.
      + rewrite Hi. cbn. now rewrite Heq, Hid. }
  split; [exact Hlayers |]. split; [now exists crops' |].
  split; [reflexivity |]. split; [reflexivity |]. split; [reflexivity |]. split; [reflexivity |].
  intros [Hforest Hmembers]. split; [exact Hforest |].
  apply members_consistent_spec. intros l g Hl Hg Hlg.
  rewrite Hlayers in Hl. change (groups app') with (groups app) in Hg.
  apply list_elem_of_lookup in Hl as [j Hj].
  destruct (decide (j = i)) as [-> | Hji].
  - rewrite list_lookup_insert_eq in Hj by (eapply lookup_lt_Some; exact Hi).
    injection Hj as <-. rewrite Hid. rewrite Hgroup in Hlg.
    apply (proj1 (members_consistent_spec app) Hmembers (ImageCropper.layer c) g);
      [apply list_elem_of_lookup; eauto | exact Hg | exact Hlg].
  - rewrite list_lookup_insert_ne in Hj by congruence.
    apply (proj1 (members_consistent_spec app) Hmembers l g);
      [apply list_elem_of_lookup; eauto | exact Hg | exact Hlg].
Qed.

Lemma cropper_edits_reach_library_witness :
  let c := ImageCropper.mkState
             (ImageLayer.mk "layer-1" None "photo.png" "data:image/png;base64,AA" 800 600
                [CropRegion.mk "region-1" 10 10 50 50 true None false])
             None None None None (Some (ImageCropper.mkRect 0 0 400 300)) in
  let es := [ImageCropper.MouseDownCanvas 240 180; ImageCropper.MouseUp 400 300 "region-2"] in
  map (fun l => length (ImageLayer.crops l))
      (layers (handleUpdateLayer (ImageCropper.layer (ImageCropper.run c es)) one_layer_library))
  = [2%nat].
Proof.
  intros c es.
  destruct (cropper_edits_reach_library one_layer_library c es 0) as (-> & _).
  - apply (bool_decide_unpack _). vm_compute. exact I.
  - reflexivity.
  - reflexivity.
Defined.

End LibraryFacts.

(** * Further properties: the library stays well formed *)

Section LibraryInvariant.
Import App.

(** Groups that keep their ids and their parent links, or lose links. *)
Lemma forest_kept groups groups' :
  forest groups ->
  (forall g', g' ∈ groups' ->
     exists g, g ∈ groups /\ AssetGroup.id g = AssetGroup.id g' /\
               (AssetGroup.parentGroupId g' = AssetGroup.parentGroupId g \/
                AssetGroup.parentGroupId g' = None)) ->
  forest groups'.
Proof.
  intros Hforest Hkept. apply (forest_fewer_links groups); [| exact Hforest].
  intros g' p Hg' Hp. destruct (Hkept g' Hg') as (g & Hg & Hid & [Hsame | Hnone]).
  - exists g. split; [exact Hg |]. split; [exact Hid | congruence].
  - congruence.
Qed.

Lemma elem_of_map_inv {T U} (f : T -> U) (l : list T) (y : U) :
  y ∈ map f l -> exists x, x ∈ l /\ y = f x.
Proof.
  intros H. apply list_elem_of_In, in_map_iff in H as (x & <- & Hx).
  exists x. split; [now apply list_elem_of_In | reflexivity].
Qed.

Lemma elem_of_List_filter {T} (f : T -> bool) (l : list T) (x : T) :
  x ∈ List.filter f l <-> x ∈ l /\ f x = true.
Proof. now rewrite list_elem_of_In, filter_In, <- list_elem_of_In. Qed.

Lemma processFile_well_formed uuid type name decoded dragged s :
  well_formed s -> well_formed (processFile uuid type name decoded dragged s).
Proof.
  intros [Hforest Hmembers]. unfold processFile.
  destruct (negb (String.prefix "image/" type)); [now split |].
  destruct decoded as [[[src width] height] |]; [| now split].
  assert (Hwf : well_formed
                  (setLayers (layers s ++ [ImageLayer.mk uuid None name src width height []]) s)).
  { split; [exact Hforest |]. apply members_consistent_spec. intros l g Hl Hg Hlg.
    cbn [layers groups setLayers] in Hl, Hg. apply elem_of_app in Hl as [Hl | Hl].
    - now apply (proj1 (members_consistent_spec s) Hmembers l g).
    - apply list_elem_of_singleton in Hl as ->. discriminate Hlg. }
  destruct (negb (truthy dragged)); [| exact Hwf].
  destruct Hwf as [Hf Hm]. split; [exact Hf | exact Hm].
Qed.

Lemma createGroupFromLayers_well_formed uuid layerIds s0 s :
  fresh_group_id uuid s0 ->
  forest (groups s) ->
  (forall g, g ∈ groups s -> exists g0, g0 ∈ groups s0 /\ AssetGroup.id g0 = AssetGroup.id g /\
                                        AssetGroup.parentGroupId g0 = AssetGroup.parentGroupId g) ->
  (forall l, l ∈ layers s -> l ∈ layers s0) ->
  (forall l g, l ∈ layers s -> g ∈ groups s -> includes layerIds (ImageLayer.id l) = false ->
               ImageLayer.groupId l = Some (AssetGroup.id g) ->
               ImageLayer.id l ∈ AssetGroup.layerIds g) ->
  well_formed (createGroupFromLayers uuid layerIds s).
Proof.
  intros [Hfresh_groups Hfresh_layers] Hforest Hgroups Hlayers Hmembers.
  set (new := AssetGroup.mk uuid ("Group " ++ show_nat (length (groups s) + 1)) layerIds [] None).
  assert (Hgs : groups (createGroupFromLayers uuid layerIds s) = groups s ++ [new]) by reflexivity.
  assert (Hls : layers (createGroupFromLayers uuid layerIds s)
                = map (fun l => if includes layerIds (ImageLayer.id l)
                                then ImageLayer.set_groupId (Some uuid) l else l) (layers s))
    by reflexivity.
  split.
  - rewrite Hgs. apply forest_new_leaf; [exact Hforest | | discriminate].
    intros g Hg. destruct (Hgroups g Hg) as (g0 & Hg0 & _ & Hp). rewrite <- Hp.
    now apply Hfresh_groups.
  - apply members_consistent_spec. intros l' g' Hl' Hg' Hlg. rewrite Hgs in Hg'. rewrite Hls in Hl'.
    apply elem_of_map_inv in Hl' as (l & Hl & ->).
    destruct (includes layerIds (ImageLayer.id l)) eqn:Hinc.
    + cbn in Hlg. injection Hlg as Hlg. apply elem_of_app in Hg' as [Hg' | Hg'].
      * destruct (Hgroups g' Hg') as (g0 & Hg0 & Hid & _).
        destruct (Hfresh_groups g0 Hg0) as [Hne _]. congruence.
      * apply list_elem_of_singleton in Hg' as ->. now apply includes_elem_of.
    + apply elem_of_app in Hg' as [Hg' | Hg'].
      * now apply Hmembers.
      * apply list_elem_of_singleton in Hg' as ->. cbn in Hlg.
        now destruct (Hfresh_layers l (Hlayers l Hl)).
Qed.

Lemma handleCreateGroup_well_formed uuid s :
  fresh_group_id uuid s -> well_formed s -> well_formed (handleCreateGroup uuid s).
Proof.
  intros Hfresh [Hforest Hmembers]. unfold handleCreateGroup.
  destruct (length (selectedLayers s) <? 2)%nat; [now split |].
  destruct (createGroupFromLayers_well_formed uuid (map ImageLayer.id (selectedLayers s)) s s)
    as [Hf Hm]; try assumption.
  - intros g Hg. now exists g.
  - auto.
  - intros l g Hl Hg _. now apply (proj1 (members_consistent_spec s) Hmembers).
  - split; [exact Hf | exact Hm].
Qed.

Lemma handleUngroup_well_formed groupId s :
  well_formed s -> well_formed (handleUngroup groupId s).
Proof.
  intros [Hforest Hmembers].
  set (s1 := setGroups
               (map (fun g => if option_string_eqb (AssetGroup.parentGroupId g) (Some groupId)
                              then AssetGroup.set_parentGroupId None g else g)
                    (List.filter (fun g => negb (String.eqb (AssetGroup.id g) groupId)) (groups s)))
               (setLayers
                  (map (fun l => if option_string_eqb (ImageLayer.groupId l) (Some groupId)
                                 then ImageLayer.set_groupId None l else l) (layers s)) s)).
  assert (Hwf : well_formed s1).
  { assert (Hgroups : forall g', g' ∈ groups s1 ->
              exists g, g ∈ groups s /\ AssetGroup.id g = AssetGroup.id g' /\
                        AssetGroup.layerIds g = AssetGroup.layerIds g' /\
                        (AssetGroup.parentGroupId g' = AssetGroup.parentGroupId g \/
                         AssetGroup.parentGroupId g' = None)).
    { intros g' Hg'. cbn [s1 groups setGroups] in Hg'.
      apply elem_of_map_inv in Hg' as (g & Hg & ->). apply elem_of_List_filter in Hg as [Hg _].
      exists g. split; [exact Hg |]. destruct (option_string_eqb _ _); cbn; auto. }
    split.
    - apply (forest_kept (groups s)); [exact Hforest |]. intros g' Hg'.
      destruct (Hgroups g' Hg') as (g & Hg & Hid & _ & Hp). now exists g.
    - apply members_consistent_spec. intros l' g' Hl' Hg' Hlg.
      destruct (Hgroups g' Hg') as (g & Hg & Hid & Hids & _).
      cbn [s1 layers setGroups setLayers] in Hl'. apply elem_of_map_inv in Hl' as (l & Hl & ->).
      destruct (option_string_eqb (ImageLayer.groupId l) (Some groupId)); [discriminate Hlg |].
      rewrite <- Hids. apply (proj1 (members_consistent_spec s) Hmembers l g Hl Hg). congruence. }
  change (well_formed (if option_string_eqb (activeAssetId s1) (Some groupId)
                       then setActiveAssetId None s1 else s1)).
  destruct (option_string_eqb (activeAssetId s1) (Some groupId)); [| exact Hwf].
  destruct Hwf as [Hf Hm]. split; [exact Hf | exact Hm].
Qed.

Lemma handleDeleteItem_well_formed fuel id type s s' :
  well_formed s -> handleDeleteItem fuel id type s = Some s' -> well_formed s'.
Proof.
  intros [Hforest Hmembers] Hs'. destruct type; cbn [handleDeleteItem] in Hs'.
  - destruct (getSubGroups fuel (groups s) id) as [ids |]; [| discriminate].
    injection Hs' as <-.
    assert (Hgroups : forall keep a,
              groups (setActiveMenuGroupId None
                        match activeAssetId s with
                        | Some b => if truthy (Some b) && keep b then setActiveAssetId None a else a
                        | None => a
                        end) = groups a).
    { intros keep a. destruct (activeAssetId s) as [b |]; [| reflexivity].
      now destruct (_ && _). }
    assert (Hlayers : forall keep a,
              layers (setActiveMenuGroupId None
                        match activeAssetId s with
                        | Some b => if truthy (Some b) && keep b then setActiveAssetId None a else a
                        | None => a
                        end) = layers a).
    { intros keep a. destruct (activeAssetId s) as [b |]; [| reflexivity].
      now destruct (_ && _). }
    split.
    + rewrite Hgroups. cbn [groups setLayers setGroups].
      apply (forest_kept (groups s)); [exact Hforest |]. intros g Hg.
      apply elem_of_List_filter in Hg as [Hg _]. exists g. auto.
    + apply members_consistent_spec. intros l g Hl Hg Hlg.
      rewrite Hlayers in Hl. rewrite Hgroups in Hg. cbn [groups layers setLayers setGroups] in Hl, Hg.
      apply elem_of_List_filter in Hl as [Hl _]. apply elem_of_List_filter in Hg as [Hg _].
      now apply (proj1 (members_consistent_spec s) Hmembers).
  - injection Hs' as <-.
    assert (Hgroups : forall a,
              groups (setActiveMenuGroupId None
                        (if option_string_eqb (activeAssetId s) (Some id)
                         then setActiveAssetId None a else a)) = groups a)
      by (intros a; now destruct (option_string_eqb _ _)).
    assert (Hlayers : forall a,
              layers (setActiveMenuGroupId None
                        (if option_string_eqb (activeAssetId s) (Some id)
                         then setActiveAssetId None a else a)) = layers a)
      by (intros a; now destruct (option_string_eqb _ _)).
    split.
    + rewrite Hgroups. cbn [groups setLayers setGroups].
      apply (forest_kept (groups s)); [exact Hforest |]. intros g' Hg'.
      apply elem_of_map_inv in Hg' as (g & Hg & ->). exists g. auto.
    + apply members_consistent_spec. intros l g' Hl Hg' Hlg.
      rewrite Hlayers in Hl. rewrite Hgroups in Hg'.
      cbn [groups layers setLayers setGroups] in Hl, Hg'.
      apply elem_of_List_filter in Hl as [Hl Hne]. apply elem_of_map_inv in Hg' as (g & Hg & ->).
      cbn [AssetGroup.set_layerIds AssetGroup.layerIds AssetGroup.id] in *.
      apply elem_of_List_filter. split; [| exact Hne].
      now apply (proj1 (members_consistent_spec s) Hmembers).
Qed.

Lemma handleDeleteSelected_well_formed s : well_formed s -> well_formed (handleDeleteSelected s).
Proof.
  intros [Hforest Hmembers]. split.
  - cbn. apply (forest_kept (groups s)); [exact Hforest |]. intros g Hg.
    apply elem_of_List_filter in Hg as [Hg _]. exists g. auto.
  - apply members_consistent_spec. intros l g Hl Hg Hlg.
    unfold handleDeleteSelected in Hl, Hg.
    cbn [groups layers setActiveAssetId setIsSelectionMode setSelectedLibraryIds setLayers setGroups]
      in Hl, Hg.
    apply elem_of_List_filter in Hl as [Hl _]. apply elem_of_List_filter in Hg as [Hg _].
    now apply (proj1 (members_consistent_spec s) Hmembers).
Qed.

Lemma handleCreateSubgroup_well_formed uuid parentGroupId newLayers s :
  fresh_group_id uuid s -> uuid <> parentGroupId -> well_formed s ->
  well_formed (handleCreateSubgroup uuid parentGroupId newLayers s).
Proof.
  intros [Hfresh_groups Hfresh_layers] Hparent [Hforest Hmembers].
  set (s1 := handleCreateSubgroup uuid parentGroupId newLayers s).
  set (new := AssetGroup.mk uuid
                ("Selection Stitch "
                 ++ show_nat (length (List.filter
                                        (fun g => option_string_eqb (AssetGroup.parentGroupId g)
                                                                    (Some parentGroupId))
                                        (groups s)) + 1))
                (map ImageLayer.id newLayers) [] (Some parentGroupId)).
  assert (Hgroups : groups s1 = groups s ++ [new]) by reflexivity.
  assert (Hlayers : layers s1 = layers s ++ map (ImageLayer.set_groupId (Some uuid)) newLayers)
    by reflexivity.
  split.
  - rewrite Hgroups. apply forest_new_leaf; [exact Hforest | |].
    + intros g Hg. now apply Hfresh_groups.
    + cbn. intros H. injection H as H. now apply Hparent.
  - apply members_consistent_spec. intros l g Hl Hg Hlg.
    rewrite Hlayers in Hl. rewrite Hgroups in Hg.
    apply elem_of_app in Hl as [Hl | Hl]; apply elem_of_app in Hg as [Hg | Hg].
    + now apply (proj1 (members_consistent_spec s) Hmembers l g).
    + apply list_elem_of_singleton in Hg as ->. cbn in Hlg. now destruct (Hfresh_layers l Hl).
    + apply elem_of_map_inv in Hl as (l0 & _ & ->). cbn in Hlg.
      injection Hlg as Hlg. destruct (Hfresh_groups g Hg) as [Hid _]. now destruct Hid.
    + apply list_elem_of_singleton in Hg as ->. cbn [AssetGroup.layerIds new].
      apply elem_of_map_inv in Hl as (l0 & Hl0 & ->).
      apply list_elem_of_In, in_map_iff. exists l0. split; [reflexivity | now apply list_elem_of_In].
Qed.

Lemma Forall2_elem_of_r {T U} (R : T -> U -> Prop) (l : list T) (k : list U) (y : U) :
  Forall2 R l k -> y ∈ k -> exists x, x ∈ l /\ R x y.
Proof.
  intros HR Hy. apply list_elem_of_lookup in Hy as [i Hi].
  destruct (Forall2_lookup_r _ _ _ _ _ HR Hi) as (x & Hx & Hxy).
  exists x. split; [apply list_elem_of_lookup; eauto | exact Hxy].
Qed.

Lemma members_permuted_well_formed groupId gs s :
  Forall2 (members_permuted groupId) (groups s) gs -> well_formed s ->
  well_formed (setGroups gs s).
Proof.
  intros Hperm [Hforest Hmembers].
  assert (Hgroups : forall g', g' ∈ gs ->
            exists g, g ∈ groups s /\ AssetGroup.id g = AssetGroup.id g' /\
                      AssetGroup.parentGroupId g' = AssetGroup.parentGroupId g /\
                      forall x, x ∈ AssetGroup.layerIds g -> x ∈ AssetGroup.layerIds g').
  { intros g' Hg'. destruct (Forall2_elem_of_r _ _ _ _ Hperm Hg') as (g & Hg & Hgg').
    exists g. split; [exact Hg |].
    destruct Hgg' as [(_ & ids' & Hp & ->) | (_ & ->)]; cbn; [| auto].
    split; [reflexivity |]. split; [reflexivity |]. intros x Hx. now rewrite Hp. }
  split.
  - apply (forest_kept (groups s)); [exact Hforest |]. intros g' Hg'.
    destruct (Hgroups g' Hg') as (g & Hg & Hid & Hp & _). exists g. auto.
  - apply members_consistent_spec. intros l g' Hl Hg' Hlg.
    destruct (Hgroups g' Hg') as (g & Hg & Hid & _ & Hids).
    apply Hids, (proj1 (members_consistent_spec s) Hmembers l g Hl Hg). congruence.
Qed.

Lemma indexOf_from_spec ids id :
  forall i, indexOf_from i ids id = (-1)%Z \/
            exists k, indexOf_from i ids id = Z.of_nat (i + k) /\ ids !! k = Some id.
Proof.
  induction ids as [| x ids IH]; intros i; [now left |]. cbn [indexOf_from].
  destruct (String.eqb_spec x id) as [-> | _].
  - right. exists 0%nat. split; [f_equal; lia | reflexivity].
  - destruct (IH (S i)) as [H | (k & Hk & Hid)]; [now left |].
    right. exists (S k). split; [rewrite Hk; f_equal; lia | exact Hid].
Qed.

(** The member list after a drop inside a group is a rearrangement of the
    list before, without [undefined] entries. *)
Lemma droppedIds_typed layerIds sourceId targetId :
  exists ids', typed (droppedIds layerIds sourceId targetId) = Some ids' /\ ids' ≡ₚ layerIds.
Proof.
  unfold droppedIds, indexOf.
  destruct (indexOf_from_spec layerIds sourceId 0) as [-> | (k & -> & Hk)];
    [exists layerIds; split; [apply typed_Some | reflexivity] |].
  destruct (indexOf_from_spec layerIds targetId 0) as [-> | (j & -> & _)];
    [exists layerIds; rewrite andb_false_r; split; [apply typed_Some | reflexivity] |].
  cbn [Nat.add].
  assert (Hk' : (Z.of_nat k =? -1)%Z = false) by (apply Z.eqb_neq; lia).
  assert (Hj' : (Z.of_nat j =? -1)%Z = false) by (apply Z.eqb_neq; lia).
  rewrite Hk', Hj'. cbn [negb andb].
  rewrite (splice_remove _ _ (Some sourceId)) by now rewrite list_lookup_fmap, Hk.
  cbn [fst].
  destruct (splice_insert (delete k (Some <$> layerIds)) (Z.of_nat j) (Some sourceId)) as (n & ->).
  exists (take n (delete k layerIds) ++ sourceId :: drop n (delete k layerIds)). split.
  - assert (Heq : take n (delete k (Some <$> layerIds))
                  ++ Some sourceId :: drop n (delete k (Some <$> layerIds))
                  = Some <$> (take n (delete k layerIds) ++ sourceId :: drop n (delete k layerIds)))
      by now rewrite fmap_app, fmap_cons, fmap_take, fmap_drop, list_fmap_delete.
    rewrite Heq. apply typed_Some.
  - rewrite <- Permutation_middle, take_drop. symmetry. now apply delete_Permutation.
Qed.

Lemma removeLayerFromGroup_groups layerId groupId s :
  layers (removeLayerFromGroup layerId groupId s) = layers s /\
  forall g1, g1 ∈ groups (removeLayerFromGroup layerId groupId s) ->
    exists g, g ∈ groups s /\ AssetGroup.id g = AssetGroup.id g1 /\
              AssetGroup.parentGroupId g1 = AssetGroup.parentGroupId g /\
              (AssetGroup.layerIds g1 = AssetGroup.layerIds g \/
               AssetGroup.id g = groupId /\
               exists g0, g0 ∈ groups s /\ AssetGroup.id g0 = groupId /\
                          forall x, x ∈ AssetGroup.layerIds g0 -> x <> layerId ->
                                    x ∈ AssetGroup.layerIds g1).
Proof.
  unfold removeLayerFromGroup.
  destruct (find _ _) as [g0 |] eqn:Hfind.
  - apply find_some in Hfind as [Hg0 Hid0]. apply String.eqb_eq in Hid0.
    split; [reflexivity |]. intros g1 Hg1. cbn [groups setGroups] in Hg1.
    apply elem_of_map_inv in Hg1 as (g & Hg & ->). exists g. split; [exact Hg |].
    destruct (String.eqb_spec (AssetGroup.id g) groupId) as [Heq | _]; [| auto].
    cbn. split; [reflexivity |]. split; [reflexivity |]. right. split; [exact Heq |].
    exists g0. split; [now apply list_elem_of_In |]. split; [exact Hid0 |].
    intros x Hx Hne. apply elem_of_List_filter. split; [exact Hx |]. now apply negb_eqb_true.
  - split; [reflexivity |]. intros g1 Hg1. exists g1. auto.
Qed.

(** After the dragged layer has left its group, every other layer is still
    listed by the group it names. *)
Lemma source_removed sourceLayer s :
  well_formed s ->
  let s1 := match ImageLayer.groupId sourceLayer with
            | Some old => if truthy (Some old)
                          then removeLayerFromGroup (ImageLayer.id sourceLayer) old s else s
            | None => s
            end in
  layers s1 = layers s /\ expandedGroupIds s1 = expandedGroupIds s /\
  length (groups s1) = length (groups s) /\
  (forall g1, g1 ∈ groups s1 ->
     exists g, g ∈ groups s /\ AssetGroup.id g = AssetGroup.id g1 /\
               AssetGroup.parentGroupId g = AssetGroup.parentGroupId g1) /\
  (forall l g1, l ∈ layers s -> g1 ∈ groups s1 ->
     ImageLayer.id l <> ImageLayer.id sourceLayer ->
     ImageLayer.groupId l = Some (AssetGroup.id g1) ->
     ImageLayer.id l ∈ AssetGroup.layerIds g1).
Proof.
  intros [Hforest Hmembers] s1.
  assert (Hsame : layers s = layers s /\ expandedGroupIds s = expandedGroupIds s /\
                  length (groups s) = length (groups s) /\
                  (forall g1, g1 ∈ groups s ->
                     exists g, g ∈ groups s /\ AssetGroup.id g = AssetGroup.id g1 /\
                               AssetGroup.parentGroupId g = AssetGroup.parentGroupId g1) /\
                  (forall l g1, l ∈ layers s -> g1 ∈ groups s ->
                     ImageLayer.id l <> ImageLayer.id sourceLayer ->
                     ImageLayer.groupId l = Some (AssetGroup.id g1) ->
                     ImageLayer.id l ∈ AssetGroup.layerIds g1)).
  { split; [reflexivity |]. split; [reflexivity |]. split; [reflexivity |]. split.
    - intros g1 Hg1. now exists g1.
    - intros l g1 Hl Hg1 _. now apply (proj1 (members_consistent_spec s) Hmembers). }
  subst s1. destruct (ImageLayer.groupId sourceLayer) as [old |]; [| exact Hsame].
  destruct (truthy (Some old)); [| exact Hsame].
  destruct (removeLayerFromGroup_groups (ImageLayer.id sourceLayer) old s) as [Hlayers Hgroups].
  split; [exact Hlayers |]. split.
  { unfold removeLayerFromGroup. now destruct (find _ _). }
  split.
  { unfold removeLayerFromGroup. destruct (find _ _); [| reflexivity].
    cbn [groups setGroups]. apply length_map. }
  split.
  - intros g1 Hg1. destruct (Hgroups g1 Hg1) as (g & Hg & Hid & Hp & _). exists g. auto.
  - intros l g1 Hl Hg1 Hne Hlg.
    destruct (Hgroups g1 Hg1) as (g & Hg & Hid & _ & [Hids | (Hold & g0 & Hg0 & Hid0 & Hkeep)]).
    + rewrite Hids. apply (proj1 (members_consistent_spec s) Hmembers l g Hl Hg). congruence.
    + apply Hkeep; [| exact Hne].
      apply (proj1 (members_consistent_spec s) Hmembers l g0 Hl Hg0). congruence.
Qed.

Lemma moveLayerToGroup_well_formed sourceLayer groupId s :
  well_formed s ->
  well_formed (moveLayerToGroup sourceLayer (ImageLayer.id sourceLayer) groupId s).
Proof.
  intros Hwf. destruct (source_removed sourceLayer s Hwf) as (Hlayers & _ & _ & Hgroups & Hothers).
  destruct Hwf as [Hforest Hmembers].
  unfold moveLayerToGroup.
  set (s1 := match ImageLayer.groupId sourceLayer with
             | Some old => if truthy (Some old)
                           then removeLayerFromGroup (ImageLayer.id sourceLayer) old s else s
             | None => s
             end) in *.
  split.
  - cbn [groups setExpandedGroupIds setLayers setGroups].
    apply (forest_kept (groups s)); [exact Hforest |]. intros g' Hg'.
    apply elem_of_map_inv in Hg' as (g1 & Hg1 & ->).
    destruct (Hgroups g1 Hg1) as (g & Hg & Hid & Hp). exists g. split; [exact Hg |].
    destruct (String.eqb _ _); cbn; auto.
  - apply members_consistent_spec. intros l' g' Hl' Hg' Hlg.
    cbn [groups layers setExpandedGroupIds setLayers setGroups] in Hl', Hg'.
    rewrite Hlayers in Hl'.
    apply elem_of_map_inv in Hl' as (l & Hl & ->). apply elem_of_map_inv in Hg' as (g1 & Hg1 & ->).
    destruct (String.eqb_spec (ImageLayer.id l) (ImageLayer.id sourceLayer)) as [Heq | Hne].
    + cbn in Hlg. injection Hlg as Hlg.
      destruct (String.eqb_spec (AssetGroup.id g1) groupId) as [_ | Hne].
      * cbn. apply elem_of_app. right. rewrite Heq. now left.
      * now destruct Hne.
    + assert (Hin : ImageLayer.id l ∈ AssetGroup.layerIds g1).
      { apply Hothers; [exact Hl | exact Hg1 | exact Hne |].
        destruct (String.eqb _ _); exact Hlg. }
      destruct (String.eqb _ _); [| exact Hin]. cbn. apply elem_of_app. now left.
Qed.

Lemma fresh_group_id_kept uuid s s1 :
  fresh_group_id uuid s -> layers s1 = layers s ->
  (forall g1, g1 ∈ groups s1 ->
     exists g, g ∈ groups s /\ AssetGroup.id g = AssetGroup.id g1 /\
               AssetGroup.parentGroupId g = AssetGroup.parentGroupId g1) ->
  fresh_group_id uuid s1.
Proof.
  intros [Hgroups Hlayers] Hsame Hkept. split.
  - intros g1 Hg1. destruct (Hkept g1 Hg1) as (g & Hg & <- & <-). now apply Hgroups.
  - intros l Hl. rewrite Hsame in Hl. now apply Hlayers.
Qed.

(** A drop on a library item always returns and keeps the library well
    formed. *)
Lemma handleLibraryDropItem_well_formed uuid dragged targetId isTargetGroup s :
  fresh_group_id uuid s -> well_formed s ->
  exists s', handleLibraryDropItem uuid dragged targetId isTargetGroup s = Some s' /\
             well_formed s'.
Proof.
  intros Hfresh Hwf. unfold handleLibraryDropItem.
  destruct (negb (truthy dragged) || option_string_eqb dragged (Some targetId));
    [now exists s |].
  destruct dragged as [sourceId |]; [| now exists s].
  destruct (find (fun l => String.eqb (ImageLayer.id l) sourceId) (layers s))
    as [sourceLayer |] eqn:Hsource; [| now exists s].
  apply find_some in Hsource as [Hsource Hid]. apply String.eqb_eq in Hid. subst sourceId.
  set (targetLayer := find (fun l => String.eqb (ImageLayer.id l) targetId) (layers s)).
  destruct (truthy (ImageLayer.groupId sourceLayer) && truthy (targetLayer ≫= ImageLayer.groupId)
            && option_string_eqb (ImageLayer.groupId sourceLayer)
                                 (targetLayer ≫= ImageLayer.groupId)).
  { destruct (ImageLayer.groupId sourceLayer) as [groupId |]; [| now exists s].
    match goal with |- context [mapM ?f (groups s)] => set (update := f) end.
    assert (H : exists gs, Forall2 (fun g g' => update g = Some g') (groups s) gs /\
                           Forall2 (members_permuted groupId) (groups s) gs).
    { induction (groups s) as [| g gs IH]; [exists []; split; constructor |].
      destruct IH as (gs' & Hmap & Hperm).
      assert (Hg : exists g', update g = Some g' /\ members_permuted groupId g g').
      { subst update. cbn beta.
        destruct (String.eqb_spec (AssetGroup.id g) groupId) as [Heq | Hne]; cbn [negb].
        - destruct (droppedIds_typed (AssetGroup.layerIds g) (ImageLayer.id sourceLayer) targetId)
            as (ids' & -> & Hp).
          eexists. split; [reflexivity |]. left. split; [exact Heq |]. now exists ids'.
        - exists g. split; [reflexivity |]. right. now split. }
      destruct Hg as (g' & Hg' & Hpg). exists (g' :: gs'). split; now constructor. }
    destruct H as (gs & Hmap & Hperm). apply mapM_Some_2 in Hmap. rewrite Hmap.
    eexists. split; [reflexivity |]. now apply (members_permuted_well_formed groupId). }
  destruct isTargetGroup.
  { destruct (find _ (groups s)); [| now exists s].
    destruct (negb _); [| now exists s].
    eexists. split; [reflexivity |]. now apply moveLayerToGroup_well_formed. }
  destruct targetLayer as [target |]; [| now exists s].
  destruct (truthy (ImageLayer.groupId target)).
  { destruct (ImageLayer.groupId target) as [targetGroupId |]; [| now exists s].
    destruct (negb _); [| now exists s].
    eexists. split; [reflexivity |]. now apply moveLayerToGroup_well_formed. }
  eexists. split; [reflexivity |].
  destruct (source_removed sourceLayer s Hwf) as (Hlayers & _ & _ & Hgroups & Hothers).
  destruct Hwf as [Hforest Hmembers].
  set (s1 := match ImageLayer.groupId sourceLayer with
             | Some old => if truthy (Some old)
                           then removeLayerFromGroup (ImageLayer.id sourceLayer) old s else s
             | None => s
             end) in *.
  apply (createGroupFromLayers_well_formed uuid _ s s1 Hfresh).
  - apply (forest_kept (groups s)); [exact Hforest |]. intros g1 Hg1.
    destruct (Hgroups g1 Hg1) as (g & Hg & Hid & Hp). exists g. auto.
  - intros g1 Hg1. destruct (Hgroups g1 Hg1) as (g & Hg & Hid & Hp). now exists g.
  - intros l Hl. now rewrite <- Hlayers.
  - intros l g1 Hl Hg1 Hinc Hlg. rewrite Hlayers in Hl.
    apply Hothers; [exact Hl | exact Hg1 | | exact Hlg].
    intros Heq. apply not_true_iff_false in Hinc. apply Hinc, includes_elem_of.
    rewrite Heq. right. now left.
Qed.

Lemma handleReorderGroup_well_formed groupId fromIndex toIndex s s' :
  (forall g, g ∈ groups s -> AssetGroup.id g = groupId ->
             (0 <= fromIndex < Z.of_nat (length (AssetGroup.layerIds g)))%Z) ->
  well_formed s -> handleReorderGroup groupId fromIndex toIndex s = Some s' -> well_formed s'.
Proof.
  intros Hindex Hwf Hs'.
  destruct (handleReorderGroup_permutes groupId fromIndex toIndex s Hindex)
    as (s2 & Hs2 & Hperm & _).
  rewrite Hs' in Hs2. injection Hs2 as <-.
  unfold handleReorderGroup in Hs'. destruct (mapM _ _) as [gs |]; [| discriminate].
  injection Hs' as <-. cbn [groups setGroups] in Hperm.
  now apply (members_permuted_well_formed groupId).
Qed.

Lemma handleUpdateLayer_well_formed updatedLayer s :
  (forall l, l ∈ layers s -> ImageLayer.id l = ImageLayer.id updatedLayer ->
             ImageLayer.groupId l = ImageLayer.groupId updatedLayer) ->
  well_formed s -> well_formed (handleUpdateLayer updatedLayer s).
Proof.
  intros Hsame [Hforest Hmembers]. split; [exact Hforest |].
  apply members_consistent_spec. intros l' g Hl' Hg Hlg.
  cbn [handleUpdateLayer layers groups setLayers] in Hl', Hg.
  apply elem_of_map_inv in Hl' as (l & Hl & ->).
  destruct (String.eqb_spec (ImageLayer.id l) (ImageLayer.id updatedLayer)) as [Heq | _].
  - rewrite <- Heq. apply (proj1 (members_consistent_spec s) Hmembers l g Hl Hg).
    now rewrite (Hsame l Hl Heq).
  - now apply (proj1 (members_consistent_spec s) Hmembers).
Qed.

(** Handlers that change neither an id, a parent link, a member list nor a
    layer's group. *)
Lemma same_graph_well_formed s s' :
  (forall g', g' ∈ groups s' ->
     exists g, g ∈ groups s /\ AssetGroup.id g = AssetGroup.id g' /\
               AssetGroup.parentGroupId g = AssetGroup.parentGroupId g' /\
               AssetGroup.layerIds g = AssetGroup.layerIds g') ->
  (forall l', l' ∈ layers s' ->
     exists l, l ∈ layers s /\ ImageLayer.id l = ImageLayer.id l' /\
               ImageLayer.groupId l = ImageLayer.groupId l') ->
  well_formed s -> well_formed s'.
Proof.
  intros Hgroups Hlayers [Hforest Hmembers]. split.
  - apply (forest_kept (groups s)); [exact Hforest |]. intros g' Hg'.
    destruct (Hgroups g' Hg') as (g & Hg & Hid & Hp & _). exists g. auto.
  - apply members_consistent_spec. intros l' g' Hl' Hg' Hlg.
    destruct (Hgroups g' Hg') as (g & Hg & Hid & _ & Hids).
    destruct (Hlayers l' Hl') as (l & Hl & Hlid & Hlgroup).
    rewrite <- Hids, <- Hlid. apply (proj1 (members_consistent_spec s) Hmembers l g Hl Hg).
    congruence.
Qed.

Lemma handleAddToStitch_well_formed uuid layerId cropId s :
  well_formed s -> well_formed (handleAddToStitch uuid layerId cropId s).
Proof.
  apply same_graph_well_formed.
  - intros g' Hg'. unfold handleAddToStitch in Hg'.
    destruct (existsb _ _); [now exists g' |].
    destruct (find _ _); [| now exists g'].
    cbn [groups setStitchItems setGroups] in Hg'.
    apply elem_of_map_inv in Hg' as (g & Hg & ->). exists g. split; [exact Hg |].
    now destruct (negb _).
  - intros l' Hl'. unfold handleAddToStitch in Hl'.
    destruct (existsb _ _).
    + cbn [layers setStitchItems setLayers] in Hl'.
      apply elem_of_map_inv in Hl' as (l & Hl & ->). exists l. split; [exact Hl |].
      now destruct (negb _).
    + destruct (find _ _); now exists l'.
Qed.

Lemma handleUpdateGroupCrops_well_formed groupId newCrops s :
  well_formed s -> well_formed (handleUpdateGroupCrops groupId newCrops s).
Proof.
  apply same_graph_well_formed.
  - intros g' Hg'. cbn [handleUpdateGroupCrops groups setGroups] in Hg'.
    apply elem_of_map_inv in Hg' as (g & Hg & ->). exists g. split; [exact Hg |].
    now destruct (String.eqb _ _).
  - intros l' Hl'. now exists l'.
Qed.

Lemma handleRenameGroup_well_formed trimmed groupId newName s :
  well_formed s -> well_formed (handleRenameGroup trimmed groupId newName s).
Proof.
  unfold handleRenameGroup. destruct (negb _); [auto |].
  apply same_graph_well_formed.
  - intros g' Hg'. cbn [groups setGroups] in Hg'.
    apply elem_of_map_inv in Hg' as (g & Hg & ->). exists g. split; [exact Hg |].
    now destruct (String.eqb _ _).
  - intros l' Hl'. now exists l'.
Qed.

(** Every handler keeps the library well formed. *)
Lemma perform_well_formed a s s' :
  well_formed s -> admissible s a -> perform a s = Some s' -> well_formed s'.
Proof.
  intros Hwf Hadm Hs'. destruct a; cbn [perform admissible] in Hadm, Hs'.
  - injection Hs' as <-. now apply processFile_well_formed.
  - injection Hs' as <-. exact Hwf.
  - injection Hs' as <-. now apply handleCreateGroup_well_formed.
  - injection Hs' as <-. now apply handleUngroup_well_formed.
  - now apply (handleDeleteItem_well_formed fuel id type s).
  - injection Hs' as <-. now apply handleDeleteSelected_well_formed.
  - injection Hs' as <-. destruct Hadm. now apply handleCreateSubgroup_well_formed.
  - destruct (handleLibraryDropItem_well_formed uuid draggedLibraryItemId targetId isTargetGroup
                s Hadm Hwf) as (s2 & Hs2 & Hwf2).
    rewrite Hs' in Hs2. now injection Hs2 as <-.
  - now apply (handleReorderGroup_well_formed groupId fromIndex toIndex s).
  - injection Hs' as <-. now apply handleUpdateLayer_well_formed.
  - injection Hs' as <-. now apply handleUpdateGroupCrops_well_formed.
  - injection Hs' as <-. now apply handleRenameGroup_well_formed.
  - injection Hs' as <-. now apply handleAddToStitch_well_formed.
Qed.

Lemma perform_reachable_well_formed s : reachable s -> well_formed s.
Proof.
  induction 1 as [| s a s' _ IH Hadm Hs'].
  - split.
    + intros g p Hg. inversion Hg.
    + constructor.
  - now apply (perform_well_formed a s).
Qed.

(** X24. Every library the handlers can produce from the empty one, with
    fresh ids for new groups, is well formed: the parent links form a
    forest and every layer that names a group is listed among that group's
    members.  Hence in every such library deleting a group returns, for
    every recursion depth beyond the number of groups. *)
Theorem reachable_libraries_are_well_formed (s : State) :
  reachable s ->
  well_formed s /\
  forall id fuel, (length (groups s) < fuel)%nat -> is_Some (handleDeleteItem fuel id group s).
Proof.
  intros Hreach. pose proof (perform_reachable_well_formed s Hreach) as Hwf.
  split; [exact Hwf |]. intros id fuel Hfuel. unfold handleDeleteItem.
  destruct (getSubGroups_total (groups s) fuel id (proj1 Hwf) Hfuel) as [ids ->]. now eexists.
Qed.

Lemma two_layer_group_reachable : reachable two_layer_group.
Proof.
  unfold two_layer_group.
  eapply (reachable_step _ (CreateGroup "group-1")); [| | reflexivity].
  - eapply (reachable_step _ (ToggleSelection "layer-2")); [| exact I | reflexivity].
    eapply (reachable_step _ (ToggleSelection "layer-1")); [| exact I | reflexivity].
    eapply (reachable_step _ (Import "layer-2" "image/png" "b.png" _ None));
      [| exact I | reflexivity].
    eapply (reachable_step _ (Import "layer-1" "image/jpeg" "a.jpg" _ None));
      [| exact I | reflexivity].
    apply reachable_empty.
  - split.
    + intros g Hg. apply list_elem_of_In in Hg. destruct Hg.
    + intros l Hl. apply list_elem_of_In in Hl. cbn in Hl.
      destruct Hl as [<- | [<- | []]]; discriminate.
Defined.

Lemma two_layer_group_well_formed : well_formed two_layer_group.
Proof. apply (perform_reachable_well_formed _ two_layer_group_reachable). Qed.

Lemma nested_library_well_formed : well_formed nested_library.
Proof.
  split.
  - apply parents_precede_forest. intros i j gi gj Hi Hj Hp.
    destruct j as [| [| [| [| j]]]]; cbn in Hj; try discriminate;
      injection Hj as <-; cbn in Hp; try discriminate;
      destruct i as [| [| [| [| i]]]]; cbn in Hi; try discriminate;
      injection Hi as <-; cbn in Hp; try discriminate; lia.
  - repeat constructor; cbn; try discriminate; intros _;
      apply list_elem_of_In; cbn; tauto.
Qed.

Lemma reachable_libraries_are_well_formed_witness :
  well_formed two_layer_group /\
  map AssetGroup.layerIds (groups two_layer_group) = [["layer-1"; "layer-2"]]%string /\
  is_Some (handleDeleteItem 2 "group-1" group two_layer_group).
Proof.
  destruct (reachable_libraries_are_well_formed two_layer_group two_layer_group_reachable)
    as [Hwf Hdelete].
  split; [exact Hwf |]. split; [vm_compute; reflexivity |]. apply Hdelete. vm_compute. lia.
Defined.

(** X22. A subgroup made by [handleCreateSubgroup] under a fresh id is
    appended after the existing groups with the given parent and the new
    layers as its members, the layers being appended to the library with
    the subgroup as their group; it is opened in the editor and expanded
    together with its parent.  The library stays well formed, and deleting
    the parent afterwards returns and takes the subgroup and all its layers
    with it. *)
Theorem subgroup_is_deleted_with_its_parent
    (uuid parentGroupId : string) (newLayers : list ImageLayer.t) (s : State) (fuel : nat) :
  well_formed s -> fresh_group_id uuid s -> uuid <> parentGroupId ->
  (length (groups s) + 1 < fuel)%nat ->
  let s1 := handleCreateSubgroup uuid parentGroupId newLayers s in
  (exists name,
     groups s1 = groups s ++ [AssetGroup.mk uuid name (map ImageLayer.id newLayers) []
                                            (Some parentGroupId)]) /\
  layers s1 = layers s ++ map (ImageLayer.set_groupId (Some uuid)) newLayers /\
  activeAssetId s1 = Some uuid /\
  uuid ∈ expandedGroupIds s1 /\ parentGroupId ∈ expandedGroupIds s1 /\
  well_formed s1 /\
  exists s2,
    handleDeleteItem fuel parentGroupId group s1 = Some s2 /\
    Forall (fun g => AssetGroup.id g <> uuid /\ AssetGroup.id g <> parentGroupId) (groups s2) /\
    Forall (fun l => ImageLayer.id l ∉ map ImageLayer.id newLayers) (layers s2).
Proof.
  intros Hwf Hfresh Hparent Hfuel s1.
  destruct (handleCreateSubgroup_well_formed uuid parentGroupId newLayers s Hfresh Hparent Hwf)
    as [Hforest1 Hmembers1].
  fold s1 in Hforest1, Hmembers1.
  set (new := AssetGroup.mk uuid
                ("Selection Stitch "
                 ++ show_nat (length (List.filter
                                        (fun g => option_string_eqb (AssetGroup.parentGroupId g)
                                                                    (Some parentGroupId))
                                        (groups s)) + 1))
                (map ImageLayer.id newLayers) [] (Some parentGroupId)).
  assert (Hgroups : groups s1 = groups s ++ [new]) by reflexivity.
  assert (Hlayers : layers s1 = layers s ++ map (ImageLayer.set_groupId (Some uuid)) newLayers)
    by reflexivity.
  split; [now eexists |]. split; [exact Hlayers |]. split; [reflexivity |].
  split; [cbn; set_solver |]. split; [cbn; set_solver |]. split; [now split |].
  assert (Hlen : (length (groups s1) < fuel)%nat).
  { rewrite Hgroups, length_app. cbn. lia. }
  destruct (getSubGroups_total (groups s1) fuel parentGroupId Hforest1 Hlen) as [ids Hids].
  pose proof (getSubGroups_spec _ _ _ _ Hids) as Hspec.
  assert (Hnew : new ∈ groups s1).
  { rewrite Hgroups. apply elem_of_app. right. now left. }
  assert (Hsub : includes ids uuid = true).
  { apply Hspec. apply (descendant_child _ _ new parentGroupId); [exact Hnew | reflexivity |].
    constructor. }
  assert (Hroot : includes ids parentGroupId = true) by (apply Hspec; constructor).
  unfold handleDeleteItem. rewrite Hids. eexists. split; [reflexivity |].
  split.
  - assert (Hgs : forall g,
              g ∈ List.filter (fun g => negb (includes ids (AssetGroup.id g))) (groups s1) ->
              AssetGroup.id g <> uuid /\ AssetGroup.id g <> parentGroupId).
    { intros g Hg. apply list_elem_of_In, filter_In in Hg as [_ Hg].
      apply negb_true_iff in Hg. split; intros Heq; rewrite Heq in Hg; congruence. }
    apply Forall_forall. intros g Hg. apply Hgs.
    destruct (activeAssetId s1) as [a |]; [| exact Hg].
    destruct (_ && _); exact Hg.
  - assert (Hls : forall l,
              l ∈ List.filter
                    (fun l => negb (bool_decide
                                      (ImageLayer.id l ∈ collectLayerIds ids (groups s1))))
                    (layers s1) ->
              ImageLayer.id l ∉ map ImageLayer.id newLayers).
    { intros l Hl Hin. apply list_elem_of_In, filter_In in Hl as [_ Hl].
      apply negb_true_iff, bool_decide_eq_false in Hl. apply Hl.
      apply collectLayerIds_spec. exists new. split; [exact Hnew |]. split; [exact Hsub | exact Hin]. }
    apply Forall_forall. intros l Hl. apply Hls.
    destruct (activeAssetId s1) as [a |]; [| exact Hl].
    destruct (_ && _); exact Hl.
Qed.

Lemma subgroup_is_deleted_with_its_parent_witness :
  exists s2,
    handleDeleteItem 6 "group-1" group
      (handleCreateSubgroup "group-5" "group-1"
         [ImageLayer.mk "layer-7" None "g.png" "data:image/png;base64,AA" 800 600 []]
         nested_library) = Some s2 /\
    Forall (fun g => AssetGroup.id g <> "group-5"%string /\ AssetGroup.id g <> "group-1"%string)
           (groups s2).
Proof.
  destruct (subgroup_is_deleted_with_its_parent "group-5" "group-1"
              [ImageLayer.mk "layer-7" None "g.png" "data:image/png;base64,AA" 800 600 []]
              nested_library 6)
    as (_ & _ & _ & _ & _ & _ & s2 & Hs2 & Hgroups & _).
  - apply nested_library_well_formed.
  - split.
    + intros g Hg. apply list_elem_of_In in Hg. cbn in Hg.
      destruct Hg as [<- | [<- | [<- | [<- | []]]]]; split; discriminate.
    + intros l Hl. apply list_elem_of_In in Hl. cbn in Hl.
      destruct Hl as [<- | [<- | [<- | [<- | [<- | [<- | []]]]]]]; discriminate.
  - discriminate.
  - cbn. lia.
  - exists s2. split; [exact Hs2 | exact Hgroups].
Defined.

Lemma map_id_layers_if (f : ImageLayer.t -> bool) (v : option string) (ls : list ImageLayer.t) :
  map ImageLayer.id (map (fun l => if f l then ImageLayer.set_groupId v l else l) ls)
  = map ImageLayer.id ls.
Proof. rewrite map_map. apply map_ext. intros l. now destruct (f l). Qed.

Lemma map_id_groups_if (f : AssetGroup.t -> bool) (h : AssetGroup.t -> list string)
    (gs : list AssetGroup.t) :
  map AssetGroup.id (map (fun g => if f g then AssetGroup.set_layerIds (h g) g else g) gs)
  = map AssetGroup.id gs.
Proof. rewrite map_map. apply map_ext. intros g. now destruct (f g). Qed.

Lemma removeLayerFromGroup_ids layerId groupId s :
  map AssetGroup.id (groups (removeLayerFromGroup layerId groupId s))
  = map AssetGroup.id (groups s) /\
  layers (removeLayerFromGroup layerId groupId s) = layers s /\
  stitchItems (removeLayerFromGroup layerId groupId s) = stitchItems s.
Proof.
  unfold removeLayerFromGroup. destruct (find _ _) as [g0 |]; [| now split].
  split; [| now split]. cbn [groups setGroups].
  apply (map_id_groups_if (fun g => String.eqb (AssetGroup.id g) groupId) (fun _ => _)).
Qed.

Lemma source_removed_ids sourceLayer s :
  let s1 := match ImageLayer.groupId sourceLayer with
            | Some old => if truthy (Some old)
                          then removeLayerFromGroup (ImageLayer.id sourceLayer) old s else s
            | None => s
            end in
  map AssetGroup.id (groups s1) = map AssetGroup.id (groups s) /\
  layers s1 = layers s /\ stitchItems s1 = stitchItems s.
Proof.
  cbn zeta. destruct (ImageLayer.groupId sourceLayer) as [old |]; [| now split].
  destruct (truthy (Some old)); [apply removeLayerFromGroup_ids | now split].
Qed.

Lemma moveLayerToGroup_ids sourceLayer sourceId groupId s :
  map AssetGroup.id (groups (moveLayerToGroup sourceLayer sourceId groupId s))
  = map AssetGroup.id (groups s) /\
  map ImageLayer.id (layers (moveLayerToGroup sourceLayer sourceId groupId s))
  = map ImageLayer.id (layers s) /\
  stitchItems (moveLayerToGroup sourceLayer sourceId groupId s) = stitchItems s.
Proof.
  destruct (source_removed_ids sourceLayer s) as (Hgroups & Hlayers & Hitems).
  unfold moveLayerToGroup. cbn [groups layers stitchItems setExpandedGroupIds setLayers setGroups].
  split; [| split].
  - rewrite <- Hgroups.
    apply (map_id_groups_if (fun g => String.eqb (AssetGroup.id g) groupId)
                            (fun g => AssetGroup.layerIds g ++ [sourceId])).
  - etransitivity; [apply map_id_layers_if |]. f_equal. exact Hlayers.
  - exact Hitems.
Qed.

Lemma Forall2_same_ids (f : AssetGroup.t -> option AssetGroup.t) (gs gs' : list AssetGroup.t) :
  Forall2 (fun g g' => f g = Some g') gs gs' ->
  (forall g g', f g = Some g' -> AssetGroup.id g' = AssetGroup.id g) ->
  map AssetGroup.id gs' = map AssetGroup.id gs.
Proof.
  intros Hmap Hid. induction Hmap as [| g g' gs gs' Hg _ IH]; [reflexivity |].
  cbn [map]. f_equal; [now apply Hid | exact IH].
Qed.

Lemma handleLibraryDropItem_ids uuid dragged targetId isTargetGroup s s' :
  handleLibraryDropItem uuid dragged targetId isTargetGroup s = Some s' ->
  map ImageLayer.id (layers s') = map ImageLayer.id (layers s) /\
  (map AssetGroup.id (groups s') = map AssetGroup.id (groups s) \/
   map AssetGroup.id (groups s') = map AssetGroup.id (groups s) ++ [uuid]) /\
  stitchItems s' = stitchItems s.
Proof.
  assert (Hsame : forall s0, Some s = Some s0 ->
            map ImageLayer.id (layers s0) = map ImageLayer.id (layers s) /\
            (map AssetGroup.id (groups s0) = map AssetGroup.id (groups s) \/
             map AssetGroup.id (groups s0) = map AssetGroup.id (groups s) ++ [uuid]) /\
            stitchItems s0 = stitchItems s).
  { intros s0 H. injection H as <-. split; [reflexivity |]. split; [now left | reflexivity]. }
  assert (Hmove : forall sourceLayer sourceId groupId s0,
            Some (moveLayerToGroup sourceLayer sourceId groupId s) = Some s0 ->
            map ImageLayer.id (layers s0) = map ImageLayer.id (layers s) /\
            (map AssetGroup.id (groups s0) = map AssetGroup.id (groups s) \/
             map AssetGroup.id (groups s0) = map AssetGroup.id (groups s) ++ [uuid]) /\
            stitchItems s0 = stitchItems s).
  { intros sourceLayer sourceId groupId s0 H. injection H as <-.
    destruct (moveLayerToGroup_ids sourceLayer sourceId groupId s) as (Hg & Hl & Hi).
    split; [exact Hl |]. split; [now left | exact Hi]. }
  unfold handleLibraryDropItem.
  destruct (negb (truthy dragged) || option_string_eqb dragged (Some targetId)); [apply Hsame |].
  destruct dragged as [sourceId |]; [| apply Hsame].
  destruct (find (fun l => String.eqb (ImageLayer.id l) sourceId) (layers s))
    as [sourceLayer |]; [| apply Hsame].
  set (targetLayer := find (fun l => String.eqb (ImageLayer.id l) targetId) (layers s)).
  destruct (truthy (ImageLayer.groupId sourceLayer) && truthy (targetLayer ≫= ImageLayer.groupId)
            && option_string_eqb (ImageLayer.groupId sourceLayer)
                                 (targetLayer ≫= ImageLayer.groupId)).
  { destruct (ImageLayer.groupId sourceLayer) as [groupId |]; [| apply Hsame].
    destruct (mapM _ (groups s)) as [gs |] eqn:Hmap; [| discriminate].
    intros H. injection H as <-. cbn [layers groups stitchItems setGroups].
    split; [reflexivity |]. split; [left | reflexivity].
    apply mapM_Some_1 in Hmap. apply (Forall2_same_ids _ _ _ Hmap).
    intros g g' Hg. destruct (negb _); [now injection Hg as <- |].
    destruct (typed _); [now injection Hg as <- | discriminate]. }
  destruct isTargetGroup.
  { destruct (find _ (groups s)); [| apply Hsame].
    destruct (negb _); [apply Hmove | apply Hsame]. }
  destruct targetLayer as [target |]; [| apply Hsame].
  destruct (truthy (ImageLayer.groupId target)).
  { destruct (ImageLayer.groupId target) as [targetGroupId |]; [| apply Hsame].
    destruct (negb _); [apply Hmove | apply Hsame]. }
  intros H. injection H as <-.
  destruct (source_removed_ids sourceLayer s) as (Hg & Hl & Hi).
  cbn [createGroupFromLayers layers groups stitchItems
       setActiveAssetId setExpandedGroupIds setLayers setGroups].
  split; [| split].
  - etransitivity; [apply map_id_layers_if |]. f_equal. exact Hl.
  - right. rewrite map_app. f_equal. exact Hg.
  - exact Hi.
Qed.

(** X25. A drop on a library item always returns and regroups without
    loss: no layer is added or removed and the layers keep their order;
    the groups keep theirs, and either stay the same groups or are joined
    by one new group under the fresh id; the stitch queue is not touched
    and a well-formed library stays well formed.  Nothing at all happens
    when no item is being dragged, when the item is dropped on itself, or
    when the dragged id names no layer. *)
Theorem library_drop_regroups_without_loss
    (uuid : string) (dragged : option string) (targetId : string) (isTargetGroup : bool)
    (s : State) :
  fresh_group_id uuid s -> well_formed s ->
  exists s',
    handleLibraryDropItem uuid dragged targetId isTargetGroup s = Some s' /\
    well_formed s' /\
    map ImageLayer.id (layers s') = map ImageLayer.id (layers s) /\
    (map AssetGroup.id (groups s') = map AssetGroup.id (groups s) \/
     map AssetGroup.id (groups s') = map AssetGroup.id (groups s) ++ [uuid]) /\
    stitchItems s' = stitchItems s /\
    (dragged = None \/ dragged = Some ""%string \/ dragged = Some targetId \/
     (forall l, l ∈ layers s -> Some (ImageLayer.id l) <> dragged) -> s' = s).
Proof.
  intros Hfresh Hwf.
  destruct (handleLibraryDropItem_well_formed uuid dragged targetId isTargetGroup s Hfresh Hwf)
    as (s' & Hs' & Hwf').
  destruct (handleLibraryDropItem_ids _ _ _ _ _ _ Hs') as (Hlayers & Hgroups & Hitems).
  exists s'. split; [exact Hs' |]. split; [exact Hwf' |]. split; [exact Hlayers |].
  split; [exact Hgroups |]. split; [exact Hitems |].
  intros Hidle. unfold handleLibraryDropItem in Hs'.
  destruct Hidle as [-> | [-> | [-> | Hnone]]].
  - now injection Hs' as <-.
  - now injection Hs' as <-.
  - cbn [option_string_eqb] in Hs'. rewrite String.eqb_refl, orb_true_r in Hs'.
    now injection Hs' as <-.
  - destruct (negb (truthy dragged) || option_string_eqb dragged (Some targetId));
      [now injection Hs' as <- |].
    destruct dragged as [sourceId |]; [| now injection Hs' as <-].
    destruct (find (fun l => String.eqb (ImageLayer.id l) sourceId) (layers s))
      as [sourceLayer |] eqn:Hsource; [| now injection Hs' as <-].
    apply find_some in Hsource as [Hin Hid]. apply String.eqb_eq in Hid.
    exfalso. apply (Hnone sourceLayer); [now apply list_elem_of_In | now rewrite Hid].
Qed.

Lemma library_drop_regroups_without_loss_witness :
  exists s',
    handleLibraryDropItem "group-2" (Some "layer-2") "layer-1" false two_layer_group = Some s' /\
    map AssetGroup.layerIds (groups s') = [["layer-2"; "layer-1"]]%string /\
    map ImageLayer.id (layers s') = ["layer-1"; "layer-2"]%string.
Proof.
  destruct (library_drop_regroups_without_loss "group-2" (Some "layer-2") "layer-1" false
              two_layer_group) as (s' & Hs' & _ & Hlayers & _).
  - split.
    + intros g Hg. apply list_elem_of_In in Hg. vm_compute in Hg.
      destruct Hg as [<- | []]; split; discriminate.
    + intros l Hl. apply list_elem_of_In in Hl. vm_compute in Hl.
      destruct Hl as [<- | [<- | []]]; discriminate.
  - apply two_layer_group_well_formed.
  - exists s'. split; [exact Hs' |]. split; [| exact Hlayers].
    vm_compute in Hs'. injection Hs' as <-. reflexivity.
Defined.

(** X26. Dropping a layer on a group puts it in that group: in a
    well-formed library with distinct layer ids, after the drop of a layer
    on a group other than its own, the layer names the group as its group,
    every group under the target id lists the layer, at the end of its
    member list, and no other group lists it as a result of the drop; all
    other layers keep their group. *)
Theorem layer_dropped_on_group_joins_it
    (uuid sourceId targetId : string) (sourceLayer : ImageLayer.t) (s : State) :
  well_formed s -> NoDup (map ImageLayer.id (layers s)) ->
  sourceLayer ∈ layers s -> ImageLayer.id sourceLayer = sourceId ->
  sourceId <> ""%string -> sourceId <> targetId ->
  (exists g, g ∈ groups s /\ AssetGroup.id g = targetId) ->
  (forall l, l ∈ layers s -> ImageLayer.id l <> targetId) ->
  ImageLayer.groupId sourceLayer <> Some targetId ->
  exists s',
    handleLibraryDropItem uuid (Some sourceId) targetId true s = Some s' /\
    layers s'
    = map (fun l => if String.eqb (ImageLayer.id l) sourceId
                    then ImageLayer.set_groupId (Some targetId) l else l) (layers s) /\
    (forall l', l' ∈ layers s' -> ImageLayer.id l' = sourceId ->
                l' = ImageLayer.set_groupId (Some targetId) sourceLayer) /\
    (forall g', g' ∈ groups s' -> AssetGroup.id g' = targetId ->
                exists ids, AssetGroup.layerIds g' = ids ++ [sourceId]) /\
    targetId ∈ expandedGroupIds s'.
Proof.
  intros Hwf Hnodup Hsource Hid Hnonempty Hself (target & Htarget & Htid) Hnolayer Hother.
  assert (Hfind : find (fun l => String.eqb (ImageLayer.id l) sourceId) (layers s)
                  = Some sourceLayer).
  { destruct (find (fun l => String.eqb (ImageLayer.id l) sourceId) (layers s))
      as [l |] eqn:Hfind.
    - apply find_some in Hfind as [Hl Hlid]. apply String.eqb_eq in Hlid.
      f_equal. apply list_elem_of_In in Hl.
      apply list_elem_of_lookup in Hl as [i Hi]. apply list_elem_of_lookup in Hsource as [j Hj].
      assert (i = j).
      { apply (NoDup_lookup _ i j sourceId Hnodup);
          change (map ?f (layers s)) with (f <$> layers s); rewrite list_lookup_fmap.
        - now rewrite Hi, <- Hlid.
        - now rewrite Hj, <- Hid. }
      subst j. congruence.
    - exfalso.
      pose proof (find_none _ _ Hfind sourceLayer (proj1 (list_elem_of_In _ _) Hsource)) as Hf.
      cbn beta in Hf. apply String.eqb_neq in Hf. contradiction. }
  assert (Hnotarget : find (fun l => String.eqb (ImageLayer.id l) targetId) (layers s) = None).
  { destruct (find (fun l => String.eqb (ImageLayer.id l) targetId) (layers s))
      as [l |] eqn:Hf; [| reflexivity].
    apply find_some in Hf as [Hl Hlid]. apply String.eqb_eq in Hlid.
    now destruct (Hnolayer l (proj2 (list_elem_of_In _ _) Hl)). }
  assert (Hgroup : exists g0, find (fun g => String.eqb (AssetGroup.id g) targetId) (groups s)
                              = Some g0).
  { destruct (find (fun g => String.eqb (AssetGroup.id g) targetId) (groups s))
      as [g0 |] eqn:Hf; [now exists g0 |].
    exfalso.
    pose proof (find_none _ _ Hf target (proj1 (list_elem_of_In _ _) Htarget)) as Hne.
    cbn beta in Hne. apply String.eqb_neq in Hne. contradiction. }
  destruct Hgroup as (g0 & Hg0).
  unfold handleLibraryDropItem.
  assert (Htruthy : truthy (Some sourceId) = true).
  { cbn. now apply negb_true_iff, String.eqb_neq. }
  rewrite Htruthy. cbn [negb orb option_string_eqb].
  apply String.eqb_neq in Hself. rewrite Hself, Hfind, Hnotarget.
  cbn [mbind option_bind truthy]. rewrite andb_false_r. cbn [andb]. rewrite Hg0.
  assert (Hneq : option_string_eqb (ImageLayer.groupId sourceLayer) (Some targetId) = false).
  { apply not_true_iff_false. intros H. now apply option_string_eqb_Some in H. }
  rewrite Hneq. cbn [negb].
  eexists. split; [reflexivity |].
  destruct (source_removed_ids sourceLayer s) as (_ & Hlayers & _).
  unfold moveLayerToGroup.
  cbn [groups layers expandedGroupIds setExpandedGroupIds setLayers setGroups].
  split; [now rewrite Hlayers |]. split; [| split].
  - intros l' Hl' Hlid. rewrite Hlayers in Hl'. apply elem_of_map_inv in Hl' as (l & Hl & ->).
    destruct (String.eqb_spec (ImageLayer.id l) sourceId) as [Heq | Hne];
      [| now destruct Hne].
    f_equal. apply list_elem_of_lookup in Hl as [i Hi].
    apply list_elem_of_lookup in Hsource as [j Hj].
    assert (i = j).
    { apply (NoDup_lookup _ i j sourceId Hnodup);
        change (map ?f (layers s)) with (f <$> layers s); rewrite list_lookup_fmap.
      - now rewrite Hi, <- Heq.
      - now rewrite Hj, <- Hid. }
    subst j. congruence.
  - intros g' Hg' Hgid. apply elem_of_map_inv in Hg' as (g1 & _ & ->).
    destruct (String.eqb_spec (AssetGroup.id g1) targetId) as [_ | Hne]; [| now destruct Hne].
    now eexists.
  - set_solver.
Qed.

Lemma layer_dropped_on_group_joins_it_witness :
  exists s',
    handleLibraryDropItem "u" (Some "layer-5") "group-4" true nested_library = Some s' /\
    (forall l', l' ∈ layers s' -> ImageLayer.id l' = "layer-5"%string ->
                ImageLayer.groupId l' = Some "group-4"%string).
Proof.
  destruct (layer_dropped_on_group_joins_it "u" "layer-5" "group-4"
              (ImageLayer.mk "layer-5" None "e.png" "data:image/png;base64,EE" 640 480 [])
              nested_library) as (s' & Hs' & _ & Hjoined & _).
  - apply nested_library_well_formed.
  - apply (bool_decide_unpack _). vm_compute. exact I.
  - apply list_elem_of_In. cbn. tauto.
  - reflexivity.
  - discriminate.
  - discriminate.
  - eexists. split; [apply list_elem_of_In; cbn; right; left; reflexivity | reflexivity].
  - intros l Hl. apply list_elem_of_In in Hl. cbn in Hl.
    destruct Hl as [<- | [<- | [<- | [<- | [<- | [<- | []]]]]]]; discriminate.
  - discriminate.
  - exists s'. split; [exact Hs' |]. intros l' Hl' Hid. now rewrite (Hjoined l' Hl' Hid).
Defined.

End LibraryInvariant.

(** * Further properties: the stitch queue *)

Section QueueFacts.
Context {A : Type}.

Lemma handleRemoveItem_from (index : Z) (l : list (option A)) :
  forall k : nat,
    map snd
        (List.filter (fun '(i, _) => negb (Z.of_nat i =? index)%Z)
                     (imap (fun i v => ((k + i)%nat, v)) l))
    = if decide (Z.of_nat k <= index < Z.of_nat (k + length l))%Z
      then delete (Z.to_nat index - k)%nat l else l.
Proof.
  induction l as [| x l IH]; intros k.
  - cbn. now destruct (decide _).
  - cbn [imap List.filter length].
    assert (Hshift : imap ((fun i v => ((k + i)%nat, v)) ∘ S) l
                     = imap (fun i v => ((S k + i)%nat, v)) l).
    { apply imap_ext. intros i v _. cbn. f_equal. lia. }
    rewrite Hshift. specialize (IH (S k)).
    destruct (Z.eqb_spec (Z.of_nat (k + 0)) index) as [Heq | Hne]; cbn [negb].
    + rewrite IH. rewrite decide_False by lia. rewrite decide_True by lia.
      replace (Z.to_nat index - k)%nat with 0%nat by lia. reflexivity.
    + cbn [map snd]. rewrite IH.
      destruct (decide (Z.of_nat (S k) <= index < Z.of_nat (S k + length l))%Z) as [Hin | Hout].
      * rewrite decide_True by lia.
        replace (Z.to_nat index - k)%nat with (S (Z.to_nat index - S k)) by lia. reflexivity.
      * rewrite decide_False by lia. reflexivity.
Qed.

(** X27. Removing a queue item by position removes exactly the item at
    that position, the others keeping their order, so the queue is one item
    shorter; a position off the queue (negative, or not below its length)
    leaves the queue as it is. *)
Theorem handleRemoveItem_deletes_position (index : Z) (prev : list (option A)) :
  StitchView.handleRemoveItem index prev
  = (if decide (0 <= index < Z.of_nat (length prev))%Z
     then delete (Z.to_nat index) prev else prev) /\
  ((0 <= index < Z.of_nat (length prev))%Z ->
   S (length (StitchView.handleRemoveItem index prev)) = length prev /\
   forall i : nat,
     StitchView.handleRemoveItem index prev !! i
     = if decide (i < Z.to_nat index)%nat then prev !! i else prev !! S i).
Proof.
  assert (Heq : StitchView.handleRemoveItem index prev
                = if decide (0 <= index < Z.of_nat (length prev))%Z
                  then delete (Z.to_nat index) prev else prev).
  { pose proof (handleRemoveItem_from index prev 0) as H.
    cbn [Nat.add] in H. change (Z.of_nat 0) with 0%Z in H. rewrite Nat.sub_0_r in H.
    exact H. }
  split; [exact Heq |]. intros Hin. rewrite Heq, decide_True by exact Hin. split.
  - rewrite length_delete by (apply lookup_lt_is_Some_2; lia).
    assert (0 < length prev)%nat by lia. lia.
  - intros i. destruct (decide (i < Z.to_nat index)%nat) as [Hlt | Hge].
    + now apply list_lookup_delete_lt.
    + apply list_lookup_delete_ge. lia.
Qed.

Lemma handleDragOver_frame (over : list Z) :
  forall st : @StitchView.DragState A,
    StitchView.stitchItems
      (fold_left (fun st index => StitchView.handleDragOver index st) over st)
    = StitchView.stitchItems st /\
    StitchView.draggingIndex
      (fold_left (fun st index => StitchView.handleDragOver index st) over st)
    = StitchView.draggingIndex st.
Proof.
  induction over as [| index over IH]; intros st; [now split |].
  cbn [fold_left]. destruct (IH (StitchView.handleDragOver index st)) as [-> ->].
  unfold StitchView.handleDragOver. destruct (StitchView.draggingIndex st) as [d |] eqn:Hd.
  - destruct (d =? index)%Z; cbn; now rewrite ?Hd.
  - now rewrite Hd.
Qed.

(** X28. Drag and drop in the queue moves the dragged item to the position
    of the item it is dropped on: for a drag started on a queue item and
    dropped on a queue item, whatever items the pointer passed over, the
    queue afterwards is the old one with the dragged item taken out and put
    back at the target position, the others keeping their order; it is a
    rearrangement of the old queue without [undefined] entries, a drop on
    the dragged item itself changes nothing, and the drag state is
    cleared. *)
Theorem drag_and_drop_moves_item
    (items : list A) (from to : nat) (over : list Z) (dragging target : option Z) (x : A) :
  items !! from = Some x -> (to < length items)%nat ->
  let st := StitchView.mkDragState (Some <$> items) dragging target in
  let st' := drag_and_drop (Z.of_nat from) over (Z.of_nat to) st in
  let items' := take to (delete from items) ++ x :: drop to (delete from items) in
  StitchView.stitchItems st' = Some <$> items' /\
  StitchView.draggingIndex st' = None /\ StitchView.dropTargetIndex st' = None /\
  items' ≡ₚ items /\ length items' = length items /\ items' !! to = Some x /\
  (from = to -> items' = items).
Proof.
  intros Hfrom Hto st st' items'.
  pose proof (lookup_lt_Some _ _ _ Hfrom) as Hlt.
  assert (Hlen : length (delete from items) = (length items - 1)%nat)
    by (apply length_delete; eauto).
  assert (Hself : from = to -> items' = items).
  { intros <-. subst items'. rewrite delete_take_drop.
    rewrite take_app_length', drop_app_length' by (rewrite length_take; lia).
    apply take_drop_middle, Hfrom. }
  assert (Hperm : items' ≡ₚ items).
  { subst items'. rewrite <- Permutation_middle, take_drop. symmetry.
    now apply delete_Permutation. }
  split; [| split; [reflexivity | split; [reflexivity | split; [exact Hperm |]]]].
  - subst st'. unfold drag_and_drop, StitchView.handleDrop.
    destruct (handleDragOver_frame over (StitchView.handleDragStart (Z.of_nat from) st))
      as [-> ->].
    cbn [StitchView.handleDragStart StitchView.stitchItems StitchView.draggingIndex st].
    destruct (Z.eqb_spec (Z.of_nat from) (Z.of_nat to)) as [Heq | Hne]; cbn [negb].
    + rewrite Hself by lia. reflexivity.
    + unfold StitchView.handleReorder.
      rewrite (splice_remove _ _ (Some x)) by now rewrite list_lookup_fmap, Hfrom.
      change (arr_get [Some x] 0) with (Some x).
      unfold splice, splice_start. cbn [fst].
      rewrite length_delete by (rewrite list_lookup_fmap, Hfrom; eauto).
      rewrite length_fmap.
      destruct (Z.ltb_spec (Z.of_nat to) 0) as [Hneg | _]; [lia |].
      replace (Z.to_nat (Z.min (Z.of_nat to) (Z.of_nat (length items - 1)))) with to by lia.
      replace (Z.to_nat (Z.min (Z.max 0 0) _)) with 0%nat by lia.
      rewrite Nat.add_0_r. subst items'.
      now rewrite fmap_app, fmap_cons, fmap_take, fmap_drop, list_fmap_delete.
  - split; [now apply Permutation_length |]. split; [| exact Hself].
    subst items'. rewrite lookup_app_r by (rewrite length_take; lia).
    rewrite length_take. replace (to - to `min` length (delete from items))%nat with 0%nat by lia.
    reflexivity.
Qed.

End QueueFacts.

Lemma handleRemoveItem_deletes_position_witness :
  StitchView.handleRemoveItem 1 (Some <$> three_item_queue)
  = Some <$> [StitchItem.mk "item-1" "layer-1" "region-1";
              StitchItem.mk "item-3" "layer-1" "region-3"] /\
  StitchView.handleRemoveItem 3 (Some <$> three_item_queue) = Some <$> three_item_queue.
Proof.
  split.
  - rewrite (proj1 (handleRemoveItem_deletes_position 1 (Some <$> three_item_queue))).
    reflexivity.
  - rewrite (proj1 (handleRemoveItem_deletes_position 3 (Some <$> three_item_queue))).
    reflexivity.
Defined.

Lemma drag_and_drop_moves_item_witness :
  StitchView.stitchItems
    (drag_and_drop 0 [1; 2]%Z 2
       (StitchView.mkDragState (Some <$> three_item_queue) None None))
  = Some <$> [StitchItem.mk "item-2" "layer-1" "region-2";
              StitchItem.mk "item-3" "layer-1" "region-3";
              StitchItem.mk "item-1" "layer-1" "region-1"].
Proof.
  destruct (drag_and_drop_moves_item three_item_queue 0 2 [1; 2]%Z None None
              (StitchItem.mk "item-1" "layer-1" "region-1")) as (Hitems & _).
  - reflexivity.
  - cbn. lia.
  - exact Hitems.
Defined.

(** * Proofs: double precision arithmetic *)

Section Rounding.
Import Number.

Lemma round_half_even_error q : Qabs (inject_Z (round_half_even q) - q) <= 1 # 2.
Proof.
  unfold round_half_even.
  pose proof (Qfloor_le q) as Hlo. pose proof (Qlt_floor q) as Hhi.
  rewrite inject_Z_plus in Hhi. change (inject_Z 1) with 1 in Hhi.
  apply Qabs_Qle_condition.
  destruct (Qcompare (q - inject_Z (Qfloor q)) (1 # 2)) eqn:Hc.
  - apply Qeq_alt in Hc.
    destruct (Z.even (Qfloor q)); [| rewrite inject_Z_plus; change (inject_Z 1) with 1]; lra.
  - apply Qlt_alt in Hc. lra.
  - apply Qgt_alt in Hc. rewrite inject_Z_plus. change (inject_Z 1) with 1. lra.
Qed.

Lemma round_half_even_comp q q' : q == q' -> round_half_even q = round_half_even q'.
Proof.
  intros H. unfold round_half_even. rewrite (Qfloor_comp _ _ H).
  assert (Hc : Qcompare (q - inject_Z (Qfloor q')) (1 # 2)
               = Qcompare (q' - inject_Z (Qfloor q')) (1 # 2)) by now rewrite H.
  now rewrite Hc.
Qed.

Lemma Qabs_num_den x : Qabs x == inject_Z (Z.abs (Qnum x)) / inject_Z (Zpos (Qden x)).
Proof. destruct x as [n d]. unfold Qabs, Qeq, Qdiv, Qinv, Qmult, inject_Z. cbn. lia. Qed.

Lemma two_Zpower n : (0 <= n)%Z -> inject_Z (2 ^ n) == 2 ^ n.
Proof. intros H. now rewrite Zpower_Qpower. Qed.

(** [exponent x] is the exponent of the leading bit of [x]. *)
Lemma exponent_spec x :
  ~ x == 0 -> 2 ^ exponent x <= Qabs x /\ Qabs x < 2 ^ (exponent x + 1).
Proof.
  intros Hx. unfold exponent.
  set (n := Z.abs (Qnum x)). set (d := Zpos (Qden x)).
  assert (Hn : (0 < n)%Z).
  { subst n. destruct x as [[| p | p] dd]; cbn; try lia. destruct Hx. reflexivity. }
  assert (Hd : (0 < d)%Z) by (subst d; lia).
  destruct (Z.log2_spec n Hn) as [Hn1 Hn2]. destruct (Z.log2_spec d Hd) as [Hd1 Hd2].
  pose proof (Z.log2_nonneg n) as Hln. pose proof (Z.log2_nonneg d) as Hld.
  assert (Habs : Qabs x == inject_Z n / inject_Z d) by apply Qabs_num_den.
  assert (Hdq : 0 < inject_Z d) by (change 0 with (inject_Z 0); now rewrite <- Zlt_Qlt).
  assert (H2 : ~ (2 : Q) == 0) by discriminate.
  assert (Hp : forall k, 0 < (2 : Q) ^ k) by (intros k; now apply Qpower_0_lt).
  assert (Hq1 : 2 ^ Z.log2 n <= inject_Z n).
  { rewrite <- two_Zpower by lia. now rewrite <- Zle_Qle. }
  assert (Hq2 : inject_Z n < 2 ^ (Z.log2 n + 1)).
  { rewrite <- two_Zpower by lia. rewrite <- Zlt_Qlt. unfold Z.succ in Hn2. exact Hn2. }
  assert (Hq3 : 2 ^ Z.log2 d <= inject_Z d).
  { rewrite <- two_Zpower by lia. now rewrite <- Zle_Qle. }
  assert (Hq4 : inject_Z d < 2 ^ (Z.log2 d + 1)).
  { rewrite <- two_Zpower by lia. rewrite <- Zlt_Qlt. unfold Z.succ in Hd2. exact Hd2. }
  set (e := (Z.log2 n - Z.log2 d)%Z).
  assert (Hlow : 2 ^ (e - 1) <= Qabs x).
  { rewrite Habs. apply Qle_shift_div_l; [exact Hdq |].
    apply Qle_trans with (2 ^ (e - 1) * 2 ^ (Z.log2 d + 1)).
    - apply Qmult_le_l; [apply Hp | lra].
    - rewrite <- Qpower_plus by exact H2.
      replace (e - 1 + (Z.log2 d + 1))%Z with (Z.log2 n) by (subst e; lia). exact Hq1. }
  assert (Hhigh : Qabs x < 2 ^ (e + 1)).
  { rewrite Habs. apply Qlt_shift_div_r; [exact Hdq |].
    apply Qlt_le_trans with (2 ^ (Z.log2 n + 1)); [exact Hq2 |].
    replace (Z.log2 n + 1)%Z with (e + 1 + Z.log2 d)%Z by (subst e; lia).
    rewrite Qpower_plus by exact H2. apply Qmult_le_l; [apply Hp | exact Hq3]. }
  destruct (Qle_bool (2 ^ e) (Qabs x)) eqn:Ht.
  - apply Qle_bool_iff in Ht. split; [exact Ht | exact Hhigh].
  - split; [exact Hlow |]. replace (e - 1 + 1)%Z with e by lia.
    apply Qnot_le_lt. intros H. apply Qle_bool_iff in H. congruence.
Qed.

Lemma exponent_unique x e : 2 ^ e <= Qabs x -> Qabs x < 2 ^ (e + 1) -> exponent x = e.
Proof.
  intros Hlo Hhi.
  assert (Hx : ~ x == 0).
  { intros H. rewrite H in Hlo. assert (0 < (2 : Q) ^ e) by (now apply Qpower_0_lt).
    change (Qabs 0) with 0 in Hlo. lra. }
  destruct (exponent_spec x Hx) as [Hlo' Hhi'].
  assert (H1 : (e < exponent x + 1)%Z).
  { apply (Qpower_lt_compat_l_inv 2); [| reflexivity]. lra. }
  assert (H2 : (exponent x < e + 1)%Z).
  { apply (Qpower_lt_compat_l_inv 2); [| reflexivity]. lra. }
  lia.
Qed.

Lemma exponent_comp x y : ~ x == 0 -> x == y -> exponent x = exponent y.
Proof.
  intros Hx Hxy. symmetry. destruct (exponent_spec x Hx) as [Hlo Hhi].
  apply exponent_unique; now rewrite <- Hxy.
Qed.

#[global] Instance double_comp : Proper (Qeq ==> Qeq) double.
Proof.
  intros x y Hxy. unfold double.
  destruct (Qeq_bool x 0) eqn:Hx, (Qeq_bool y 0) eqn:Hy.
  - reflexivity.
  - apply Qeq_bool_iff in Hx. rewrite Hxy in Hx. apply Qeq_bool_iff in Hx. congruence.
  - apply Qeq_bool_iff in Hy. rewrite <- Hxy in Hy. apply Qeq_bool_iff in Hy. congruence.
  - assert (Hne : ~ x == 0) by (intros H; apply Qeq_bool_iff in H; congruence).
    cbn zeta. rewrite (exponent_comp x y Hne Hxy).
    rewrite (round_half_even_comp (x / 2 ^ (exponent y - 52)) (y / 2 ^ (exponent y - 52)))
      by now rewrite Hxy.
    reflexivity.
Qed.

(** Equal numbers round to the same fraction. *)
Lemma double_eq x y : x == y -> double x = double y.
Proof.
  intros Hxy. unfold double.
  destruct (Qeq_bool x 0) eqn:Hx, (Qeq_bool y 0) eqn:Hy.
  - reflexivity.
  - apply Qeq_bool_iff in Hx. rewrite Hxy in Hx. apply Qeq_bool_iff in Hx. congruence.
  - apply Qeq_bool_iff in Hy. rewrite <- Hxy in Hy. apply Qeq_bool_iff in Hy. congruence.
  - assert (Hne : ~ x == 0) by (intros H; apply Qeq_bool_iff in H; congruence).
    cbn zeta. rewrite (exponent_comp x y Hne Hxy).
    now rewrite (round_half_even_comp (x / 2 ^ (exponent y - 52)) (y / 2 ^ (exponent y - 52)))
      by now rewrite Hxy.
Qed.

(** One rounding changes a number by at most the relative error
    [2 ^ -53]. *)
Lemma double_error x : Qabs (double x - x) <= unit_roundoff * Qabs x.
Proof.
  unfold double. destruct (Qeq_bool x 0) eqn:Hz.
  - apply Qeq_bool_iff in Hz. rewrite Hz. discriminate.
  - assert (Hx : ~ x == 0) by (intros H; apply Qeq_bool_iff in H; congruence).
    destruct (exponent_spec x Hx) as [Hlo _].
    set (e := exponent x) in *. cbn zeta.
    set (p := 2 ^ (e - 52)).
    assert (Hp : 0 < p) by (now apply Qpower_0_lt).
    pose proof (round_half_even_error (x / p)) as Hr.
    set (r := inject_Z (round_half_even (x / p))) in *.
    assert (Heq : Qred (r * p) - x == (r - x / p) * p) by (rewrite Qred_correct; field; lra).
    rewrite Heq, Qabs_Qmult, (Qabs_pos p) by lra.
    apply Qle_trans with ((1 # 2) * p).
    + apply Qmult_le_compat_r; [exact Hr | lra].
    + assert (Hpe : p == 2 ^ e * (1 # 4503599627370496)).
      { subst p. rewrite Qpower_minus by discriminate.
        assert (H52 : (2 : Q) ^ 52 == 4503599627370496) by reflexivity.
        rewrite H52. field. }
      rewrite Hpe. unfold unit_roundoff.
      assert (Hu : (1 # 2) * (2 ^ e * (1 # 4503599627370496))
                   == (1 # 9007199254740992) * 2 ^ e) by ring.
      rewrite Hu. apply Qmult_le_l; [reflexivity | exact Hlo].
Qed.

Lemma double_bounds x :
  (0 <= x -> x * (1 - unit_roundoff) <= double x <= x * (1 + unit_roundoff)) /\
  (x <= 0 -> x * (1 + unit_roundoff) <= double x <= x * (1 - unit_roundoff)).
Proof.
  pose proof (double_error x) as H. apply Qabs_Qle_condition in H.
  split; intros Hx.
  - rewrite Qabs_pos in H by exact Hx. lra.
  - rewrite Qabs_neg in H by exact Hx. lra.
Qed.

Lemma double_pos x : 0 < x -> 0 < double x.
Proof.
  intros Hx. destruct (double_bounds x) as [H _]. specialize (H (Qlt_le_weak _ _ Hx)).
  unfold unit_roundoff in H. nra.
Qed.

Lemma double_nonneg x : 0 <= x -> 0 <= double x.
Proof.
  intros Hx. destruct (double_bounds x) as [H _]. specialize (H Hx).
  unfold unit_roundoff in H. nra.
Qed.

Lemma double_nonpos x : x <= 0 -> double x <= 0.
Proof.
  intros Hx. destruct (double_bounds x) as [_ H]. specialize (H Hx).
  unfold unit_roundoff in H. nra.
Qed.

Lemma double_not_0 x : ~ x == 0 -> ~ double x == 0.
Proof.
  intros Hx H. destruct (Qlt_le_dec 0 x) as [Hpos | Hneg].
  - pose proof (double_pos x Hpos). lra.
  - assert (Hlt : x < 0) by (destruct (Qeq_dec x 0); [contradiction | lra]).
    destruct (double_bounds x) as [_ Hb]. specialize (Hb Hneg). unfold unit_roundoff in Hb. nra.
Qed.

(** On the sample sizes, quotients, products, sums and differences come out
    of [Number] as they come out of the binary64 arithmetic of the kernel;
    so does the literal [0.6], and [(1000 / 340) * 340], which is not
    1000. *)
Lemma double_agrees_with_binary64 :
  forallb (fun a => forallb (fun b => forallb (agrees_at a b) sample_sizes) sample_sizes)
          sample_sizes = true /\
  of_binary64 (PrimFloat.div (binary64 6) (binary64 10)) = of_Q (6 # 10) /\
  of_binary64 (PrimFloat.mul (PrimFloat.div (binary64 1000) (binary64 340)) (binary64 340))
  = Finite (8796093022208001 # 8796093022208).
Proof. split; [| split]; vm_compute; reflexivity. Qed.

End Rounding.

Section Tolerance.
Import Number.

Lemma growth_ge_1 k : 1 <= growth k.
Proof.
  induction k as [| k IH]; cbn [growth]; [lra |].
  assert (1 <= rounding_step) by (unfold rounding_step; lra). nra.
Qed.

Lemma growth_plus j k : growth (j + k) == growth j * growth k.
Proof. induction j as [| j IH]; cbn [growth Nat.add]; [ring | rewrite IH; ring]. Qed.

Lemma growth_le j k : (j <= k)%nat -> growth j <= growth k.
Proof.
  intros H. replace k with (j + (k - j))%nat by lia. rewrite growth_plus.
  pose proof (growth_ge_1 j). pose proof (growth_ge_1 (k - j)). nra.
Qed.



#[global] Instance same_sign_comp : Proper (Qeq ==> Qeq ==> iff) same_sign.
Proof. intros x x' Hx y y' Hy. unfold same_sign. now rewrite Hx, Hy. Qed.

#[global] Instance near_comp : Proper (eq ==> Qeq ==> Qeq ==> iff) near.
Proof. intros k k' <- x x' Hx y y' Hy. unfold near. now rewrite Hx, Hy. Qed.

#[global] Instance within_rounding_comp : Proper (eq ==> Qeq ==> Qeq ==> Qeq ==> iff) within_rounding.
Proof. intros k k' <- x x' Hx y y' Hy s s' Hs. unfold within_rounding. now rewrite Hx, Hy, Hs. Qed.

Lemma near_nonneg k x y :
  0 <= x -> 0 <= y -> x <= y * growth k -> y <= x * growth k -> near k x y.
Proof.
  intros Hx Hy H1 H2. split; [left; now split |]. now rewrite !Qabs_pos.
Qed.

Lemma near_nonpos k x y :
  x <= 0 -> y <= 0 -> - x <= - y * growth k -> - y <= - x * growth k -> near k x y.
Proof.
  intros Hx Hy H1 H2. split; [right; now split |]. now rewrite !Qabs_neg.
Qed.

Lemma near_cases k x y :
  near k x y ->
  (0 <= x /\ 0 <= y /\ x <= y * growth k /\ y <= x * growth k) \/
  (x <= 0 /\ y <= 0 /\ - x <= - y * growth k /\ - y <= - x * growth k).
Proof.
  intros [[[Hx Hy] | [Hx Hy]] [H1 H2]].
  - left. rewrite !Qabs_pos in H1, H2 by assumption. auto.
  - right. rewrite !Qabs_neg in H1, H2 by assumption. auto.
Qed.

Ltac near_split H :=
  apply near_cases in H;
  destruct H as [(? & ? & ? & ?) | (? & ? & ? & ?)].

Lemma near_refl k x : near k x x.
Proof.
  pose proof (growth_ge_1 k).
  destruct (Qlt_le_dec x 0); [apply near_nonpos | apply near_nonneg]; nra.
Qed.

Lemma near_sym k x y : near k x y -> near k y x.
Proof. intros H. near_split H; [apply near_nonneg | apply near_nonpos]; assumption. Qed.

Lemma near_weaken j k x y : (j <= k)%nat -> near j x y -> near k x y.
Proof.
  intros Hjk H. pose proof (growth_le j k Hjk). pose proof (growth_ge_1 j).
  near_split H; [apply near_nonneg | apply near_nonpos]; nra.
Qed.

Lemma near_trans j k x y z : near j x y -> near k y z -> near (j + k) x z.
Proof.
  intros H1 H2. pose proof (growth_ge_1 j). pose proof (growth_ge_1 k).
  near_split H1; near_split H2.
  - apply near_nonneg; rewrite ?growth_plus; nra.
  - assert (Hy : y == 0) by lra. rewrite Hy in *.
    assert (Hx : x == 0) by lra. assert (Hz : z == 0) by lra. rewrite Hx, Hz. apply near_refl.
  - assert (Hy : y == 0) by lra. rewrite Hy in *.
    assert (Hx : x == 0) by lra. assert (Hz : z == 0) by lra. rewrite Hx, Hz. apply near_refl.
  - apply near_nonpos; rewrite ?growth_plus; nra.
Qed.

Lemma near_mul j k x x' y y' : near j x x' -> near k y y' -> near (j + k) (x * y) (x' * y').
Proof.
  intros H1 H2. pose proof (growth_ge_1 j). pose proof (growth_ge_1 k).
  near_split H1; near_split H2.
  - apply near_nonneg; rewrite ?growth_plus; nra.
  - apply near_nonpos; rewrite ?growth_plus; nra.
  - apply near_nonpos; rewrite ?growth_plus; nra.
  - apply near_nonneg; rewrite ?growth_plus; nra.
Qed.

Lemma near_inv k y y' : ~ y == 0 -> near k y y' -> near k (/ y) (/ y').
Proof.
  intros Hy H. pose proof (growth_ge_1 k) as Hg.
  near_split H.
  - assert (0 < y) by lra. assert (0 < y') by nra.
    assert (0 < / y) by (now apply Qinv_lt_0_compat).
    assert (0 < / y') by (now apply Qinv_lt_0_compat).
    apply near_nonneg; try lra.
    + apply Qmult_le_r with (y * y'); [nra |].
      assert (E : / y * (y * y') == y') by (field; lra).
      assert (E' : / y' * growth k * (y * y') == y * growth k) by (field; lra).
      rewrite E, E'. assumption.
    + apply Qmult_le_r with (y * y'); [nra |].
      assert (E : / y' * (y * y') == y) by (field; lra).
      assert (E' : / y * growth k * (y * y') == y' * growth k) by (field; lra).
      rewrite E, E'. assumption.
  - assert (y < 0) by lra. assert (y' < 0) by nra.
    assert (Hi : 0 < / (- y)) by (apply Qinv_lt_0_compat; lra).
    assert (Hi' : 0 < / (- y')) by (apply Qinv_lt_0_compat; lra).
    assert (Eo : / (- y) == - / y) by (field; lra).
    assert (Eo' : / (- y') == - / y') by (field; lra).
    apply near_nonpos; try lra.
    + apply Qmult_le_r with (y * y'); [nra |].
      assert (E : - / y * (y * y') == - y') by (field; lra).
      assert (E' : - / y' * growth k * (y * y') == - y * growth k) by (field; lra).
      rewrite E, E'. assumption.
    + apply Qmult_le_r with (y * y'); [nra |].
      assert (E : - / y' * (y * y') == - y) by (field; lra).
      assert (E' : - / y * growth k * (y * y') == - y' * growth k) by (field; lra).
      rewrite E, E'. assumption.
Qed.

Lemma near_div j k x x' y y' :
  ~ y == 0 -> near j x x' -> near k y y' -> near (j + k) (x / y) (x' / y').
Proof. intros Hy H1 H2. unfold Qdiv. apply near_mul; [exact H1 | now apply near_inv]. Qed.



Lemma near_abs_le k x y : near k x y -> Qabs x <= growth k * Qabs y.
Proof. intros (_ & H & _). lra. Qed.

(** One rounding. *)
Lemma near_double x : near 1 (double x) x.
Proof.
  destruct (double_bounds x) as [Hpos Hneg].
  assert (Hg : growth 1 == 1 + (1 # 9007199254740991)) by (cbn; unfold rounding_step; ring).
  destruct (Qlt_le_dec x 0) as [Hx | Hx].
  - specialize (Hneg (Qlt_le_weak _ _ Hx)). unfold unit_roundoff in Hneg.
    apply near_nonpos; rewrite ?Hg; nra.
  - specialize (Hpos Hx). unfold unit_roundoff in Hpos.
    apply near_nonneg; rewrite ?Hg; nra.
Qed.

Lemma near_double_of k x y : near k x y -> near (S k) (double x) y.
Proof. intros H. change (S k) with (1 + k)%nat. eapply near_trans; [apply near_double | exact H]. Qed.

(** *** Sums, with errors relative to the size of the terms *)







End Tolerance.

(** * Proofs: the horizontal stitch in double precision *)

Section HorizontalStitch64.
Import Number ImageUtils64.

Lemma div_Finite a b : ~ b == 0 -> div (Finite a) (Finite b) = Finite (double (a / b)).
Proof.
  intros Hb. cbn [div]. destruct (Qeq_bool b 0) eqn:H; [| reflexivity].
  apply Qeq_bool_iff in H. contradiction.
Qed.

(** What a canvas size attribute holds after an integer in its range is
    assigned. *)
Lemma size_integer default z :
  (0 <= z <= 2147483647)%Z -> HTMLCanvasElement.size default (Finite (inject_Z z)) = z.
Proof.
  intros Hz. unfold HTMLCanvasElement.size, HTMLCanvasElement.unsigned_long,
    HTMLCanvasElement.IntegerPart.
  assert (H0 : Qle_bool 0 (inject_Z z) = true).
  { apply Qle_bool_iff. change 0 with (inject_Z 0). rewrite <- Zle_Qle. lia. }
  rewrite H0, Qfloor_Z, Z.mod_small by lia.
  destruct (z <=? 2147483647)%Z eqn:H; [reflexivity | lia].
Qed.


Lemma size_comp default q q' :
  q == q' -> HTMLCanvasElement.size default (Finite q) = HTMLCanvasElement.size default (Finite q').
Proof.
  intros H. unfold HTMLCanvasElement.size, HTMLCanvasElement.unsigned_long,
    HTMLCanvasElement.IntegerPart.
  assert (Hb : Qle_bool 0 q = Qle_bool 0 q').
  { apply eq_true_iff_eq. rewrite !Qle_bool_iff. now rewrite H. }
  now rewrite Hb, (Qfloor_comp _ _ H), (Qceiling_comp _ _ H).
Qed.









(** The ceiling is taken of the sum as the code computes it: one source of
    1000 x 340 pixels is drawn [(1000 / 340) x 340 = 1000.0000000000001]
    wide, on a canvas 1001 wide. *)
Lemma stitch_rounds_before_ceiling :
  exists canvas,
    stitchLoaded true [ImageUtils.mkImage "data:image/png;base64,AA" 1000 340]
    = ImageUtils.DataUrl canvas /\
    canvas_width canvas = 1001%Z /\ canvas_height canvas = 340%Z /\
    map dWidth (drawn canvas) = [Finite (double (double (1000 / 340) * 340))] /\
    1000 < double (double (1000 / 340) * 340).
Proof.
  eexists. split; [vm_compute; reflexivity |].
  split; [reflexivity |]. split; [reflexivity |].
  split; vm_compute; reflexivity.
Qed.

End HorizontalStitch64.


(** * Proofs: the justified layout in double precision *)

Section JustifiedLayout64.
Import Number ImageUtils64.

Lemma running_sum_snoc widths w : running_sum (widths ++ [w]) = add (running_sum widths) w.
Proof. unfold running_sum. now rewrite fold_left_app. Qed.

(** The packing loop keeps the closed rows closed and the current row
    open; [currentWidth] is the running sum of the current row. *)
Lemma packImage_greedy st images :
  forall rows currentRow currentWidth,
    Forall (closed st) rows -> still_open st currentRow ->
    currentWidth = running_sum (map scaledWidth currentRow) ->
    exists rows' currentRow' currentWidth',
      fold_left (packImage st) images (rows, currentRow, currentWidth)
      = (rows', currentRow', currentWidth') /\
      Forall (closed st) rows' /\ still_open st currentRow' /\
      concat rows' ++ currentRow' = (concat rows ++ currentRow) ++ map (row_entry st) images.
Proof.
  induction images as [| image images IH]; intros rows currentRow currentWidth Hrows Hopen Hw.
  - exists rows, currentRow, currentWidth. cbn. now rewrite app_nil_r.
  - cbn [fold_left map]. unfold packImage at 2. cbn zeta.
    fold (aspect_of image). fold (row_entry st image). set (item := row_entry st image).
    change (mul (targetRowHeight st) (aspect_of image)) with (scaledWidth item).
    assert (Htotal : add (add currentWidth (scaledWidth item))
                         (mul (sub (of_length (length (currentRow ++ [item]))) (Finite 1)) (spacing st))
                     = packed_width st (currentRow ++ [item])).
    { unfold packed_width. rewrite map_app. cbn [map]. now rewrite running_sum_snoc, Hw. }
    rewrite Htotal. fold (reaches_container st (currentRow ++ [item])).
    assert (Hprefix : forall k, (0 < k < length (currentRow ++ [item]))%nat ->
              reaches_container st (take k (currentRow ++ [item])) = false).
    { intros k Hk. rewrite length_app in Hk. cbn in Hk.
      rewrite take_app_le by lia. apply Hopen. lia. }
    destruct (reaches_container st (currentRow ++ [item])) eqn:Hge.
    + destruct (IH (rows ++ [currentRow ++ [item]]) [] (Finite 0)) as (r & c & w & Heq & Hr & Hc & Hall).
      * apply Forall_app. split; [exact Hrows |]. constructor; [| constructor].
        split; [now destruct currentRow |]. split; [exact Hprefix | exact Hge].
      * intros k Hk. cbn in Hk. lia.
      * reflexivity.
      * exists r, c, w. split; [exact Heq |]. split; [exact Hr |]. split; [exact Hc |].
        rewrite Hall, concat_app. cbn [concat]. rewrite !app_nil_r, <- !app_assoc. reflexivity.
    + destruct (IH rows (currentRow ++ [item]) (add currentWidth (scaledWidth item)))
        as (r & c & w & Heq & Hr & Hc & Hall).
      * exact Hrows.
      * intros k Hk. destruct (decide (k = length (currentRow ++ [item]))) as [-> | Hne].
        -- now rewrite firstn_all.
        -- apply Hprefix. lia.
      * rewrite map_app. cbn [map]. now rewrite running_sum_snoc, Hw.
      * exists r, c, w. split; [exact Heq |]. split; [exact Hr |]. split; [exact Hc |].
        rewrite Hall, <- !app_assoc. reflexivity.
Qed.

(** The rows are the images in input order, cut into non-empty rows; every
    row but possibly the last is closed, and the last was never continued
    past the container width. *)
Lemma buildRows_greedy st images :
  let rows := buildRows st images in
  concat rows = map (row_entry st) images /\
  Forall (fun row => row <> []) rows /\
  forall i row, rows !! i = Some row ->
    (forall k, (0 < k < length row)%nat -> reaches_container st (take k row) = false) /\
    ((S i < length rows)%nat -> reaches_container st row = true).
Proof.
  intros rows. subst rows. unfold buildRows.
  destruct (packImage_greedy st images [] [] (Finite 0)) as (rows & cur & w & -> & Hrows & Hcur & Hall).
  - constructor.
  - intros k Hk. cbn in Hk. lia.
  - reflexivity.
  - cbn [concat app] in Hall.
    assert (Hclosed : forall i row, rows !! i = Some row -> closed st row).
    { intros i row Hi. rewrite Forall_forall in Hrows. apply Hrows, list_elem_of_lookup. eauto. }
    destruct cur as [| item cur]; cbn [length Nat.ltb Nat.leb].
    + rewrite app_nil_r in Hall. split; [exact Hall |]. split.
      * eapply Forall_impl; [exact Hrows |]. now intros row [Hne _].
      * intros i row Hi. destruct (Hclosed i row Hi) as (_ & Hprefix & Hreach). now split.
    + split; [rewrite concat_app; cbn [concat]; now rewrite app_nil_r |]. split.
      * apply Forall_app. split; [| now repeat constructor].
        eapply Forall_impl; [exact Hrows |]. now intros row [Hne _].
      * intros i row Hi. rewrite length_app. cbn [length].
        destruct (decide (i < length rows)%nat) as [Hlt | Hge].
        -- rewrite lookup_app_l in Hi by exact Hlt.
           destruct (Hclosed i row Hi) as (_ & Hprefix & Hreach). now split.
        -- rewrite lookup_app_r in Hi by lia.
           destruct (i - length rows)%nat as [| n] eqn:Hn; [| now destruct n].
           injection Hi as <-. split; [| lia]. intros k Hk. apply Hcur. lia.
Qed.




End JustifiedLayout64.

Section JustifiedRows64.
Import Number ImageUtils64.


















End JustifiedRows64.

Section JustifiedLayoutFacts64.
Import Number ImageUtils64.

(** X29. The rows of the justified layout are packed greedily, in input
    order: the rows are not empty and, read one after the other, are the
    images with their aspect ratio and their width at the target height;
    every row but the last passes the test that closes a row (its running
    width at the target height, spacing included, reaches the container
    width), and no row is continued once it does: no shorter non-empty
    beginning of a row passes the test.  The widths and the test are those
    of the code, in double precision. *)
Theorem rows_are_packed_greedily
    (images : list ImageUtils.SmartStitchImage) (st : ImageUtils.Settings) :
  let rows := buildRows st images in
  concat rows = map (row_entry st) images /\
  Forall (fun row => row <> []) rows /\
  forall i row, rows !! i = Some row ->
    (forall k, (0 < k < length row)%nat -> reaches_container st (take k row) = false) /\
    ((S i < length rows)%nat -> reaches_container st row = true).
Proof. exact (buildRows_greedy st images). Qed.



End JustifiedLayoutFacts64.

Section ExportFacts64.
Import Number ImageUtils64.

(** A length in pixels, [(percent / 100) x size], as the export computes
    it: a number within four roundings of the exact product. *)
Lemma pixels_near percent size :
  exists px,
    mul (div (of_Q percent) (Finite 100)) (of_Q size) = Finite px /\
    near 4 px (percent / 100 * size).
Proof.
  unfold of_Q. rewrite div_Finite by discriminate. cbn [mul].
  eexists. split; [reflexivity |].
  apply near_double_of. change 3%nat with (2 + 1)%nat.
  apply near_mul; [| apply near_double].
  apply near_double_of. change 1%nat with (1 + 0)%nat.
  apply near_div; [discriminate | apply near_double | apply near_refl].
Qed.

Lemma growth_4_small : growth 4 <= 1 + (1 # 1000000000000).
Proof. vm_compute. discriminate. Qed.

(** The size of the canvas for a length of [px] pixels. *)
Lemma crop_canvas_size default px :
  0 <= px -> px <= pixel_limit * growth 4 ->
  HTMLCanvasElement.size default (max (Finite 1) (Math_round (Finite px)))
  = Z.max 1 (Qfloor (px + (1 # 2))).
Proof.
  intros H0 H1. cbn [Math_round max].
  set (r := Qfloor (px + (1 # 2))).
  assert (Hr0 : (0 <= r)%Z).
  { subst r. change 0%Z with (Qfloor 0). apply Qfloor_resp_le. lra. }
  assert (Hr1 : (r <= 1073741825)%Z).
  { subst r. change 1073741825%Z with (Qfloor 1073741825). apply Qfloor_resp_le.
    pose proof growth_4_small. unfold pixel_limit in H1. nra. }
  assert (E : Qmax 1 (inject_Z r) == inject_Z (Z.max 1 r)).
  { destruct (Z.max_spec 1 r) as [[Hlt ->] | [Hge ->]].
    - apply Q.max_r. change 1 with (inject_Z 1). rewrite <- Zle_Qle. lia.
    - apply Q.max_l. change 1 with (inject_Z 1). rewrite <- Zle_Qle. lia. }
  rewrite (size_comp default _ _ E). apply size_integer. lia.
Qed.

(** X12. The crop export never makes an empty canvas: for a valid region of
    an image of at most [2 ^ 30] pixels a side whose source loads, the
    lengths in pixels are within four roundings of
    [(percent / 100) x size]; the canvas is at least one pixel wide and
    high, and its size is the computed size of the region rounded to the
    nearest integer (hence within half a pixel of it) unless that would be
    below one pixel; the source rectangle starts inside the image and
    ends inside it within rounding tolerance, and it is drawn over the
    whole canvas.  Without a 2d context the promise rejects. *)
Theorem cropImage_canvas
    (loadImage : string -> option ImageUtils.HTMLImageElement) (imageSrc : string)
    (img : ImageUtils.HTMLImageElement) (crop : CropRegion.t) (originalWidth originalHeight : Q) :
  loadImage imageSrc = Some img -> valid_region crop ->
  0 <= originalWidth <= pixel_limit -> 0 <= originalHeight <= pixel_limit ->
  exists canvas pxX pxY pxW pxH,
    (forall has2d,
       cropImage has2d loadImage imageSrc crop originalWidth originalHeight
       = if has2d then ImageUtils.DataUrl canvas else ImageUtils.Rejected) /\
    crop_image canvas = img /\
    sx canvas = Finite pxX /\ sy canvas = Finite pxY /\
    sWidth canvas = Finite pxW /\ sHeight canvas = Finite pxH /\
    near 4 pxX (CropRegion.x crop / 100 * originalWidth) /\
    near 4 pxY (CropRegion.y crop / 100 * originalHeight) /\
    near 4 pxW (CropRegion.width crop / 100 * originalWidth) /\
    near 4 pxH (CropRegion.height crop / 100 * originalHeight) /\
    crop_canvas_width canvas = Z.max 1 (Qfloor (pxW + (1 # 2))) /\
    crop_canvas_height canvas = Z.max 1 (Qfloor (pxH + (1 # 2))) /\
    (1 <= crop_canvas_width canvas)%Z /\ (1 <= crop_canvas_height canvas)%Z /\
    (1 <= pxW -> pxW - (1 # 2) < inject_Z (crop_canvas_width canvas) <= pxW + (1 # 2)) /\
    (1 <= pxH -> pxH - (1 # 2) < inject_Z (crop_canvas_height canvas) <= pxH + (1 # 2)) /\
    0 <= pxX /\ 0 <= pxY /\
    pxX + pxW <= originalWidth * growth 4 /\
    pxY + pxH <= originalHeight * growth 4 /\
    crop_dx canvas = Finite 0 /\ crop_dy canvas = Finite 0 /\
    crop_dWidth canvas = crop_canvas_width canvas /\
    crop_dHeight canvas = crop_canvas_height canvas.
Proof.
  intros Hload (Hx & Hy & Hxw & Hyh & Hw & Hh) [HW0 HW1] [HH0 HH1].
  destruct (pixels_near (CropRegion.x crop) originalWidth) as (pxX & EX & NX).
  destruct (pixels_near (CropRegion.y crop) originalHeight) as (pxY & EY & NY).
  destruct (pixels_near (CropRegion.width crop) originalWidth) as (pxW & EW & NW).
  destruct (pixels_near (CropRegion.height crop) originalHeight) as (pxH & EH & NH).
  pose proof (growth_ge_1 4) as Hg.
  (* bounds on the computed lengths *)
  assert (Bounds : forall px percent size,
            0 <= percent -> 0 <= size -> near 4 px (percent / 100 * size) ->
            0 <= px /\ px <= percent / 100 * size * growth 4).
  { intros px percent size Hp Hs Hnear.
    assert (Hprod : 0 <= percent / 100 * size).
    { apply Qmult_le_0_compat; [apply Qle_shift_div_l; lra | exact Hs]. }
    revert Hprod Hnear. generalize (percent / 100 * size). intros v Hv Hnear.
    apply near_cases in Hnear.
    destruct Hnear as [(H1 & _ & H3 & _) | (H1 & H2 & H3 & H4)]; [split; assumption |].
    assert (E0 : v == 0) by (clear - Hv H2; lra). rewrite E0 in H3, H4 |- *.
    split; lra. }
  destruct (Bounds pxX _ _ Hx HW0 NX) as [HX0 HX1].
  destruct (Bounds pxY _ _ Hy HH0 NY) as [HY0 HY1].
  assert (Hw0 : 0 <= CropRegion.width crop) by lra.
  assert (Hh0 : 0 <= CropRegion.height crop) by lra.
  destruct (Bounds pxW _ _ Hw0 HW0 NW) as [HW0' HW1'].
  destruct (Bounds pxH _ _ Hh0 HH0 NH) as [HH0' HH1'].
  assert (Share : forall a b size, 0 <= size -> a + b <= 100 ->
            a / 100 * size * growth 4 + b / 100 * size * growth 4 <= size * growth 4).
  { intros a b size Hs Hab.
    assert (E : a / 100 * size * growth 4 + b / 100 * size * growth 4
                == (a + b) / 100 * (size * growth 4)) by field.
    rewrite E. assert (Ht : (a + b) / 100 <= 1) by (apply Qle_shift_div_r; lra).
    assert (Hp : 0 <= size * growth 4) by nra.
    revert Ht Hp. generalize ((a + b) / 100) (size * growth 4). intros t p Ht Hp. nra. }
  pose proof (Share _ _ originalWidth HW0 Hxw) as HsumW.
  pose proof (Share _ _ originalHeight HH0 Hyh) as HsumH.
  assert (HlimW : pxW <= pixel_limit * growth 4).
  { assert (CropRegion.width crop / 100 * originalWidth * growth 4 <= originalWidth * growth 4).
    { assert (H100 : 0 + CropRegion.width crop <= 100) by lra.
      pose proof (Share 0 (CropRegion.width crop) originalWidth HW0 H100) as H.
      assert (E : 0 / 100 * originalWidth * growth 4 == 0) by (unfold Qdiv; ring).
      rewrite E in H. lra. }
    nra. }
  assert (HlimH : pxH <= pixel_limit * growth 4).
  { assert (CropRegion.height crop / 100 * originalHeight * growth 4 <= originalHeight * growth 4).
    { assert (H100 : 0 + CropRegion.height crop <= 100) by lra.
      pose proof (Share 0 (CropRegion.height crop) originalHeight HH0 H100) as H.
      assert (E : 0 / 100 * originalHeight * growth 4 == 0) by (unfold Qdiv; ring).
      rewrite E in H. lra. }
    nra. }
  pose proof (crop_canvas_size 300 pxW HW0' HlimW) as Hcw.
  pose proof (crop_canvas_size 150 pxH HH0' HlimH) as Hch.
  assert (Round : forall px, 1 <= px ->
            px - (1 # 2) < inject_Z (Z.max 1 (Qfloor (px + (1 # 2)))) <= px + (1 # 2)).
  { intros px Hpx. pose proof (Qfloor_le (px + (1 # 2))) as Hlo.
    pose proof (Qlt_floor (px + (1 # 2))) as Hhi.
    rewrite inject_Z_plus in Hhi. change (inject_Z 1) with 1 in Hhi.
    assert (H1 : (Qfloor 1 <= Qfloor (px + (1 # 2)))%Z) by (apply Qfloor_resp_le; lra).
    change (Qfloor 1) with 1%Z in H1.
    rewrite Z.max_r by exact H1. lra. }
  eexists. exists pxX, pxY, pxW, pxH. split.
  { intros has2d. unfold cropImage. rewrite Hload, EX, EY, EW, EH, Hcw, Hch. reflexivity. }
  cbn [crop_image sx sy sWidth sHeight crop_canvas_width crop_canvas_height
       crop_dx crop_dy crop_dWidth crop_dHeight].
  repeat match goal with |- _ /\ _ => split end;
    try reflexivity; try assumption; try lia; try lra.
  all: try (intros ?; apply Round; assumption).
Qed.

Lemma cropImage_canvas_witness :
  let crop := CropRegion.mk "region-1" 10 10 58 58 false None false in
  let img := ImageUtils.mkImage "data:image/png;base64,AA" 25 25 in
  valid_region crop /\
  exists canvas,
    cropImage true (fun _ => Some img) "data:image/png;base64,AA" crop 25 25
    = ImageUtils.DataUrl canvas /\
    crop_canvas_width canvas = 14%Z /\ (1 <= crop_canvas_height canvas)%Z.
Proof.
  intros crop img.
  assert (Hvalid : valid_region crop) by (unfold valid_region; cbn; repeat split; lra).
  split; [exact Hvalid |].
  destruct (cropImage_canvas (fun _ => Some img) "data:image/png;base64,AA" img crop 25 25
              eq_refl Hvalid)
    as (canvas & pxX & pxY & pxW & pxH & Hcanvas & _ & _ & _ & _ & _ & _ & _ & _ & _ & _ & _ & _ & Hh & _).
  - unfold pixel_limit. split; lra.
  - unfold pixel_limit. split; lra.
  - exists canvas. split; [exact (Hcanvas true) |]. split; [| exact Hh].
    specialize (Hcanvas true). vm_compute in Hcanvas. injection Hcanvas as <-. reflexivity.
Defined.

End ExportFacts64.
